(** * databroker: key resolution, result views, the fill pipeline, document
    streams, export and aliases of [databroker/broker.py]

    The Python module is embedded shallowly.  Dictionaries that are only read
    and written by key ([data], [filled], [aliases], [assets]) are finite maps;
    dictionaries and sets that the code iterates over are kept as lists in
    iteration order.  Exceptions are values of [exn]; a generator is the list
    of what it yields together with the exception that ended it, if any. *)

From Stdlib Require Import ZArith List Ascii String Bool Lia.
From stdpp Require Import functions base option list strings gmap.
Import ListNotations.

Set Warnings "-register-all".

(** ** Python values, exceptions and results *)

Module Py.

(** Messages of the exceptions raised in [broker.py] and by the list slicing
    it uses. *)
Inductive message :=
| MustGiveKey                                  (* default [search] *)
| SliceStartMustBeNegative (start : Z)
| SliceStopMustBeNonPositive (stop : Z)
| SliceStartCannotBeNone
| SliceStepCannotBeZero                        (* raised by list slicing *)
| NoSuchScanId (key : Z)
| ThereAreOnlyRuns (i : nat)
| NoSuchRun (key : string)
| MatchesRuns (key : string) (n : nat)
| NotLegalAlias (key : string).

(** Python's exceptions, and [FieldNotFound], the name the spec gives to what
    [check_fields_exist] raises. *)
Inductive exn :=
| ValueError (m : message)
| IndexError (m : message)
| KeyError (k : string)
| TypeError (what : string)
| AttributeError (k : string)
| UnboundLocalError (var : string)
| FieldNotFound (missing : list string).

Inductive result (A : Type) :=
| OK (a : A)
| Raise (e : exn).
Arguments OK {A} a.
Arguments Raise {A} e.

#[export] Instance result_ret : MRet result := fun _ a => OK a.
#[export] Instance result_bind : MBind result := fun _ _ f m =>
  match m with
  | OK a => f a
  | Raise e => Raise e
  end.

(** Values found in the [data] and [filled] dictionaries of an event: scalars,
    reference ids (strings) and retrieved payloads (arrays). *)
Inductive value :=
| VNone
| VBool (b : bool)
| VInt (z : Z)
| VStr (s : string)
| VArr (a : list Z).

#[export] Instance value_eq_dec : EqDecision value.
Proof. solve_decision. Defined.

(** [lst[start::step]], following [slice.indices]: a missing step is 1, a zero
    step raises, a negative start counts from the end, and the start is
    clamped to the list. *)
Definition slice_start (len : Z) (start : option Z) (step : Z) : Z :=
  let lower := if (step <? 0)%Z then (-1)%Z else 0%Z in
  let upper := if (step <? 0)%Z then (len - 1)%Z else len in
  match start with
  | None => if (step <? 0)%Z then upper else lower
  | Some s =>
      if (s <? 0)%Z
      then Z.max (s + len) lower
      else Z.min s upper
  end.

Definition slice_count (len start step : Z) : nat :=
  if (0 <? step)%Z
  then (if (start <? len)%Z then Z.to_nat ((len - start - 1) / step + 1) else 0%nat)
  else (if (-1 <? start)%Z then Z.to_nat ((start - (-1) - 1) / (- step) + 1) else 0%nat).

Definition slice_from {A} (l : list A) (start step : option Z) : result (list A) :=
  let st := default 1%Z step in
  if (st =? 0)%Z then Raise (ValueError SliceStepCannotBeZero)
  else
    let len := Z.of_nat (length l) in
    let s0 := slice_start len start st in
    OK (omap (fun k => l !! Z.to_nat (s0 + Z.of_nat k * st)%Z)
             (seq 0 (slice_count len s0 st))).

End Py.
Export Py.

(** ** Documents *)

(** Of each document the entries the broker reads are kept.  The wrapper
    [doct.Document] stores the document's display name under the key [_name];
    the fields [.._doct_name] are that entry ([None] for a plain dict). *)

(** [DOCT_NAMES]; [None] is a missing key. *)
Definition DOCT_NAMES (name : string) : option string :=
  if String.eqb name "resource" then Some "Resource"
  else if String.eqb name "datum" then Some "Datum"
  else if String.eqb name "descriptor" then Some "Event Descriptor"
  else if String.eqb name "event" then Some "Event"
  else if String.eqb name "start" then Some "Run Start"
  else if String.eqb name "stop" then Some "Run Stop"
  else None.

Record RunStart := mkRunStart {
  start_uid : string;
  scan_id : Z;
  start_doct_name : option string
}.

Record RunStop := mkRunStop {
  stop_uid : string;
  stop_run_start : string;
  stop_doct_name : option string
}.

(** One entry of [data_keys]; [external] is [v.get('external', None)]. *)
Record DataKey := mkDataKey {
  dtype : string;
  external : option string
}.

Record Descriptor := mkDescriptor {
  desc_uid : string;
  desc_run_start : string;
  desc_name : string;                          (* the stream name *)
  data_keys : list (string * DataKey);         (* dict, in iteration order *)
  desc_doct_name : option string
}.

Record Event := mkEvent {
  ev_uid : string;
  descriptor : string;
  seq_num : Z;
  data : gmap string value;
  timestamps : gmap string Z;
  filled : gmap string value;
  ev_doct_name : option string
}.

Inductive document :=
| DStart (d : RunStart)
| DStop (d : RunStop)
| DDescriptor (d : Descriptor)
| DEvent (d : Event).

#[export] Instance RunStart_eq_dec : EqDecision RunStart.
Proof. solve_decision. Defined.
#[export] Instance RunStop_eq_dec : EqDecision RunStop.
Proof. solve_decision. Defined.

(** [Header] of [databroker.core]: the start and stop documents of a run; the
    stop document is absent while the run is open.  The broker the Python
    object points to is passed explicitly where it is needed. *)
Record Header := mkHeader {
  start : RunStart;
  stop : option RunStop
}.

Definition header_uid (h : Header) : string := start_uid (start h).

(** ** The header source and the calls made on it *)

(** The interface [search] needs from [db.hs] (the metadata store): the three
    [find_run_starts] queries it issues, [find_last], and [safe_get_stop].
    Every result is most recent first. *)
Record HeaderSource := mkHeaderSource {
  find_run_starts_uid : string -> list RunStart;        (* uid=key *)
  find_run_starts_regex : string -> list RunStart;      (* uid={'$regex': pattern} *)
  find_run_starts_scan_id : Z -> list RunStart;         (* scan_id=key *)
  find_last : Z -> list RunStart;
  safe_get_stop : RunStart -> option RunStop
}.

(** A call made on the header source. *)
Inductive hs_call :=
| FindUid (key : string)
| FindRegex (pattern : string)
| FindScanId (key : Z)
| FindLast (num : Z)
| GetStop (uid : string).

(** Computations that call the header source: the calls made so far, in order,
    and the outcome. *)
Definition traced (A : Type) : Type := list hs_call * result A.

#[export] Instance traced_ret : MRet traced := fun _ a => ([], OK a).
#[export] Instance traced_bind : MBind traced := fun _ _ f m =>
  match m with
  | (log, OK a) => let '(log', r) := f a in (log ++ log', r)
  | (log, Raise e) => (log, Raise e)
  end.

Definition raise {A} (e : exn) : traced A := ([], Raise e).
Definition calls {A} (m : traced A) : list hs_call := fst m.
Definition outcome {A} (m : traced A) : result A := snd m.

(** A generator run to its end: what it yielded, and the exception that ended
    it, if one did. *)
Definition generated (A : Type) : Type := list A * option exn.

(** The keys [db[key]] accepts.  A set is given by its elements in the order
    the set iterates them; [KOther] stands for a key of any other type. *)
Inductive key :=
| KInt (n : Z)
| KSlice (start stop step : option Z)
| KStr (s : string)
| KSet (ks : list key)
| KTuple (ks : list key)
| KList (ks : list key)
| KOther.

Section Search.
Variable hs : HeaderSource.

Definition call_find_uid (key : string) : traced (list RunStart) :=
  ([FindUid key], OK (find_run_starts_uid hs key)).
Definition call_find_regex (pattern : string) : traced (list RunStart) :=
  ([FindRegex pattern], OK (find_run_starts_regex hs pattern)).
Definition call_find_scan_id (key : Z) : traced (list RunStart) :=
  ([FindScanId key], OK (find_run_starts_scan_id hs key)).
Definition call_find_last (num : Z) : traced (list RunStart) :=
  ([FindLast num], OK (find_last hs num)).
Definition call_safe_get_stop (s : RunStart) : traced (option RunStop) :=
  ([GetStop (start_uid s)], OK (safe_get_stop hs s)).

(** [list(zip(result, list(safe_get_stop(db.hs, s) for s in result)))] *)
Fixpoint with_stops (result : list RunStart)
  : traced (list (RunStart * option RunStop)) :=
  match result with
  | [] => mret []
  | s :: rest =>
      st ← call_safe_get_stop s;
      pairs ← with_stops rest;
      mret ((s, st) :: pairs)
  end.

(** [search.register(slice)] *)
Definition search_slice (key_start key_stop key_step : option Z)
  : traced (list (RunStart * option RunStop)) :=
  _ ← match key_start with
      | Some a =>
          if (a >? -1)%Z then raise (ValueError (SliceStartMustBeNegative a))
          else mret tt
      | None => mret tt
      end;
  _ ← match key_stop with
      | Some b =>
          if (b >? 0)%Z then raise (ValueError (SliceStopMustBeNonPositive b))
          else mret tt
      | None => mret tt
      end;
  let stop := Z.opp <$> key_stop in
  start ← match key_start with
          | None => raise (ValueError SliceStartCannotBeNone)
          | Some a => mret (- a)%Z
          end;
  found ← call_find_last start;
  result ← ([], slice_from found stop key_step);
  with_stops result.

(** The loop [for i in range(-key): result = next(gen)] of the integer
    branch; [i] counts the runs obtained so far. *)
Fixpoint nth_last (count i : nat) (gen : list RunStart)
    (result : option RunStart) : Py.result RunStart :=
  match count with
  | O =>
      match result with
      | Some r => OK r
      | None => Raise (UnboundLocalError "result")
      end
  | S count' =>
      match gen with
      | [] => Raise (IndexError (ThereAreOnlyRuns i))
      | r :: gen' => nth_last count' (S i) gen' (Some r)
      end
  end.

(** [search.register(numbers.Integral)] *)
Definition search_int (key : Z) : traced (list (RunStart * option RunStop)) :=
  result ←
    (if (key >? -1)%Z then
       gen ← call_find_scan_id key;
       match gen with
       | r :: _ => mret r
       | [] => raise (ValueError (NoSuchScanId key))
       end
     else
       gen ← call_find_last (- key)%Z;
       ([], nth_last (Z.to_nat (- key)) 0 gen None));
  st ← call_safe_get_stop result;
  mret [(result, st)].

(** Python's [not results] for [results] that is [None] or a list. *)
Definition not_results (results : option (list RunStart)) : bool :=
  match results with
  | None | Some [] => true
  | Some (_ :: _) => false
  end.

(** [search.register(str)] *)
Definition search_str (key : string) : traced (list (RunStart * option RunStop)) :=
  results ←
    (if (String.length key =? 36)%nat
     then l ← call_find_uid key; mret (Some l)
     else mret None);
  results ←
    (if not_results results
     then l ← call_find_regex (key +:+ ".*"); mret (Some l)
     else mret results);
  match results with
  | None | Some [] => raise (ValueError (NoSuchRun key))
  | Some [result] =>
      st ← call_safe_get_stop result;
      mret [(result, st)]
  | Some l => raise (ValueError (MatchesRuns key (length l)))
  end.

(** [search]: dispatch on the type of the key.  The collection branch is
    [sum((search(k, db) for k in key), [])]. *)
Fixpoint search (k : key) : traced (list (RunStart * option RunStop)) :=
  let search_each :=
    fix go (acc : list (RunStart * option RunStop)) (ks : list key) :=
      match ks with
      | [] => mret acc
      | k' :: rest => r ← search k'; go (acc ++ r) rest
      end in
  match k with
  | KInt n => search_int n
  | KSlice a b c => search_slice a b c
  | KStr s => search_str s
  | KSet ks | KTuple ks | KList ks => search_each [] ks
  | KOther => raise (ValueError MustGiveKey)
  end.

End Search.

(** ** Attaching the display name: [wrap_in_deprecated_doct] *)

Definition start_with_name (n : option string) (d : RunStart) : RunStart :=
  mkRunStart (start_uid d) (scan_id d) n.
Definition stop_with_name (n : option string) (d : RunStop) : RunStop :=
  mkRunStop (stop_uid d) (stop_run_start d) n.
Definition descriptor_with_name (n : option string) (d : Descriptor) : Descriptor :=
  mkDescriptor (desc_uid d) (desc_run_start d) (desc_name d) (data_keys d) n.
Definition with_doct_name (n : option string) (ev : Event) : Event :=
  mkEvent (ev_uid ev) (descriptor ev) (seq_num ev) (data ev) (timestamps ev)
          (filled ev) n.

Definition set_doct_name (n : option string) (doc : document) : document :=
  match doc with
  | DStart d => DStart (start_with_name n d)
  | DStop d => DStop (stop_with_name n d)
  | DDescriptor d => DDescriptor (descriptor_with_name n d)
  | DEvent d => DEvent (with_doct_name n d)
  end.

(** [self.prepare_hook(name, doc)] with the hook installed by [__init__],
    [wrap_in_deprecated_doct]: a name outside [DOCT_NAMES] raises. *)
Definition prepare_hook (name : string) (doc : document) : result document :=
  match DOCT_NAMES name with
  | Some n => OK (set_doct_name (Some n) doc)
  | None => Raise (KeyError name)
  end.

(** [_sanitize]: a plain dict without the [_name] entry. *)
Definition _sanitize (doc : document) : document := set_doct_name None doc.

Definition wrap_start (d : RunStart) : RunStart :=
  start_with_name (DOCT_NAMES "start") d.
Definition wrap_stop (d : RunStop) : RunStop :=
  stop_with_name (DOCT_NAMES "stop") d.

(** The header of a run that has a stop document, both documents wrapped. *)
Definition closed_header (s : RunStart) (st : RunStop) : Header :=
  mkHeader (wrap_start s) (Some (wrap_stop st)).

(** [Header(start=prepare_hook('start', start), stop=prepare_hook('stop', stop), db)].
    For a run without a stop document [stop] is [None], and the hook, which
    builds the dict [DeprecatedDoct('Run Stop', None)] from its argument,
    raises [TypeError]. *)
Definition make_header (p : RunStart * option RunStop) : result Header :=
  match p.2 with
  | Some st => OK (closed_header p.1 st)
  | None => Raise (TypeError "'NoneType' object is not iterable")
  end.

(** [[Header(...) for start, stop in found]]: the first pair that raises ends
    the comprehension. *)
Fixpoint make_headers (found : list (RunStart * option RunStop))
    : result (list Header) :=
  match found with
  | [] => OK []
  | p :: rest =>
      h ← make_header p;
      l ← make_headers rest;
      OK (h :: l)
  end.

(** ** Collaborators of the broker *)

(** A query: the keyword arguments of a search. *)
Abbreviation query := (gmap string value).

(** What the broker calls when it calls the header source itself:
    [self.hs(text_search=..., filters=..., **kwargs)]. *)
Record HeaderSearch := mkHeaderSearch {
  run_search : option value -> list query -> query ->
               list (RunStart * option RunStop)
}.

(** The stream selector of the document methods: the sentinel [ALL] or a
    stream name. *)
Inductive stream_sel :=
| ALL
| Stream (name : string).

(** The interface of an event source. *)
Record EventSource := mkEventSource {
  descriptors_given_header : Header -> list Descriptor;
  docs_given_header : Header -> stream_sel -> option (list string) ->
                      list (string * document)
}.

(** The asset registry: [retrieve] under the handlers that are active.  The
    argument of [retrieve_with] is the override installed by the enclosing
    [handler_context], if any. *)
Record Registry := mkRegistry {
  retrieve_with : option (gmap string string) -> value -> result value
}.

Definition retrieve (reg : Registry) (datum_id : value) : result value :=
  retrieve_with reg None datum_id.

(** The registry as it behaves inside [with reg.handler_context(overrides)]. *)
Definition handler_context (reg : Registry)
    (handler_registry : option (gmap string string)) : Registry :=
  mkRegistry (fun inner =>
    retrieve_with reg (match inner with Some _ => inner | None => handler_registry end)).

Inductive alias_value :=
| StaticAlias (q : query)                      (* set by [alias] *)
| DynamicAlias (func : unit -> query).         (* set by [dynamic_alias] *)

(** The state of a [BrokerES] object.  [attributes] are the names ordinary
    attribute lookup finds on it (instance and class attributes), that is
    without the fallback [__getattr__]. *)
Record Broker := mkBroker {
  hs : HeaderSource;
  hs_search : HeaderSearch;
  event_sources : list EventSource;
  assets : gmap string Registry;
  filters : list query;
  aliases : gmap string alias_value;
  attributes : gset string
}.

(** Modelled from the spec: [Header.descriptors] of [databroker.core], which
    is defined outside the embedded sources: the descriptors of the run,
    merged across the registered event sources in registration order. *)
Definition header_descriptors (db : Broker) (h : Header) : list Descriptor :=
  concat (map (fun es => descriptors_given_header es h) (event_sources db)).

(** [self.reg], that is [self.assets['']]. *)
Definition reg (db : Broker) : result Registry :=
  match assets db !! "" with
  | Some r => OK r
  | None => Raise (KeyError "")
  end.

(** ** Indexing: [BrokerES.__getitem__] *)

Inductive getitem_result :=
| OneHeader (h : Header)
| HeaderList (l : list Header).

(** [isinstance(key, (set, tuple, MutableSequence, slice))] *)
Definition is_multi_key (k : key) : bool :=
  match k with
  | KSet _ | KTuple _ | KList _ | KSlice _ _ _ => true
  | KInt _ | KStr _ | KOther => false
  end.

Definition __getitem__ (db : Broker) (k : key) : traced getitem_result :=
  found ← search (hs db) k;
  ret ← (([], make_headers found) : traced (list Header));
  let squeeze := negb (is_multi_key k) in
  match ret with
  | [h] => if squeeze then mret (OneHeader h) else mret (HeaderList ret)
  | _ => mret (HeaderList ret)
  end.

(** ** The results view: [Results] *)

Abbreviation run_pair := (RunStart * option RunStop)%type.

(** The iterator behind [Results._res].  [itertools.tee] makes its branches
    share the underlying iterator and a queue of the items already drawn from
    it: [drawn] is that queue, [source] what the underlying iterator has still
    to produce.  A branch is a position in [drawn ++ source]. *)
Record tee_shared := mkTee {
  drawn : list run_pair;
  source : list run_pair
}.

Record Results := mkResults {
  _shared : tee_shared;
  _res : nat;                                  (* position of [self._res] *)
  _data_key : option value
}.

(** [Results(res, db, data_key)]: nothing has been drawn yet. *)
Definition Results_init (res : list run_pair) (data_key : option value) : Results :=
  mkResults (mkTee [] res) 0 data_key.

(** [next] on a branch at position [pos]. *)
Definition tee_next (sh : tee_shared) (pos : nat)
    : option (run_pair * tee_shared * nat) :=
  match drawn sh !! pos with
  | Some x => Some (x, sh, S pos)
  | None =>
      match source sh with
      | [] => None
      | x :: rest => Some (x, mkTee (drawn sh ++ [x]) rest, S pos)
      end
  end.

(** [self._data_key in descriptor['data_keys']]: a string is looked up, any
    other value that can be hashed is no key of the dict, and an array cannot
    be hashed, which makes the test raise [TypeError]. *)
Definition has_data_key (data_key : value) (d : Descriptor) : result bool :=
  match data_key with
  | VStr k => OK (bool_decide (k ∈ (data_keys d).*1))
  | VArr _ => Raise (TypeError "unhashable type")
  | VNone | VBool _ | VInt _ => OK false
  end.

(** [for descriptor in header['descriptors']: if ...: yield header; break] *)
Fixpoint any_has_data_key (data_key : value) (ds : list Descriptor) : result bool :=
  match ds with
  | [] => OK false
  | d :: rest =>
      match has_data_key data_key d with
      | OK true => OK true
      | OK false => any_has_data_key data_key rest
      | Raise e => Raise e
      end
  end.

(** Whether the body of the loop in [__iter__] yields the header. *)
Definition yields_header (db : Broker) (data_key : option value) (h : Header)
    : result bool :=
  match data_key with
  | None => OK true
  | Some k => any_has_data_key k (header_descriptors db h)
  end.

(** The loop [for start, stop in res] of [__iter__], run to the end of [res]
    or to the first pair for which building the header or the [data_key] test
    raises; [fuel] bounds the number of items.  The pair that raised has been
    drawn from the underlying iterator. *)
Fixpoint iter_loop (fuel : nat) (db : Broker) (data_key : option value)
    (sh : tee_shared) (pos : nat) : generated Header * tee_shared :=
  match fuel with
  | O => (([], None), sh)
  | S fuel' =>
      match tee_next sh pos with
      | None => (([], None), sh)
      | Some (p, sh', pos') =>
          match make_header p with
          | Raise e => (([], Some e), sh')
          | OK h =>
              match yields_header db data_key h with
              | Raise e => (([], Some e), sh')
              | OK found =>
                  let '((rest, e), sh'') := iter_loop fuel' db data_key sh' pos' in
                  ((if found then h :: rest else rest, e), sh'')
              end
          end
      end
  end.

(** The items a branch at [pos] has still to see. *)
Definition remaining (sh : tee_shared) (pos : nat) : list run_pair :=
  drop pos (drawn sh ++ source sh).

(** [Results.__iter__], run to its end: the headers yielded and the exception
    that ended the iteration, if one did, and the view afterwards.
    [self._res, res = itertools.tee(self._res)] leaves both branches at the
    position [self._res] had. *)
Definition __iter__ (db : Broker) (v : Results) : generated Header * Results :=
  let pos := _res v in
  let '(out, sh) :=
    iter_loop (S (length (remaining (_shared v) pos))) db (_data_key v)
              (_shared v) pos in
  (out, mkResults sh pos (_data_key v)).

(** What one iteration yields from the items [l]: the headers that pass the
    [data_key] test, in order, up to the first item for which building the
    header or the test raises. *)
Fixpoint yielded (db : Broker) (data_key : option value) (l : list run_pair)
    : generated Header :=
  match l with
  | [] => ([], None)
  | p :: rest =>
      match make_header p with
      | Raise e => ([], Some e)
      | OK h =>
          match yields_header db data_key h with
          | Raise e => ([], Some e)
          | OK found =>
              let '(out, e) := yielded db data_key rest in
              (if found then h :: out else out, e)
          end
      end
  end.

(** [BrokerES.__call__].  [text_search] and [filters] are passed to the header
    source by keyword next to [**kwargs]; a query that holds one of these
    names again makes the call raise [TypeError].  Python binds a keyword
    [text_search] of the caller to the parameter, so [kwargs] holds it only
    when the model is handed such a mapping directly. *)
Definition __call__ (db : Broker) (text_search : option value) (kwargs : query)
    : result Results :=
  let data_key := kwargs !! "data_key" in
  let kwargs := delete "data_key" kwargs in
  if bool_decide ("text_search" ∈ dom kwargs)
  then Raise (TypeError "got multiple values for keyword argument 'text_search'")
  else if bool_decide ("filters" ∈ dom kwargs)
  then Raise (TypeError "got multiple values for keyword argument 'filters'")
  else
    let res := run_search (hs_search db) text_search (filters db) kwargs in
    OK (Results_init res (match data_key with Some VNone => None | k => k end)).

(** ** The fill pipeline: [_fill_events_coro], [fill_events], [fill_table] *)

(** The argument [fields] of the fill methods: [True], [False], [None], a set,
    or another iterable (a list or tuple). *)
Inductive fields_arg :=
| FieldsTrue
| FieldsFalse
| FieldsNone
| FieldsSet (s : list string)
| FieldsSeq (l : list string).

(** [fields] after the first [if]/[elif] chain: [None] (fill everything), a
    set, or an empty iterable that was left as it is because it is falsy. *)
Inductive selector :=
| SelectAll
| SelectSet (s : list string)
| SelectEmptySeq.

(** [None] stands for the branch [fields is False]. *)
Definition normalise_fields (fields : fields_arg) : option selector :=
  match fields with
  | FieldsTrue => Some SelectAll
  | FieldsFalse => None
  | FieldsNone => Some SelectAll
  | FieldsSet s => Some (SelectSet s)
  | FieldsSeq [] => Some SelectEmptySeq
  | FieldsSeq l => Some (SelectSet l)
  end.

(** [if ext:] for [ext = v.get('external', None)] *)
Definition is_external (v : DataKey) : bool :=
  match external v with
  | Some s => negb (String.eqb s "")
  | None => false
  end.

(** [fill_keys &= fields] *)
Definition restrict_keys (fill_keys : list string) (sel : selector)
    : result (list string) :=
  match sel with
  | SelectAll => OK fill_keys
  | SelectSet s => OK (filter (fun k => k ∈ s) fill_keys)
  | SelectEmptySeq => Raise (TypeError "unsupported operand type(s) for &=")
  end.

(** [d[key] = v] on a dict kept in iteration order: an existing key keeps its
    place. *)
Fixpoint dict_set {V} (d : list (string * V)) (key : string) (v : V)
    : list (string * V) :=
  match d with
  | [] => [(key, v)]
  | (k, w) :: rest =>
      if String.eqb k key then (k, v) :: rest else (k, w) :: dict_set rest key v
  end.

Abbreviation registry_map_t := (gmap (string * string) Registry).
Abbreviation fill_map_t := (list (string * list string)).

(** The inner loop of the set-up, over [d['data_keys']]: the keys marked
    external, each entered in [registry_map] under [(desc_id, k)].  The set
    [fill_keys] is kept as a list without repetitions, in the order of
    [data_keys]; Python leaves the order in which it iterates a set open. *)
Fixpoint collect_external (db : Broker) (desc_id : string)
    (dks : list (string * DataKey)) (registry_map : registry_map_t)
    (fill_keys : list string) : result (registry_map_t * list string) :=
  match dks with
  | [] => OK (registry_map, fill_keys)
  | (k, v) :: rest =>
      if is_external v then
        r ← reg db;
        collect_external db desc_id rest (<[(desc_id, k) := r]> registry_map)
                         (if bool_decide (k ∈ fill_keys) then fill_keys
                          else fill_keys ++ [k])
      else collect_external db desc_id rest registry_map fill_keys
  end.

(** The outer loop of the set-up, over the descriptors. *)
Fixpoint build_maps (db : Broker) (sel : selector) (descriptors : list Descriptor)
    (registry_map : registry_map_t) (fill_map : fill_map_t)
    : result (registry_map_t * fill_map_t) :=
  match descriptors with
  | [] => OK (registry_map, fill_map)
  | d :: rest =>
      let desc_id := desc_uid d in
      '(registry_map, fill_keys) ←
        collect_external db desc_id (data_keys d) registry_map [];
      fill_keys ← restrict_keys fill_keys sel;
      build_maps db sel rest registry_map (dict_set fill_map desc_id fill_keys)
  end.

(** The coroutine once it is primed and waits at a [yield]: either the
    pass-through loop of [fields is False] or the filling loop with its two
    maps. *)
Inductive coro :=
| PassThrough
| Filling (registry_map : registry_map_t) (fill_map : fill_map_t) (inplace : bool).

(** [proc_gen = self._fill_events_coro(...); proc_gen.send(None)] *)
Definition _fill_events_coro (db : Broker) (descriptors : list Descriptor)
    (fields : fields_arg) (inplace : bool) : result coro :=
  match normalise_fields fields with
  | None => OK PassThrough
  | Some sel =>
      '(registry_map, fill_map) ← build_maps db sel descriptors ∅ [];
      OK (Filling registry_map fill_map inplace)
  end.

Definition with_data_filled (ev : Event) (data' filled' : gmap string value) : Event :=
  mkEvent (ev_uid ev) (descriptor ev) (seq_num ev) data' (timestamps ev)
          filled' (ev_doct_name ev).

(** The body of [for dk in v]: one key of one entry of [fill_map]. *)
Definition fill_one (registry_map : registry_map_t) (desc_id : string)
    (dk : string) (df : gmap string value * gmap string value)
    : result (gmap string value * gmap string value) :=
  let '(data, filled) := df in
  match data !! dk with
  | None => Raise (KeyError dk)
  | Some d_id =>
      match registry_map !! (desc_id, dk) with
      | None => Raise (KeyError ("(" +:+ desc_id +:+ ", " +:+ dk +:+ ")"))
      | Some r =>
          payload ← retrieve r d_id;
          OK (<[dk := payload]> data, <[dk := d_id]> filled)
      end
  end.

Fixpoint fill_keys_loop (registry_map : registry_map_t) (desc_id : string)
    (v : list string) (df : gmap string value * gmap string value)
    : result (gmap string value * gmap string value) :=
  match v with
  | [] => OK df
  | dk :: rest =>
      df' ← fill_one registry_map desc_id dk df;
      fill_keys_loop registry_map desc_id rest df'
  end.

(** [for k, v in six.iteritems(fill_map): for dk in v: ...]: every entry of
    [fill_map] is visited; [desc_id] is the descriptor of the event. *)
Fixpoint fill_map_loop (registry_map : registry_map_t) (desc_id : string)
    (fill_map : fill_map_t) (df : gmap string value * gmap string value)
    : result (gmap string value * gmap string value) :=
  match fill_map with
  | [] => OK df
  | (k, v) :: rest =>
      df' ← fill_keys_loop registry_map desc_id v df;
      fill_map_loop registry_map desc_id rest df'
  end.

(** [proc_gen.send(ev)]: the event the coroutine yields back.  The coroutine
    keeps no state between events.  When the loop raises, what an in-place
    fill has already written stays in the caller's event; the model keeps the
    exception only. *)
Definition send (c : coro) (ev : Event) : result Event :=
  match c with
  | PassThrough => OK ev
  | Filling registry_map fill_map inplace =>
      let ev := if inplace then ev
                else with_doct_name (DOCT_NAMES "event") (with_doct_name None ev) in
      '(data', filled') ←
        fill_map_loop registry_map (descriptor ev) fill_map (data ev, filled ev);
      OK (with_data_filled ev data' filled')
  end.

(** The loop [for ev in events: yield proc_gen.send(ev)] on event values: the
    items of [events] are the values of distinct objects.  The loop on
    objects, where one object may occur twice and an in-place fill is seen by
    the later occurrence, is [send_each_objects]. *)
Fixpoint send_each (c : coro) (events : list Event) : generated Event :=
  match events with
  | [] => ([], None)
  | ev :: rest =>
      match send c ev with
      | OK ev' => let '(out, e) := send_each c rest in (ev' :: out, e)
      | Raise e => ([], Some e)
      end
  end.

(** [fill_events] *)
Definition fill_events (db : Broker) (events : list Event)
    (descriptors : list Descriptor) (fields : fields_arg) (inplace : bool)
    : generated Event :=
  match _fill_events_coro db descriptors fields inplace with
  | OK c => send_each c events
  | Raise e => ([], Some e)
  end.

(** The field [k] is a fill key of [d] under the selector [sel]: it is marked
    external in [d] and requested. *)
Definition is_fill_key (sel : selector) (d : Descriptor) (k : string) : Prop :=
  (∃ v, (k, v) ∈ data_keys d ∧ is_external v = true)
  ∧ match sel with
    | SelectAll => True
    | SelectSet s => k ∈ s
    | SelectEmptySeq => False
    end.

(** A table: its columns by name. *)
Abbreviation table := (gmap string (list Py.value)).

(** [[reg.retrieve(value) for value in table[k]]] *)
Fixpoint retrieve_column (r : Registry) (column : list value) : result (list value) :=
  match column with
  | [] => OK []
  | v :: rest =>
      p ← retrieve r v;
      ps ← retrieve_column r rest;
      OK (p :: ps)
  end.

Fixpoint fill_columns (registry_map : gmap string Registry)
    (fill_keys : list string) (t : table) : result table :=
  match fill_keys with
  | [] => OK t
  | k :: rest =>
      match registry_map !! k with
      | None => Raise (KeyError k)
      | Some r =>
          match t !! k with
          | None => Raise (KeyError k)
          | Some column =>
              filled_column ← retrieve_column r column;
              fill_columns registry_map rest (<[k := filled_column]> t)
          end
      end
  end.

Fixpoint collect_external_columns (db : Broker) (dks : list (string * DataKey))
    (registry_map : gmap string Registry) (fill_keys : list string)
    : result (gmap string Registry * list string) :=
  match dks with
  | [] => OK (registry_map, fill_keys)
  | (k, v) :: rest =>
      if is_external v then
        r ← reg db;
        collect_external_columns db rest (<[k := r]> registry_map)
          (if bool_decide (k ∈ fill_keys) then fill_keys else fill_keys ++ [k])
      else collect_external_columns db rest registry_map fill_keys
  end.

(** [fill_table]; [table.copy()] of the branch [not inplace] yields an equal
    table. *)
Definition fill_table (db : Broker) (t : table) (d : Descriptor)
    (fields : fields_arg) (inplace : bool) : result table :=
  match normalise_fields fields with
  | None => OK t
  | Some sel =>
      '(registry_map, fill_keys) ←
        collect_external_columns db (data_keys d) ∅ [];
      fill_keys ← restrict_keys fill_keys sel;
      fill_columns registry_map fill_keys t
  end.

(** ** The document stream: [get_documents], [get_events] *)

(** The argument [headers]: one header or a sequence of headers. *)
Inductive headers_arg :=
| SingleHeader (h : Header)
| HeaderSeq (l : list Header).

(** The [try: headers.items()] prologue. *)
Definition normalise_headers (headers : headers_arg) : list Header :=
  match headers with
  | SingleHeader h => [h]
  | HeaderSeq l => l
  end.

(** Modelled from the spec: [check_fields_exist] of [databroker.eventsource],
    which is defined outside the embedded sources.  Every name in [fields]
    must appear in the [data_keys] of at least one descriptor across all the
    given headers; otherwise the check fails with [FieldNotFound]. *)
Definition check_fields_exist (db : Broker) (fields : list string)
    (headers : list Header) : result unit :=
  let all_fields :=
    flat_map (fun h => flat_map (fun d => (data_keys d).*1)
                                (header_descriptors db h)) headers in
  match filter (fun f => f ∉ all_fields) fields with
  | [] => OK tt
  | missing => Raise (FieldNotFound missing)
  end.

(** [proc_gen.send(doc)] on whatever the event source produced under the name
    ['event']: the filling loop reads [ev['data']]. *)
Definition send_doc (c : coro) (doc : document) : result document :=
  match c, doc with
  | PassThrough, _ => OK doc
  | Filling _ _ _, DEvent ev => ev' ← send c ev; OK (DEvent ev')
  | Filling _ _ _, _ => Raise (KeyError "data")
  end.

(** [for name, doc in gen: ...; yield name, self.prepare_hook(name, doc)] *)
Fixpoint emit_docs (c : coro) (gen : list (string * document))
    : generated (string * document) :=
  match gen with
  | [] => ([], None)
  | (name, doc) :: rest =>
      match (doc' ← (if String.eqb name "event" then send_doc c doc else OK doc);
             prepare_hook name doc') with
      | Raise e => ([], Some e)
      | OK prepared =>
          let '(out, e) := emit_docs c rest in ((name, prepared) :: out, e)
      end
  end.

(** Running one generator after another. *)
Definition gen_then {A} (g : generated A) (next : generated A) : generated A :=
  match g with
  | (out, Some e) => (out, Some e)
  | (out, None) => let '(out', e) := next in (out ++ out', e)
  end.

(** [for es in self.event_sources: ...] *)
Fixpoint emit_sources (c : coro) (sources : list EventSource) (h : Header)
    (stream_name : stream_sel) (fields : option (list string))
    : generated (string * document) :=
  match sources with
  | [] => ([], None)
  | es :: rest =>
      gen_then (emit_docs c (docs_given_header es h stream_name fields))
               (emit_sources c rest h stream_name fields)
  end.

(** [for h in headers: ...].  Headers are [Header] objects, as the docstring
    asks; the re-resolution of a plain mapping through [self[uid]] is not
    part of the model. *)
Fixpoint emit_headers (db : Broker) (headers : list Header)
    (stream_name : stream_sel) (fields : option (list string)) (fill : fields_arg)
    : generated (string * document) :=
  match headers with
  | [] => ([], None)
  | h :: rest =>
      match _fill_events_coro db (header_descriptors db h) fill true with
      | Raise e => ([], Some e)
      | OK proc_gen =>
          gen_then (emit_sources proc_gen (event_sources db) h stream_name fields)
                   (emit_headers db rest stream_name fields fill)
      end
  end.

Definition with_assets (db : Broker) (a : gmap string Registry) : Broker :=
  mkBroker (hs db) (hs_search db) (event_sources db) a (filters db)
           (aliases db) (attributes db).

(** [BrokerES.get_documents] *)
Definition get_documents (db : Broker) (headers : headers_arg)
    (stream_name : stream_sel) (fields : option (list string))
    (fill : fields_arg) (handler_registry : option (gmap string string))
    : generated (string * document) :=
  let headers := normalise_headers headers in
  match check_fields_exist db (default [] fields) headers with
  | Raise e => ([], Some e)
  | OK _ =>
      match reg db with
      | Raise e => ([], Some e)
      | OK r =>
          let scoped :=
            with_assets db (<["" := handler_context r handler_registry]> (assets db)) in
          emit_headers scoped headers stream_name fields fill
      end
  end.

(** [BrokerES.get_events] *)
Definition get_events (db : Broker) (headers : headers_arg)
    (stream_name : stream_sel) (fields : option (list string))
    (fill : fields_arg) (handler_registry : option (gmap string string))
    : generated document :=
  let '(docs, e) := get_documents db headers stream_name fields fill handler_registry in
  (omap (fun nd => if String.eqb nd.1 "event" then Some nd.2 else None) docs, e).

(** The defaults of [get_events]: [stream_name='primary'], [fields=None],
    [fill=False], [handler_registry=None]. *)
Definition get_events_default (db : Broker) (headers : headers_arg)
    : generated document :=
  get_events db headers (Stream "primary") None FieldsFalse None.

(** ** Export: [BrokerES.export] *)

(** Modelled from the spec: the metadata store behind a broker ([db.mds]),
    which is defined outside the embedded sources: the documents inserted so
    far, oldest first; the [insert_*] methods add one document.  The store
    files an event under its descriptor: [insert_event] raises [KeyError] for
    an event whose descriptor has not been inserted. *)
Record MDS := mkMDS {
  run_starts : list RunStart;
  run_stops : list RunStop;
  descriptors : list Descriptor;
  events : list Event
}.

Definition empty_mds : MDS := mkMDS [] [] [] [].

Definition insert_run_start (m : MDS) (d : RunStart) : MDS :=
  mkMDS (run_starts m ++ [d]) (run_stops m) (descriptors m) (events m).
Definition insert_run_stop (m : MDS) (d : RunStop) : MDS :=
  mkMDS (run_starts m) (run_stops m ++ [d]) (descriptors m) (events m).
Definition insert_descriptor (m : MDS) (d : Descriptor) : MDS :=
  mkMDS (run_starts m) (run_stops m) (descriptors m ++ [d]) (events m).
Definition insert_event (m : MDS) (d : Event) : result MDS :=
  if bool_decide (descriptor d ∈ desc_uid <$> descriptors m)
  then OK (mkMDS (run_starts m) (run_stops m) (descriptors m) (events m ++ [d]))
  else Raise (KeyError (descriptor d)).

(** The form in which [export] inserts an event, a descriptor, a start and a
    stop document. *)
Definition exported_event (ev : Event) : Event :=
  with_doct_name None (with_data_filled ev (data ev) ∅).
Definition exported_descriptor (d : Descriptor) : Descriptor :=
  descriptor_with_name None d.
Definition exported_start (d : RunStart) : RunStart := start_with_name None d.
Definition exported_stop (d : RunStop) : RunStop := stop_with_name None d.

(** The body of [for event in events]: drop ['filled'], sanitize, insert. *)
Definition export_event (m : MDS) (doc : document) : result MDS :=
  match doc with
  | DEvent ev => insert_event m (exported_event ev)
  | _ => Raise (AttributeError "to_name_dict_pair")
  end.

Fixpoint export_events (m : MDS) (evs : list document) : MDS * option exn :=
  match evs with
  | [] => (m, None)
  | ev :: rest =>
      match export_event m ev with
      | OK m' => export_events m' rest
      | Raise e => (m, Some e)
      end
  end.

(** [for descriptor in header['descriptors']: ...].  [events] is the generator
    made before the loop: what it has still to yield, and how it ends.  The
    first descriptor's inner loop runs it to its end. *)
Fixpoint export_descriptors (m : MDS) (descs : list Descriptor)
    (events : generated document) : MDS * option exn :=
  match descs with
  | [] => (m, None)
  | d :: rest =>
      let m := insert_descriptor m (exported_descriptor d) in
      match export_events m events.1 with
      | (m', Some e) => (m', Some e)
      | (m', None) =>
          match events.2 with
          | Some e => (m', Some e)
          | None => export_descriptors m' rest ([], None)
          end
      end
  end.

(** The metadata half of the body of [for header in headers].  The second
    half, which copies the assets through the two registries, comes after
    [insert_run_stop] and does not touch the metadata store; its outcome is
    the parameter [copy_assets]. *)
Definition export_header (db : Broker)
    (copy_assets : Header -> result (list (string * string)))
    (m : MDS) (header : Header) : MDS * result (list (string * string)) :=
  let m := insert_run_start m (exported_start (start header)) in
  let events := get_events_default db (SingleHeader header) in
  match export_descriptors m (header_descriptors db header) events with
  | (m, Some e) => (m, Raise e)
  | (m, None) =>
      match stop header with
      | None => (m, Raise (TypeError "'NoneType' object is not iterable"))
      | Some st =>
          (insert_run_stop m (exported_stop st), copy_assets header)
      end
  end.

(** [BrokerES.export]: the destination's metadata store afterwards, and the
    file pairs or the exception. *)
Fixpoint export_loop (db : Broker)
    (copy_assets : Header -> result (list (string * string)))
    (m : MDS) (headers : list Header) (file_pairs : list (string * string))
    : MDS * result (list (string * string)) :=
  match headers with
  | [] => (m, OK file_pairs)
  | header :: rest =>
      match export_header db copy_assets m header with
      | (m', OK fps) => export_loop db copy_assets m' rest (file_pairs ++ fps)
      | (m', Raise e) => (m', Raise e)
      end
  end.

Definition export (db : Broker)
    (copy_assets : Header -> result (list (string * string)))
    (headers : headers_arg) (dest : MDS) : MDS * result (list (string * string)) :=
  export_loop db copy_assets dest (normalise_headers headers) [].

(** ** A broker over a metadata store: [Broker.__init__] *)

(** *** The patterns of [$regex] queries

    The store matches a [$regex] query the way [re.search] does: the pattern
    may match anywhere in the subject unless it starts with [^], and its
    characters are read as regular-expression syntax.  Of that syntax the
    model covers ordinary characters, [.] (any character but a newline), a
    postfix [*] on one of these, and [^] at the start; a pattern with any
    other special character is outside the model. *)

Inductive re_atom :=
| ReChar (c : ascii)
| ReAny.

Inductive re_item :=
| ReOne (a : re_atom)
| ReStar (a : re_atom).

Definition re_special (c : ascii) : bool :=
  existsb (Ascii.eqb c)
          ["\"; "^"; "$"; "|"; "?"; "+"; "*"; "("; ")"; "["; "]"; "{"; "}"]%char.

Definition re_atom_of (c : ascii) : re_atom :=
  if Ascii.eqb c "." then ReAny else ReChar c.

(** The items of a pattern; [None] for a pattern outside the model. *)
Fixpoint re_parse (p : string) : option (list re_item) :=
  match p with
  | EmptyString => Some []
  | String c rest =>
      if re_special c then None
      else
        match rest with
        | String c' rest' =>
            if Ascii.eqb c' "*"
            then cons (ReStar (re_atom_of c)) <$> re_parse rest'
            else cons (ReOne (re_atom_of c)) <$> re_parse rest
        | EmptyString => Some [ReOne (re_atom_of c)]
        end
  end.

Definition re_atom_ok (a : re_atom) (c : ascii) : bool :=
  match a with
  | ReChar x => Ascii.eqb x c
  | ReAny => negb (Ascii.eqb c "010")
  end.

(** The pattern matches at the start of [text]. *)
Fixpoint re_match_here (re : list re_item) (text : string) : bool :=
  match re with
  | [] => true
  | ReOne a :: re' =>
      match text with
      | String c t => re_atom_ok a c && re_match_here re' t
      | EmptyString => false
      end
  | ReStar a :: re' =>
      (fix star (text : string) : bool :=
         re_match_here re' text
         || match text with
            | String c t => re_atom_ok a c && star t
            | EmptyString => false
            end) text
  end.

(** The pattern matches at some position of [text]. *)
Fixpoint re_search_from (re : list re_item) (text : string) : bool :=
  re_match_here re text
  || match text with
     | String _ t => re_search_from re t
     | EmptyString => false
     end.

(** [re.search(pattern, subject)] is a match; [None] for a pattern outside
    the model. *)
Definition regex_search (pattern subject : string) : option bool :=
  match pattern with
  | String c p =>
      if Ascii.eqb c "^"
      then (fun re => re_match_here re subject) <$> re_parse p
      else (fun re => re_search_from re subject) <$> re_parse pattern
  | EmptyString => Some true
  end.

(** A key made of ordinary characters and dots. *)
Fixpoint re_plain (key : string) : bool :=
  match key with
  | EmptyString => true
  | String c rest => negb (re_special c) && re_plain rest
  end.

Definition recent_first (m : MDS) : list RunStart := reverse (run_starts m).

(** Modelled from the spec: [HeaderSourceShim] of [databroker.headersource],
    which is defined outside the embedded sources.  [find_run_starts] and
    [find_last] answer most recent first; a uid query is an exact match, a
    [$regex] query, as the query language of the store defines it, finds the
    runs whose uid the pattern matches somewhere (no run for a pattern
    outside the model), a [scan_id] query is an exact match;
    [find_last(n)] gives the [n] most recent runs; [safe_get_stop] gives the
    stop document of the run, if there is one. *)
Definition HeaderSourceShim (m : MDS) : HeaderSource :=
  mkHeaderSource
    (fun key => filter (fun r => start_uid r = key) (recent_first m))
    (fun pattern =>
       filter (fun r => regex_search pattern (start_uid r) = Some true)
              (recent_first m))
    (fun key => filter (fun r => scan_id r = key) (recent_first m))
    (fun num => take (Z.to_nat num) (recent_first m))
    (fun s => head (filter (fun st => stop_run_start st = start_uid s) (run_stops m))).

Definition in_stream (stream_name : stream_sel) (d : Descriptor) : bool :=
  match stream_name with
  | ALL => true
  | Stream n => String.eqb (desc_name d) n
  end.

Definition whitelist {V} (fields : option (list string)) (m : gmap string V)
    : gmap string V :=
  match fields with
  | None | Some [] => m
  | Some l => filter (fun kv => kv.1 ∈ l) m
  end.

Definition whitelist_event (fields : option (list string)) (ev : Event) : Event :=
  mkEvent (ev_uid ev) (descriptor ev) (seq_num ev) (whitelist fields (data ev))
          (whitelist fields (timestamps ev)) (whitelist fields (filled ev))
          (ev_doct_name ev).

(** Modelled from the spec: [EventSourceShim] of [databroker.eventsource],
    which is defined outside the embedded sources.  The descriptors of a
    header are those of its run; [docs_given_header] yields the start
    document, then, for each descriptor of the selected stream ([ALL] selects
    every stream), the descriptor followed by its events restricted to the
    whitelisted fields, then the stop document if there is one. *)
Definition EventSourceShim (m : MDS) : EventSource :=
  let descriptors_of h :=
    filter (fun d => desc_run_start d = header_uid h) (descriptors m) in
  mkEventSource
    descriptors_of
    (fun h stream_name fields =>
       [("start", DStart (start h))]
       ++ flat_map
            (fun d =>
               ("descriptor", DDescriptor d)
               :: map (fun ev => ("event", DEvent (whitelist_event fields ev)))
                      (filter (fun ev => descriptor ev = desc_uid d) (events m)))
            (filter (fun d => in_stream stream_name d = true) (descriptors_of h))
       ++ match stop h with
          | Some st => [("stop", DStop st)]
          | None => []
          end).

(** The names ordinary attribute lookup finds on a broker: the instance
    attributes set by [__init__], the attributes of the class, and those every
    class inherits from [object]. *)
Definition broker_attributes : gset string :=
  list_to_set
    [ "hs"; "event_sources"; "assets"; "_filters"; "aliases";
      "event_source_for_insert"; "registry_for_insert"; "prepare_hook";
      "add_event_source"; "stream_names_given_header"; "insert"; "mds"; "reg";
      "fs"; "ALL"; "_format_time"; "filters"; "add_filter"; "clear_filters";
      "alias"; "dynamic_alias"; "fill_event"; "get_events"; "get_documents";
      "get_table"; "get_images"; "get_resource_uids"; "restream"; "stream";
      "process"; "get_fields"; "export"; "export_size"; "fill_events";
      "_fill_events_coro"; "fill_table"; "from_config"; "named";
      "__init__"; "__getitem__"; "__getattr__"; "__call__"; "__class__";
      "__dict__"; "__doc__"; "__module__"; "__weakref__";
      "__delattr__"; "__dir__"; "__eq__"; "__format__"; "__ge__";
      "__getattribute__"; "__gt__"; "__hash__"; "__init_subclass__"; "__le__";
      "__lt__"; "__ne__"; "__new__"; "__reduce__"; "__reduce_ex__"; "__repr__";
      "__setattr__"; "__sizeof__"; "__str__"; "__subclasshook__" ].

(** [Broker(mds, reg, filters=filters)]; the broker's own search over the
    store is the parameter [search]. *)
Definition Broker_init (m : MDS) (search : HeaderSearch) (r : Registry)
    (filters : list query) : Broker :=
  mkBroker (HeaderSourceShim m) search [EventSourceShim m] {[ "" := r ]}
           filters ∅ broker_attributes.

(** ** Aliases: [__getattr__], [alias], [dynamic_alias] *)

(** [BrokerES.__getattr__]: the fallback of attribute lookup.  An alias runs
    its query, [self( **query)], and raises what that raises; [func] of a
    dynamic alias is, as its docstring requires, a function that returns a
    query. *)
Definition __getattr__ (db : Broker) (key : string) : result Results :=
  match aliases db !! key with
  | None => Raise (AttributeError key)
  | Some a =>
      let query := match a with
                   | StaticAlias q => q
                   | DynamicAlias func => func tt
                   end in
      __call__ db (query !! "text_search") (delete "text_search" query)
  end.

Inductive attribute :=
| OrdinaryAttribute
| AliasResults (r : Results).

(** [getattr(self, key)]: ordinary lookup first, then [__getattr__]. *)
Definition getattr (db : Broker) (key : string) : result attribute :=
  if bool_decide (key ∈ attributes db) then OK OrdinaryAttribute
  else r ← __getattr__ db key; OK (AliasResults r).

(** [hasattr(self, key)] as Python 3 defines it: only [AttributeError] counts
    as absence, any other exception of the lookup propagates. *)
Definition hasattr (db : Broker) (key : string) : result bool :=
  match getattr db key with
  | OK _ => OK true
  | Raise (AttributeError _) => OK false
  | Raise e => Raise e
  end.

Definition with_aliases (db : Broker) (a : gmap string alias_value) : Broker :=
  mkBroker (hs db) (hs_search db) (event_sources db) (assets db) (filters db)
           a (attributes db).

(** The shared body of [alias] and [dynamic_alias]. *)
Definition set_alias (db : Broker) (key : string) (a : alias_value) : result Broker :=
  has ← hasattr db key;
  if has && negb (bool_decide (key ∈ dom (aliases db)))
  then Raise (ValueError (NotLegalAlias key))
  else OK (with_aliases db (<[key := a]> (aliases db))).

(** [BrokerES.alias] *)
Definition alias (db : Broker) (key : string) (query : query) : result Broker :=
  set_alias db key (StaticAlias query).

(** [BrokerES.dynamic_alias] *)
Definition dynamic_alias (db : Broker) (key : string) (func : unit -> query)
    : result Broker :=
  set_alias db key (DynamicAlias func).

(** The query an alias stands for: [query], or [query()] when it is
    callable. *)
Definition alias_query (a : alias_value) : query :=
  match a with
  | StaticAlias q => q
  | DynamicAlias func => func tt
  end.

(** ** Sample data *)

Definition sample_run (uid : string) (n : Z) : RunStart := mkRunStart uid n None.

(** Six runs, oldest first; the uid of the newest has the canonical length. *)
Definition sample_store : MDS :=
  mkMDS [ sample_run "a1b2" 1; sample_run "a1c3" 2; sample_run "b7" 3;
          sample_run "c9" 3; sample_run "d4" 5;
          sample_run "f26efc1d-8263-46c8-a560-7bf73d2786e1" 6 ]
        [ mkRunStop "s1" "a1b2" None; mkRunStop "s6" "f26efc1d-8263-46c8-a560-7bf73d2786e1" None ]
        [] [].

(** A registry that resolves the datum ids ["id1"] and ["id2"]. *)
Definition sample_registry : Registry :=
  mkRegistry (fun _ v =>
    match v with
    | VStr "id1" => OK (VArr [1; 2; 3]%Z)
    | VStr "id2" => OK (VArr [4; 5; 6]%Z)
    | _ => Raise (KeyError "datum")
    end).

Definition sample_broker : Broker :=
  Broker_init sample_store (mkHeaderSearch (fun _ _ _ => [])) sample_registry [].

(** One run with two streams: an event in ["primary"], one in ["baseline"];
    each stream has one external field. *)
Definition run1 : RunStart := mkRunStart "run1" 1 None.
Definition stop1 : RunStop := mkRunStop "stop1" "run1" None.
Definition d_primary : Descriptor :=
  mkDescriptor "d-primary" "run1" "primary"
    [("det", mkDataKey "number" None); ("img", mkDataKey "array" (Some "FILESTORE:"))]
    None.
Definition d_baseline : Descriptor :=
  mkDescriptor "d-baseline" "run1" "baseline"
    [("temp", mkDataKey "number" None); ("cam", mkDataKey "array" (Some "FILESTORE:"))]
    None.
(** A second descriptor of the primary stream, with the same fields. *)
Definition d_primary_2 : Descriptor :=
  mkDescriptor "d-primary-2" "run1" "primary"
    [("det", mkDataKey "number" None); ("img", mkDataKey "array" (Some "FILESTORE:"))]
    None.
Definition e1 : Event :=
  mkEvent "e1" "d-primary" 1 {[ "det" := VInt 5; "img" := VStr "id1" ]}
          {[ "det" := 100%Z; "img" := 100%Z ]} {[ "img" := VBool false ]} None.
Definition e2 : Event :=
  mkEvent "e2" "d-baseline" 1 {[ "temp" := VInt 20; "cam" := VStr "id2" ]}
          {[ "temp" := 90%Z; "cam" := 90%Z ]} {[ "cam" := VBool false ]} None.
Definition run_store : MDS := mkMDS [run1] [stop1] [d_primary; d_baseline] [e1; e2].
Definition run_broker : Broker :=
  Broker_init run_store (mkHeaderSearch (fun _ _ _ => [])) sample_registry [].
Definition h1 : Header := closed_header run1 stop1.

(** A registry whose datum ids and payloads are both integers: the payload of
    datum [n] is [10 * n]. *)
Definition scaling_registry : Registry :=
  mkRegistry (fun _ v =>
    match v with
    | VInt n => OK (VInt (10 * n))
    | _ => Raise (KeyError "datum")
    end).
Definition scaling_broker : Broker :=
  Broker_init run_store (mkHeaderSearch (fun _ _ _ => [])) scaling_registry [].
Definition e3 : Event :=
  mkEvent "e3" "d-primary" 2 {[ "det" := VInt 5; "img" := VInt 7 ]}
          {[ "det" := 100%Z; "img" := 100%Z ]} {[ "img" := VBool false ]} None.

(** The destination store after exporting the run of [run_broker] into an
    empty store, and a broker over it. *)
Definition exported : MDS :=
  (export run_broker (fun _ => OK []) (SingleHeader h1) empty_mds).1.
Definition fresh_broker : Broker :=
  Broker_init exported (mkHeaderSearch (fun _ _ _ => [])) sample_registry [].


(** A broker on which the alias ["mine"] stands for a query that holds the
    keyword [filters]. *)
Definition stale_broker : Broker :=
  with_aliases sample_broker {[ "mine" := StaticAlias {[ "filters" := VStr "Dan" ]} ]}.

(** The number of documents called [name] that a document stream yields. *)
Definition count_docs (name : string) (g : generated (string * document)) : nat :=
  length (filter (fun nd => nd.1 = name) g.1).

(** ** Further definitions *)

(** The stop document the store has for a run. *)
Definition stop_of (m : MDS) (s : RunStart) : option RunStop :=
  safe_get_stop (HeaderSourceShim m) s.

(** The loop behind [sum((search(k, db) for k in key), [])]. *)
Fixpoint search_each hs (acc : list run_pair) (ks : list key) : traced (list run_pair) :=
  match ks with
  | [] => mret acc
  | k :: rest => r ← search hs k; search_each hs (acc ++ r) rest
  end.


(** *** Filters: [add_filter], [clear_filters] *)

Definition with_filters (db : Broker) (f : list query) : Broker :=
  mkBroker (hs db) (hs_search db) (event_sources db) (assets db) f
           (aliases db) (attributes db).

(** What [add_filter] raises: [ValueError('Filter key already exists.')]. *)
Inductive filter_error :=
| FilterKeyAlreadyExists.

(** The test of the two nested loops of [add_filter]: some key of some filter
    in the list is a key of [d]. *)
Definition filter_key_exists (filters : list query) (d : query) : bool :=
  existsb (fun val => existsb (fun kv => bool_decide (kv.1 ∈ dom d))
                              (map_to_list val))
          filters.

(** [BrokerES.add_filter] *)
Definition add_filter (db : Broker) (kwargs : query) : filter_error + Broker :=
  let d := kwargs in
  if filter_key_exists (filters db) d then inl FilterKeyAlreadyExists
  else inr (with_filters db (filters db ++ [d])).

(** [BrokerES.clear_filters] *)
Definition clear_filters (db : Broker) : Broker := with_filters db [].

(** No key occurs in two filters of the list. *)
Definition filters_disjoint (filters : list query) : Prop :=
  ∀ i j f g, i ≠ j → filters !! i = Some f → filters !! j = Some g →
             dom f ## dom g.

(** *** [fill_event] *)

(** [BrokerES.fill_event].  [descriptor_given_uid es uid] is what the event
    source answers, [None] when it raises [NoEventDescriptors].  The line
    [ev_out, = self.fill_events([event], descs, inplace=inplace)] primes the
    coroutine, sends it the one event and takes what it yields back. *)
Definition fill_event (db : Broker)
    (descriptor_given_uid : EventSource -> string -> option Descriptor)
    (event : Event) (inplace : bool)
    (handler_registry : option (gmap string string)) : result Event :=
  let desc_id := descriptor event in
  let descs := omap (fun es => descriptor_given_uid es desc_id) (event_sources db) in
  r ← reg db;
  let scoped :=
    with_assets db (<["" := handler_context r handler_registry]> (assets db)) in
  proc_gen ← _fill_events_coro scoped descs FieldsTrue inplace;
  send proc_gen event.

(** *** Display names *)

(** The [_name] entry of a document. *)
Definition doct_name_of (doc : document) : option string :=
  match doc with
  | DStart d => start_doct_name d
  | DStop d => stop_doct_name d
  | DDescriptor d => desc_doct_name d
  | DEvent d => ev_doct_name d
  end.

(** *** Configuration files: [lookup_config] *)

(** [name.endswith(suffix)] *)
Definition endswith (name suffix : string) : bool :=
  let n := String.length name in
  let k := String.length suffix in
  (k <=? n)%nat && String.eqb (String.substring (n - k) k name) suffix.

(** What [lookup_config] raises: [FileNotFoundError], with the file names it
    tried. *)
Inductive config_error :=
| ConfigNotFound (name : string) (tried : list string).

(** The loop of [lookup_config] over [CONFIG_SEARCH_PATH]. *)
Fixpoint lookup_in {C} (join : string -> string -> string)
    (isfile : string -> bool) (load : string -> C)
    (paths : list string) (name : string) (tried : list string)
    : config_error + C :=
  match paths with
  | [] => inl (ConfigNotFound name tried)
  | path :: rest =>
      let filename := join path name in
      let tried := tried ++ [filename] in
      if isfile filename then inr (load filename)
      else lookup_in join isfile load rest name tried
  end.

(** [lookup_config].  The search path, [os.path.join], [os.path.isfile] and
    the reading of the file ([yaml.load(open(filename))]) are parameters. *)
Definition lookup_config {C} (join : string -> string -> string)
    (isfile : string -> bool) (load : string -> C)
    (CONFIG_SEARCH_PATH : list string) (name : string) : config_error + C :=
  let name := if endswith name ".yml" then name else name +:+ ".yml" in
  lookup_in join isfile load CONFIG_SEARCH_PATH name [].

(** *** More sample data *)

(** A broker with one filter. *)
Definition filtered_broker : Broker :=
  with_filters sample_broker [ {[ "user" := VStr "Dan" ]} ].

(** A broker over [run_store] whose header source finds the run for every
    query. *)
Definition found_broker : Broker :=
  Broker_init run_store (mkHeaderSearch (fun _ _ _ => [(run1, Some stop1)]))
              sample_registry [].

(** The data-key test that [__call__] hands to the results view. *)
Definition data_key_of (kwargs : query) : option value :=
  let data_key := kwargs !! "data_key" in
  match data_key with
  | Some VNone => None
  | k => k
  end.

(** A broker over [run_store] whose header source finds the run and, after
    it, a run that is still open. *)
Definition open_broker : Broker :=
  Broker_init run_store
    (mkHeaderSearch (fun _ _ _ => [(run1, Some stop1); (sample_run "open" 2, None)]))
    sample_registry [].

(** The [data_key] test for a key that can be hashed. *)
Definition passes (db : Broker) (data_key : option value) (h : Header) : bool :=
  match data_key with
  | None => true
  | Some (VStr k) =>
      existsb (fun d => bool_decide (k ∈ (data_keys d).*1)) (header_descriptors db h)
  | Some _ => false
  end.

(** The headers of the runs of [l] that have a stop document. *)
Definition closed_headers (l : list run_pair) : list Header :=
  omap (fun p => closed_header p.1 <$> p.2) l.

(** What filling leaves alone in an event: its identity, the keys of [data],
    and the keys of [filled] (what [filled] holds under a key may change). *)
Definition same_identity (ev ev' : Event) : Prop :=
  ev_uid ev' = ev_uid ev
  ∧ descriptor ev' = descriptor ev
  ∧ seq_num ev' = seq_num ev
  ∧ timestamps ev' = timestamps ev
  ∧ dom (data ev') = dom (data ev)
  ∧ dom (filled ev) ⊆ dom (filled ev').


(** The field [k] is marked external in one of the descriptors. *)
Definition external_in (descriptors : list Descriptor) (k : string) : Prop :=
  ∃ d v, d ∈ descriptors ∧ (k, v) ∈ data_keys d ∧ is_external v = true.

(** *** Event objects

    [fill_events] is handed event objects.  With [inplace=True] the coroutine
    writes into the object it is sent and yields that object; with
    [inplace=False] it fills a copy and leaves the object alone.  The same
    object may occur twice in [events].  Here the caller's objects are the
    values of a store, and [events] is a list of references to them. *)

Abbreviation objects := (nat -> Event).

(** The loop [for dk in v] on an object: when a key raises, what the keys
    before it have written stays. *)
Fixpoint fill_keys_written (registry_map : registry_map_t) (desc_id : string)
    (v : list string) (df : gmap string value * gmap string value)
    : (gmap string value * gmap string value) * option exn :=
  match v with
  | [] => (df, None)
  | dk :: rest =>
      match fill_one registry_map desc_id dk df with
      | OK df' => fill_keys_written registry_map desc_id rest df'
      | Raise e => (df, Some e)
      end
  end.

Fixpoint fill_map_written (registry_map : registry_map_t) (desc_id : string)
    (fill_map : fill_map_t) (df : gmap string value * gmap string value)
    : (gmap string value * gmap string value) * option exn :=
  match fill_map with
  | [] => (df, None)
  | (k, v) :: rest =>
      match fill_keys_written registry_map desc_id v df with
      | (df', None) => fill_map_written registry_map desc_id rest df'
      | (df', Some e) => (df', Some e)
      end
  end.

(** [proc_gen.send(ev)] for the object [o]: what the coroutine yields back
    (the object as it is at that moment) or the exception, and the objects
    afterwards. *)
Definition send_object (c : coro) (o : nat) (σ : objects) : result Event * objects :=
  match c with
  | PassThrough => (OK (σ o), σ)
  | Filling registry_map fill_map inplace =>
      if inplace then
        let ev := σ o in
        let '((data', filled'), e) :=
          fill_map_written registry_map (descriptor ev) fill_map (data ev, filled ev) in
        let ev' := with_data_filled ev data' filled' in
        (match e with
         | None => OK ev'
         | Some e => Raise e
         end, <[o := ev']> σ)
      else (send c (σ o), σ)
  end.

(** The loop [for ev in events: yield proc_gen.send(ev)] on objects. *)
Fixpoint send_each_objects (c : coro) (events : list nat) (σ : objects)
    : generated Event * objects :=
  match events with
  | [] => (([], None), σ)
  | o :: rest =>
      match send_object c o σ with
      | (OK ev', σ') =>
          let '((out, e), σ'') := send_each_objects c rest σ' in
          ((ev' :: out, e), σ'')
      | (Raise e, σ') => (([], Some e), σ')
      end
  end.

(** [fill_events] on objects: what it yields and how it ends, and the
    caller's objects afterwards. *)
Definition fill_events_objects (db : Broker) (events : list nat)
    (descriptors : list Descriptor) (fields : fields_arg) (inplace : bool)
    (σ : objects) : generated Event * objects :=
  match _fill_events_coro db descriptors fields inplace with
  | OK c => send_each_objects c events σ
  | Raise e => (([], Some e), σ)
  end.

(** A descriptor without external fields: the marker of [temp] is empty. *)
Definition d_scalars : Descriptor :=
  mkDescriptor "d-scalars" "run1" "primary"
    [("det", mkDataKey "number" None); ("temp", mkDataKey "number" (Some ""))] None.


(** *** Document streams *)

(** What the event sources hold for the headers: for each header in turn,
    the documents of each event source in registration order. *)
Definition source_documents (db : Broker) (headers : list Header)
    (stream_name : stream_sel) (fields : option (list string))
    : list (string * document) :=
  flat_map (fun h => flat_map (fun es => docs_given_header es h stream_name fields)
                              (event_sources db))
           headers.

(** A document with the display name that belongs to [name]. *)
Definition wrapped (nd : string * document) : string * document :=
  (nd.1, set_doct_name (DOCT_NAMES nd.1) nd.2).

(** *** Export *)

(** The store of the sample run with its descriptors in the other order, and
    a broker over it. *)
Definition baseline_first_store : MDS :=
  mkMDS [run1] [stop1] [d_baseline; d_primary] [e1; e2].
Definition baseline_first_broker : Broker :=
  Broker_init baseline_first_store (mkHeaderSearch (fun _ _ _ => []))
              sample_registry [].

(** Every document of [m] is in [m'], at the same place. *)
Definition mds_extends (m m' : MDS) : Prop :=
  run_starts m `prefix_of` run_starts m'
  ∧ run_stops m `prefix_of` run_stops m'
  ∧ descriptors m `prefix_of` descriptors m'
  ∧ events m `prefix_of` events m'.

(** * Properties *)

(** Deciding a closed decidable proposition by evaluation. *)
Ltac by_compute := apply (bool_decide_unpack _); vm_compute; exact I.

(** Case analysis on a membership in an explicit list. *)
Ltac elem_cases H :=
  repeat (apply elem_of_cons in H as [H|H]; [subst|]);
  [..|by apply elem_of_nil in H].

(** ** Calls on the header source *)

Lemma with_stops_eq hs (l : list RunStart) :
  with_stops hs l =
    (map (fun s => GetStop (start_uid s)) l,
     OK (map (fun s => (s, safe_get_stop hs s)) l)).
Proof.
  induction l as [|s l IH]; [reflexivity|].
  cbn [with_stops]. rewrite IH.
  unfold call_safe_get_stop, mbind, traced_bind, mret, traced_ret.
  cbn. rewrite app_nil_r. reflexivity.
Qed.

Lemma traced_bind_ok {A B} (log : list hs_call) (a : A) (f : A -> traced B) :
  (((log, OK a) : traced A) ≫= f) = (log ++ calls (f a), outcome (f a)).
Proof. unfold mbind, traced_bind, calls, outcome. destruct (f a); reflexivity. Qed.


(** ** Key resolution *)

Lemma search_slice_raises hs a b c :
  a = None ∨ (∃ x, a = Some x ∧ (x > -1)%Z) ∨ (∃ y, b = Some y ∧ (y > 0)%Z) →
  ∃ m, search_slice hs a b c = ([], Raise (ValueError m)).
Proof.
  intros H. unfold search_slice.
  destruct a as [x|], b as [y|]; cbn;
    repeat match goal with
    | |- context [(?u >? ?v)%Z] => destruct (Z.gtb_spec u v); cbn
    end; eauto.
  all: exfalso; destruct H as [H | [(x' & H & Hx) | (y' & H & Hy)]];
    simplify_eq; lia.
Qed.

Lemma search_slice_window hs x b c :
  (x ≤ -1)%Z → (∀ y, b = Some y → (y ≤ 0)%Z) →
  calls (search_slice hs (Some x) b c) =
    FindLast (- x) ::
      match slice_from (find_last hs (- x)) (Z.opp <$> b) c with
      | OK result => map (fun s => GetStop (start_uid s)) result
      | Raise _ => []
      end
  ∧ outcome (search_slice hs (Some x) b c) =
      (result ← slice_from (find_last hs (- x)) (Z.opp <$> b) c;
       OK (map (fun s => (s, safe_get_stop hs s)) result)).
Proof.
  intros Hx Hb. unfold search_slice.
  destruct (Z.gtb_spec x (-1)); [lia|].
  assert (Hstop : match b with
      | Some b0 => if (b0 >? 0)%Z then raise (ValueError (SliceStopMustBeNonPositive b0)) else mret ()
      | None => mret ()
      end = (mret () : traced unit)).
  { destruct b as [y|]; [|done]. specialize (Hb y eq_refl).
    destruct (Z.gtb_spec y 0); [lia|done]. }
  rewrite Hstop. cbn.
  destruct (slice_from _ _ _) as [result|e]; cbn; [|done].
  rewrite with_stops_eq. cbn. done.
Qed.



Lemma filter_none {A} (P : A → Prop) `{∀ x, Decision (P x)} (l : list A) :
  (∀ x, x ∈ l → ¬ P x) → filter P l = [].
Proof.
  induction l as [|x l IH]; intros Hl; [reflexivity|].
  rewrite filter_cons_False; [|apply Hl; left].
  apply IH. intros y Hy. apply Hl. by right.
Qed.

Lemma filter_unique_uid (l : list RunStart) (r : RunStart) :
  NoDup (start_uid <$> l) → r ∈ l →
  filter (fun x => start_uid x = start_uid r) l = [r].
Proof.
  induction l as [|x l IH]; intros Hnd Hin; [by apply elem_of_nil in Hin|].
  rewrite fmap_cons in Hnd. apply NoDup_cons in Hnd as [Hfresh Hnd].
  apply elem_of_cons in Hin as [<-|Hin].
  - rewrite filter_cons_True by done. f_equal.
    apply filter_none. intros y Hy Heq. apply Hfresh.
    rewrite <- Heq. by apply list_elem_of_fmap_2.
  - rewrite filter_cons_False; [by apply IH|].
    intros Heq. apply Hfresh. rewrite Heq. by apply list_elem_of_fmap_2.
Qed.

Lemma search_str_exact hs key r :
  String.length key = 36 →
  find_run_starts_uid hs key = [r] →
  search_str hs key =
    ([FindUid key; GetStop (start_uid r)], OK [(r, safe_get_stop hs r)]).
Proof.
  intros Hlen Hfind. unfold search_str. rewrite Hlen. cbn. rewrite Hfind. reflexivity.
Qed.

Lemma search_str_fallback hs key :
  (String.length key = 36 → find_run_starts_uid hs key = []) →
  let matches := find_run_starts_regex hs (key +:+ ".*") in
  FindRegex (key +:+ ".*") ∈ calls (search_str hs key)
  ∧ outcome (search_str hs key) =
      match matches with
      | [] => Raise (ValueError (NoSuchRun key))
      | [r] => OK [(r, safe_get_stop hs r)]
      | _ => Raise (ValueError (MatchesRuns key (length matches)))
      end.
Proof.
  intros Hexact matches. unfold search_str.
  assert (Hfirst : ∃ log results,
    (if (String.length key =? 36)%nat
     then l ← call_find_uid hs key; mret (Some l)
     else mret None) = ((log, OK results) : traced (option (list RunStart)))
    ∧ not_results results = true) .
  { destruct (String.length key =? 36) eqn:E.
    - apply Nat.eqb_eq in E. exists [FindUid key], (Some []).
      unfold call_find_uid. rewrite (Hexact E). done.
    - by exists [], None. }
  destruct Hfirst as (log & results & -> & Hnot).
  rewrite traced_bind_ok, Hnot.
  unfold call_find_regex. fold matches. cbn.
  destruct matches as [|r [|r' l]]; cbn; split; try reflexivity.
  all: apply elem_of_app; right; left.
Qed.

Lemma prefix_append (a b : string) :
  String.prefix a b = true → ∃ rest, b = a +:+ rest.
Proof.
  revert b. induction a as [|c a IH]; intros b Hp; [by exists b|].
  destruct b as [|c' b]; [discriminate|]. cbn in Hp.
  destruct (Ascii.ascii_dec c c') as [<-|]; [|discriminate].
  destruct (IH b Hp) as [rest ->]. by exists rest.
Qed.

Lemma re_atom_of_ok (c : ascii) : re_atom_ok (re_atom_of c) c = true.
Proof.
  unfold re_atom_of. destruct (Ascii.eqb c ".") eqn:E; cbn.
  - apply Ascii.eqb_eq in E as ->. reflexivity.
  - apply Ascii.eqb_refl.
Qed.

Lemma re_plain_head (key : string) :
  re_plain key = true →
  match key +:+ ".*" with
  | String c _ => re_special c = false
  | EmptyString => False
  end.
Proof.
  destruct key as [|c k]; [reflexivity|]. cbn [re_plain].
  change (String c k +:+ ".*") with (String c (k +:+ ".*")).
  intros H. apply andb_true_iff in H as [H _]. by apply negb_true_iff in H.
Qed.

(** The pattern [key.*] of an ordinary key matches every text that begins
    with the key. *)
Lemma re_parse_plain (key : string) :
  re_plain key = true →
  ∃ re, re_parse (key +:+ ".*") = Some re
        ∧ ∀ rest, re_match_here re (key +:+ rest) = true.
Proof.
  induction key as [|c k IH]; intros Hp.
  - exists [ReStar ReAny]. split; [reflexivity|]. by intros [|? ?].
  - cbn [re_plain] in Hp. apply andb_true_iff in Hp as [Hc Hk].
    apply negb_true_iff in Hc.
    destruct (IH Hk) as (re & Hre & Hm).
    pose proof (re_plain_head k Hk) as Hhead.
    change (String c k +:+ ".*") with (String c (k +:+ ".*")).
    exists (ReOne (re_atom_of c) :: re). split.
    + cbn [re_parse]. rewrite Hc.
      destruct (k +:+ ".*") as [|c' rest'] eqn:E; [done|].
      destruct (Ascii.eqb c' "*") eqn:Estar.
      * apply Ascii.eqb_eq in Estar as ->. discriminate.
      * rewrite Hre. reflexivity.
    + intros rest. change (String c k +:+ rest) with (String c (k +:+ rest)).
      cbn [re_match_here]. by rewrite re_atom_of_ok, Hm.
Qed.

Lemma regex_search_prefix (key uid : string) :
  re_plain key = true → String.prefix key uid = true →
  regex_search (key +:+ ".*") uid = Some true.
Proof.
  intros Hp Hpre. apply prefix_append in Hpre as [rest ->].
  destruct (re_parse_plain key Hp) as (re & Hre & Hm).
  pose proof (re_plain_head key Hp) as Hhead.
  unfold regex_search. destruct (key +:+ ".*") as [|c p] eqn:E; [done|].
  destruct (Ascii.eqb c "^") eqn:Ec.
  - apply Ascii.eqb_eq in Ec as ->. discriminate.
  - rewrite Hre. cbn. f_equal.
    assert (Hs : ∀ t, re_match_here re t = true → re_search_from re t = true).
    { intros [|? ?] Ht; cbn [re_search_from]; by rewrite Ht. }
    apply Hs, Hm.
Qed.

(** C5.  A key of length 36 that is the uid of a run of the store (uids being
    unique) is resolved by the exact-id query alone: the only calls on the
    header source are that query and the lookup of the stop document, whatever
    the other uids are.  A key for which the exact query finds nothing goes
    through the fallback query [{'$regex': key.*}]: no match raises
    [ValueError] "No such run found" (the spec's NotFoundError), one match is
    the result, several raise [ValueError] "matches n runs" (the spec's
    AmbiguousKey).  The fallback is not a prefix match: the pattern is not
    anchored and the key is not escaped.  Every run whose uid begins with an
    ordinary key is found, but so are others: on the sample store no uid
    begins with ["8263"] and none is ["a.b2"], yet ["8263"] resolves to the
    run whose uid holds it in the middle and ["a.b2"] to the run ["a1b2"]. *)
Theorem search_str_fallback_is_not_a_prefix_match :
  (∀ (m : MDS) (key : string) (r : RunStart),
     String.length key = 36 →
     NoDup (start_uid <$> run_starts m) →
     r ∈ run_starts m →
     start_uid r = key →
     search_str (HeaderSourceShim m) key =
       ([FindUid key; GetStop key],
        OK [(r, safe_get_stop (HeaderSourceShim m) r)]))
  ∧ (∀ (hs : HeaderSource) (key : string),
       (String.length key = 36 → find_run_starts_uid hs key = []) →
       let matches := find_run_starts_regex hs (key +:+ ".*") in
       FindRegex (key +:+ ".*") ∈ calls (search_str hs key)
       ∧ outcome (search_str hs key) =
           match matches with
           | [] => Raise (ValueError (NoSuchRun key))
           | [r] => OK [(r, safe_get_stop hs r)]
           | _ => Raise (ValueError (MatchesRuns key (length matches)))
           end)
  ∧ (∀ (m : MDS) (key : string) (r : RunStart),
       re_plain key = true →
       r ∈ run_starts m →
       String.prefix key (start_uid r) = true →
       r ∈ find_run_starts_regex (HeaderSourceShim m) (key +:+ ".*"))
  ∧ (∀ r, r ∈ run_starts sample_store →
          String.prefix "8263" (start_uid r) = false ∧ start_uid r ≠ "a.b2")
  ∧ search_str (HeaderSourceShim sample_store) "8263"
    = ([FindRegex "8263.*"; GetStop "f26efc1d-8263-46c8-a560-7bf73d2786e1"],
       OK [(sample_run "f26efc1d-8263-46c8-a560-7bf73d2786e1" 6,
            Some (mkRunStop "s6" "f26efc1d-8263-46c8-a560-7bf73d2786e1" None))])
  ∧ search_str (HeaderSourceShim sample_store) "a.b2"
    = ([FindRegex "a.b2.*"; GetStop "a1b2"],
       OK [(sample_run "a1b2" 1, Some (mkRunStop "s1" "a1b2" None))]).
Proof.
  split; [|split; [|split; [|split; [|split]]]].
  - intros m key r Hlen Hnd Hin <-.
    apply search_str_exact; [done|]. cbn. unfold recent_first.
    rewrite filter_reverse, filter_unique_uid by done. reflexivity.
  - intros hs key. apply search_str_fallback.
  - intros m key r Hp Hin Hpre. cbn. apply list_elem_of_filter. split.
    + by apply regex_search_prefix.
    + unfold recent_first. by apply elem_of_reverse.
  - intros r Hr. cbn in Hr. elem_cases Hr; split; (reflexivity || discriminate).
  - vm_compute. reflexivity.
  - vm_compute. reflexivity.
Qed.



(** C10.  [db[[]]], [db[()]] and [db[set()]] return the empty list, without
    calling the header source and without raising; and whatever a set, tuple,
    list or slice key resolves to is returned as a list, never as a bare
    header. *)
Theorem getitem_empty_collection (db : Broker) :
  __getitem__ db (KList []) = ([], OK (HeaderList []))
  ∧ __getitem__ db (KTuple []) = ([], OK (HeaderList []))
  ∧ __getitem__ db (KSet []) = ([], OK (HeaderList []))
  ∧ (∀ k r, is_multi_key k = true →
       outcome (__getitem__ db k) = OK r → ∃ l, r = HeaderList l).
Proof.
  repeat split; try reflexivity.
  intros k r Hk. unfold __getitem__.
  destruct (search (hs db) k) as [log [found|e]]; [|discriminate].
  rewrite traced_bind_ok. rewrite Hk. cbn.
  destruct (make_headers found) as [[|h [|h' l]]|e]; cbn; try discriminate;
    intros [= <-]; eauto.
Qed.

(** On the sample broker: the one-element list [[-1]] resolves to a list of
    one header. *)
Lemma getitem_empty_collection_witness :
  is_multi_key (KList [KInt (-1)]) = true
  ∧ outcome (__getitem__ sample_broker (KList [KInt (-1)]))
    = OK (HeaderList [closed_header (sample_run "f26efc1d-8263-46c8-a560-7bf73d2786e1" 6)
                                     (mkRunStop "s6" "f26efc1d-8263-46c8-a560-7bf73d2786e1" None)])
  ∧ ∃ l, HeaderList [closed_header (sample_run "f26efc1d-8263-46c8-a560-7bf73d2786e1" 6)
                                   (mkRunStop "s6" "f26efc1d-8263-46c8-a560-7bf73d2786e1" None)]
         = HeaderList l.
Proof.
  destruct (getitem_empty_collection sample_broker) as (_ & _ & _ & H).
  split; [reflexivity|]. split; [reflexivity|].
  apply (H (KList [KInt (-1)])); reflexivity.
Defined.

(** ** The results view *)

Lemma iter_loop_yields db data_key fuel :
  ∀ sh pos,
    pos ≤ length (drawn sh) →
    length (remaining sh pos) ≤ fuel →
    (iter_loop fuel db data_key sh pos).1 = yielded db data_key (remaining sh pos).
Proof.
  induction fuel as [|fuel IH]; intros [dr src] pos Hpos Hfuel;
    unfold remaining in *; cbn [drawn source] in *.
  - apply Nat.le_0_r, length_zero_iff_nil in Hfuel. by rewrite Hfuel.
  - cbn [iter_loop]. unfold tee_next. cbn [drawn source].
    destruct (dr !! pos) as [x|] eqn:Hx.
    + assert (Hdrop : drop pos (dr ++ src) = x :: drop (S pos) (dr ++ src)).
      { apply drop_S. by apply lookup_app_l_Some. }
      rewrite Hdrop in Hfuel |- *. cbn in Hfuel. cbn [yielded].
      destruct (make_header x) as [h|e]; [|reflexivity].
      destruct (yields_header db data_key h) as [found|e]; [|reflexivity].
      specialize (IH (mkTee dr src) (S pos)).
      unfold remaining in IH. cbn [drawn source] in IH.
      destruct (iter_loop fuel db data_key (mkTee dr src) (S pos)) as [[rest e] sh''].
      cbn [fst] in *.
      rewrite <- IH; [reflexivity | by apply lookup_lt_Some in Hx | lia].
    + apply lookup_ge_None in Hx. assert (pos = length dr) as -> by lia.
      rewrite drop_app_length in Hfuel |- *.
      destruct src as [|x rest]; [reflexivity|].
      cbn in Hfuel. cbn [yielded].
      destruct (make_header x) as [h|e]; [|reflexivity].
      destruct (yields_header db data_key h) as [found|e]; [|reflexivity].
      specialize (IH (mkTee (dr ++ [x]) rest) (S (length dr))).
      unfold remaining in IH. cbn [drawn source] in IH.
      assert (Hrest : drop (S (length dr)) ((dr ++ [x]) ++ rest) = rest).
      { replace (S (length dr)) with (length (dr ++ [x]))
          by (rewrite length_app; cbn; lia).
        by rewrite drop_app_length. }
      rewrite Hrest in IH.
      destruct (iter_loop fuel db data_key (mkTee (dr ++ [x]) rest) (S (length dr)))
        as [[out e] sh''].
      cbn [fst] in *.
      rewrite <- IH; [reflexivity | rewrite length_app; cbn; lia | lia].
Qed.

(** The loop moves items from the source into the queue and drops none. *)
Lemma iter_loop_contents db data_key fuel :
  ∀ sh pos,
    let sh' := (iter_loop fuel db data_key sh pos).2 in
    drawn sh' ++ source sh' = drawn sh ++ source sh.
Proof.
  induction fuel as [|fuel IH]; intros [dr src] pos; [reflexivity|].
  cbn [iter_loop]. unfold tee_next. cbn [drawn source].
  destruct (dr !! pos) as [x|].
  - destruct (make_header x) as [h|e]; [|reflexivity].
    destruct (yields_header db data_key h) as [found|e]; [|reflexivity].
    specialize (IH (mkTee dr src) (S pos)).
    destruct (iter_loop fuel db data_key (mkTee dr src) (S pos)) as [[rest e] sh''].
    exact IH.
  - destruct src as [|x rest]; [reflexivity|].
    assert (Hmoved : (dr ++ [x]) ++ rest = dr ++ x :: rest)
      by (by rewrite <- (assoc_L (++))).
    destruct (make_header x) as [h|e]; [|exact Hmoved].
    destruct (yields_header db data_key h) as [found|e]; [|exact Hmoved].
    specialize (IH (mkTee (dr ++ [x]) rest) (S pos)).
    destruct (iter_loop fuel db data_key (mkTee (dr ++ [x]) rest) (S pos))
      as [[out e] sh''].
    cbn [snd drawn source] in *. by rewrite IH.
Qed.

Lemma iter_spec db (v : Results) :
  _res v ≤ length (drawn (_shared v)) →
  (__iter__ db v).1 = yielded db (_data_key v) (remaining (_shared v) (_res v))
  ∧ _res (__iter__ db v).2 = _res v
  ∧ _data_key (__iter__ db v).2 = _data_key v
  ∧ remaining (_shared (__iter__ db v).2) 0 = remaining (_shared v) 0.
Proof.
  intros Hpos. unfold __iter__.
  pose proof (iter_loop_yields db (_data_key v)
                (S (length (remaining (_shared v) (_res v)))) (_shared v) (_res v)
                Hpos ltac:(lia)) as Hy.
  pose proof (iter_loop_contents db (_data_key v)
                (S (length (remaining (_shared v) (_res v)))) (_shared v) (_res v))
    as Hc.
  destruct (iter_loop _ db (_data_key v) (_shared v) (_res v)) as [out sh].
  cbn [fst snd _res _data_key _shared] in *.
  repeat split; [exact Hy|]. unfold remaining. by rewrite !drop_0.
Qed.

(** C8.  Iterating a results view a second time yields what the first
    iteration yielded (equal headers, hence equal uids) and ends the way the
    first ended: the headers of the source sequence that pass the [data_key]
    test, up to the first run for which building the header raises (a run
    without a stop document) or the test raises (a [data_key] that cannot be
    hashed), in either iteration.  After either iteration,
    and after an iteration abandoned after any number of items, the iterator
    the view keeps has the whole source sequence still to yield.  The broker,
    and with it the descriptors the [data_key] test reads, is the same for
    both iterations. *)
Theorem Results_iter_twice (db : Broker) (res : list run_pair) (data_key : option value) :
  let v := Results_init res data_key in
  let first := __iter__ db v in
  let second := __iter__ db first.2 in
  header_uid <$> second.1.1 = header_uid <$> first.1.1
  ∧ second.1 = first.1
  ∧ first.1 = yielded db data_key res
  ∧ remaining (_shared first.2) (_res first.2) = res
  ∧ remaining (_shared second.2) (_res second.2) = res
  ∧ ∀ n, remaining (iter_loop n db data_key (_shared v) (_res v)).2 (_res v) = res.
Proof.
  intros v first second.
  destruct (iter_spec db v) as (Hy1 & Hp1 & Hk1 & Hr1); [cbn; lia|].
  fold first in Hy1, Hp1, Hk1, Hr1.
  change (remaining (_shared v) (_res v)) with res in Hy1.
  change (remaining (_shared v) 0) with res in Hr1.
  change (_res v) with 0 in Hp1. change (_data_key v) with data_key in Hk1.
  destruct (iter_spec db first.2) as (Hy2 & Hp2 & _ & Hr2); [rewrite Hp1; lia|].
  fold second in Hy2, Hp2, Hr2.
  rewrite Hp1, Hk1, Hr1 in Hy2. rewrite Hp1 in Hp2. rewrite Hr1 in Hr2.
  assert (Heq : second.1 = first.1) by (by rewrite Hy1, Hy2).
  split; [by rewrite Heq|]. split; [exact Heq|]. split; [exact Hy1|].
  split; [by rewrite Hp1|]. split; [by rewrite Hp2|].
  intros n. change (_shared v) with (mkTee [] res). change (_res v) with 0.
  unfold remaining. rewrite drop_0.
  by rewrite (iter_loop_contents db data_key n (mkTee [] res) 0).
Qed.

(** ** Filling, document streams and aliases *)

Lemma send_each_pass_through events : send_each PassThrough events = (events, None).
Proof.
  induction events as [|ev events IH]; [reflexivity|].
  cbn. rewrite IH. reflexivity.
Qed.

(** C4.  With [fields=False] the coroutine is the pass-through loop, which
    sends every event back as it is; [fill_events] therefore yields exactly
    the input events and ends without an exception, for every descriptor set
    and either value of [inplace]; and [fill_table] returns the table it was
    given. *)
Theorem fill_fields_False_is_identity
    (db : Broker) (events : list Event) (descriptors : list Descriptor)
    (inplace : bool) (t : table) (d : Descriptor) :
  _fill_events_coro db descriptors FieldsFalse inplace = OK PassThrough
  ∧ (∀ ev, send PassThrough ev = OK ev)
  ∧ fill_events db events descriptors FieldsFalse inplace = (events, None)
  ∧ fill_table db t d FieldsFalse inplace = OK t.
Proof.
  repeat split. unfold fill_events. cbn. apply send_each_pass_through.
Qed.

(** C7.  If the whitelist [fields] names a field that is in the [data_keys]
    of no descriptor of any of the given headers, [get_documents] ends with
    [FieldNotFound], naming that field, and has yielded nothing before. *)
Theorem get_documents_field_not_found
    (db : Broker) (headers : headers_arg) (stream_name : stream_sel)
    (fields : list string) (fill : fields_arg)
    (handler_registry : option (gmap string string)) (f : string) :
  f ∈ fields →
  (∀ h d, h ∈ normalise_headers headers → d ∈ header_descriptors db h →
          f ∉ (data_keys d).*1) →
  ∃ missing,
    f ∈ missing
    ∧ get_documents db headers stream_name (Some fields) fill handler_registry
      = ([], Some (FieldNotFound missing)).
Proof.
  intros Hf Habsent. unfold get_documents, check_fields_exist.
  change (default [] (Some fields)) with fields.
  set (all_fields := flat_map _ _).
  assert (Hnot : f ∉ all_fields).
  { subst all_fields. rewrite list_elem_of_In, in_flat_map.
    intros (h & Hh & Hin). apply in_flat_map in Hin as (d & Hd & Hin).
    apply (Habsent h d); by apply list_elem_of_In. }
  assert (Hmiss : f ∈ filter (fun f => f ∉ all_fields) fields).
  { apply list_elem_of_filter. split; assumption. }
  destruct (filter (fun f => f ∉ all_fields) fields) as [|x missing] eqn:E.
  - by apply elem_of_nil in Hmiss.
  - exists (x :: missing). split; [assumption | reflexivity].
Qed.

(** On the sample run: no descriptor has a field ["nope"]. *)
Lemma get_documents_field_not_found_witness :
  ∃ missing,
    "nope" ∈ missing
    ∧ get_documents run_broker (SingleHeader h1) ALL (Some ["det"; "nope"])
                    FieldsFalse None
      = ([], Some (FieldNotFound missing)).
Proof.
  apply get_documents_field_not_found.
  - by_compute.
  - intros h d Hh Hd. cbn in Hh. elem_cases Hh.
    change (header_descriptors run_broker h1) with [d_primary; d_baseline] in Hd.
    elem_cases Hd; intros Hin; cbn in Hin; elem_cases Hin; discriminate.
Defined.

Lemma getattr_alias db key a :
  aliases db !! key = Some a →
  __getattr__ db key
  = __call__ db (alias_query a !! "text_search") (delete "text_search" (alias_query a)).
Proof. intros Ha. unfold __getattr__. rewrite Ha. by destruct a. Qed.

Lemma getattr_raises db key e :
  __getattr__ db key = Raise e →
  e = AttributeError key ∧ aliases db !! key = None
  ∨ (∃ what, e = TypeError what) ∧ is_Some (aliases db !! key).
Proof.
  unfold __getattr__. destruct (aliases db !! key) as [a|]; [|intros [= <-]; by left].
  unfold __call__. repeat case_bool_decide; intros [= <-]; right; eauto.
Qed.

(** [hasattr] finds an attribute at once; for any other name it runs the
    alias of that name, if there is one. *)
Lemma hasattr_spec db key :
  hasattr db key =
    if bool_decide (key ∈ attributes db) then OK true
    else match aliases db !! key with
         | None => OK false
         | Some _ => _ ← __getattr__ db key; OK true
         end.
Proof.
  unfold hasattr, getattr. case_bool_decide; [reflexivity|].
  destruct (__getattr__ db key) as [r|e] eqn:E; cbn.
  - destruct (aliases db !! key) eqn:Ea; [reflexivity|].
    unfold __getattr__ in E. rewrite Ea in E. discriminate.
  - apply getattr_raises in E as [[-> ->]|[[what ->] [a ->]]]; reflexivity.
Qed.

Lemma set_alias_spec db key a :
  set_alias db key a =
    if bool_decide (key ∈ dom (aliases db)) then
      if bool_decide (key ∈ attributes db)
      then OK (with_aliases db (<[key := a]> (aliases db)))
      else _ ← __getattr__ db key; OK (with_aliases db (<[key := a]> (aliases db)))
    else
      if bool_decide (key ∈ attributes db)
      then Raise (ValueError (NotLegalAlias key))
      else OK (with_aliases db (<[key := a]> (aliases db))).
Proof.
  unfold set_alias. rewrite hasattr_spec.
  destruct (bool_decide (key ∈ dom (aliases db))) eqn:Ed.
  - apply bool_decide_eq_true in Ed. apply elem_of_dom in Ed as [old Hold].
    rewrite Hold. case_bool_decide; [reflexivity|].
    destruct (__getattr__ db key); reflexivity.
  - apply bool_decide_eq_false in Ed. apply not_elem_of_dom in Ed. rewrite Ed.
    case_bool_decide; reflexivity.
Qed.

(** C9.  For a name that is not an alias yet, [alias] and [dynamic_alias]
    raise exactly when the name is an attribute of the broker, and what they
    raise is [ValueError] "is not a legal alias"; otherwise the alias is
    entered and nothing else of the broker changes.  For a name that is
    already an alias the test [hasattr(self, key)] runs the old alias first:
    when that succeeds the alias is replaced, and when it raises, registering
    raises the same.  On the sample broker the alias ["mine"] is registered
    with a query that holds [filters]; registering ["mine"] again, statically
    or dynamically, raises the [TypeError] of that query. *)
Theorem alias_again_runs_the_old_alias :
  (∀ db key q, alias db key q = set_alias db key (StaticAlias q))
  ∧ (∀ db key func, dynamic_alias db key func = set_alias db key (DynamicAlias func))
  ∧ (∀ db key a,
       key ∉ dom (aliases db) →
       set_alias db key a =
         if bool_decide (key ∈ attributes db)
         then Raise (ValueError (NotLegalAlias key))
         else OK (with_aliases db (<[key := a]> (aliases db))))
  ∧ (∀ db key a old,
       aliases db !! key = Some old →
       key ∉ attributes db →
       set_alias db key a =
         (_ ← __call__ db (alias_query old !! "text_search")
                       (delete "text_search" (alias_query old));
          OK (with_aliases db (<[key := a]> (aliases db)))))
  ∧ (∀ db key a db',
       set_alias db key a = OK db' →
       aliases db' !! key = Some a
       ∧ (∀ other, other ≠ key → aliases db' !! other = aliases db !! other)
       ∧ attributes db' = attributes db
       ∧ filters db' = filters db
       ∧ hs db' = hs db ∧ hs_search db' = hs_search db
       ∧ event_sources db' = event_sources db ∧ assets db' = assets db)
  ∧ alias sample_broker "mine" {[ "filters" := VStr "Dan" ]} = OK stale_broker
  ∧ alias stale_broker "mine" {[ "purpose" := VStr "dark" ]}
    = Raise (TypeError "got multiple values for keyword argument 'filters'")
  ∧ dynamic_alias stale_broker "mine" (fun _ => {[ "purpose" := VStr "dark" ]})
    = Raise (TypeError "got multiple values for keyword argument 'filters'").
Proof.
  split; [reflexivity|]. split; [reflexivity|]. split; [|split; [|split]].
  - intros db key a Hd. rewrite set_alias_spec.
    by rewrite (bool_decide_eq_false_2 _ Hd).
  - intros db key a old Hold Ha. rewrite set_alias_spec.
    rewrite bool_decide_eq_true_2 by (apply elem_of_dom; eauto).
    rewrite (bool_decide_eq_false_2 _ Ha).
    by rewrite (getattr_alias db key old Hold).
  - intros db key a db' Hset. rewrite set_alias_spec in Hset.
    assert (Hdb : db' = with_aliases db (<[key := a]> (aliases db))).
    { repeat case_bool_decide; try discriminate; try congruence.
      destruct (__getattr__ db key); cbn in Hset; congruence. }
    subst db'. cbn [aliases with_aliases attributes filters hs hs_search
                    event_sources assets].
    rewrite lookup_insert_eq. repeat split; try reflexivity.
    intros other Hne. by rewrite lookup_insert_ne.
  - repeat split; vm_compute; reflexivity.
Qed.

(** ** The filling loop *)

Lemma fill_keys_loop_app rm desc v1 v2 df :
  fill_keys_loop rm desc (v1 ++ v2) df =
    (df' ← fill_keys_loop rm desc v1 df; fill_keys_loop rm desc v2 df').
Proof.
  revert df. induction v1 as [|dk v1 IH]; intros df; [reflexivity|].
  cbn. destruct (fill_one rm desc dk df) as [df'|e]; cbn; [apply IH | reflexivity].
Qed.

(** The keys the loop visits do not depend on the descriptor of the event:
    they are the fill keys of every entry of [fill_map], one entry after the
    other. *)
Lemma fill_map_loop_all_entries rm desc (fm : fill_map_t) df :
  fill_map_loop rm desc fm df = fill_keys_loop rm desc (concat fm.*2) df.
Proof.
  revert df. induction fm as [|[k v] fm IH]; intros df; [reflexivity|].
  cbn. rewrite fill_keys_loop_app.
  destruct (fill_keys_loop rm desc v df) as [df'|e]; cbn; [apply IH | reflexivity].
Qed.

(** When no key is visited twice and every visited key can be resolved, the
    visited keys, and only they, are replaced: [data] holds the payload of
    the id it held, [filled] holds that id. *)
Lemma fill_keys_loop_distinct (rm : registry_map_t) desc (v : list string) :
  NoDup v →
  ∀ (data filled : gmap string value),
    (∀ dk, dk ∈ v → ∃ d_id r p,
        data !! dk = Some d_id ∧ rm !! (desc, dk) = Some r ∧ retrieve r d_id = OK p) →
    ∃ data' filled',
      fill_keys_loop rm desc v (data, filled) = OK (data', filled')
      ∧ (∀ dk, dk ∈ v → ∃ d_id r,
            data !! dk = Some d_id ∧ rm !! (desc, dk) = Some r
            ∧ OK <$> data' !! dk = Some (retrieve r d_id)
            ∧ filled' !! dk = Some d_id)
      ∧ (∀ k, k ∉ v → data' !! k = data !! k ∧ filled' !! k = filled !! k).
Proof.
  induction 1 as [|dk v Hfresh Hnd IH]; intros data filled Hres.
  - exists data, filled. split; [reflexivity|]. split; [|done].
    intros dk Hdk. by apply elem_of_nil in Hdk.
  - destruct (Hres dk) as (d_id & r & p & Hd & Hr & Hp); [left|].
    cbn. rewrite Hd, Hr. cbn. rewrite Hp. cbn.
    destruct (IH (<[dk := p]> data) (<[dk := d_id]> filled))
      as (data' & filled' & Hloop & Hin & Hout).
    { intros dk' Hdk'. destruct (Hres dk') as (d' & r' & p' & ? & ? & ?); [by right|].
      exists d', r', p'. rewrite lookup_insert_ne by (intros ->; contradiction). done. }
    exists data', filled'. split; [exact Hloop|]. split.
    + intros dk' Hdk'. apply elem_of_cons in Hdk' as [->|Hdk'].
      * exists d_id, r. destruct (Hout dk Hfresh) as [-> ->].
        rewrite !lookup_insert_eq, Hp. done.
      * destruct (Hin dk' Hdk') as (d' & r' & Hd' & Hr' & Hdata & Hfilled).
        rewrite lookup_insert_ne in Hd' by (intros ->; contradiction).
        exists d', r'. done.
    + intros k Hk. apply not_elem_of_cons in Hk as [Hne Hk].
      destruct (Hout k Hk) as [-> ->].
      rewrite !lookup_insert_ne by done. done.
Qed.

Lemma collect_external_ok db desc r (dks : list (string * DataKey)) :
  reg db = OK r →
  ∀ (rm : registry_map_t) (fk : list string),
    NoDup fk →
    (∀ k, k ∈ fk → rm !! (desc, k) = Some r) →
    ∃ rm' fk',
      collect_external db desc dks rm fk = OK (rm', fk')
      ∧ NoDup fk'
      ∧ (∀ k, k ∈ fk' → rm' !! (desc, k) = Some r)
      ∧ (∀ k, k ∈ fk' ↔ k ∈ fk ∨ ∃ v, (k, v) ∈ dks ∧ is_external v = true).
Proof.
  intros Hreg. induction dks as [|[k v] dks IH]; intros rm fk Hnd Hrm.
  - exists rm, fk. repeat split; try done.
    + by left.
    + intros [?|(v & Hin & _)]; [done|]. by apply elem_of_nil in Hin.
  - cbn. destruct (is_external v) eqn:Hext.
    + rewrite Hreg. cbn.
      edestruct (IH (<[(desc, k) := r]> rm)
                    (if bool_decide (k ∈@{list string} fk) then fk else fk ++ [k]))
        as (rm' & fk' & Hc & Hnd' & Hrm' & Hiff).
      * case_bool_decide; [done|]. apply NoDup_app. repeat split; try done.
        -- intros x Hx Hx'. apply list_elem_of_singleton in Hx'. by subst.
        -- apply NoDup_singleton.
      * intros k' Hk'. destruct (decide (k' = k)) as [->|Hne].
        -- apply lookup_insert_eq.
        -- rewrite lookup_insert_ne by congruence. apply Hrm.
           case_bool_decide; [done|].
           apply elem_of_app in Hk' as [?|Hk']; [done|].
           apply list_elem_of_singleton in Hk'. contradiction.
      * exists rm', fk'. repeat split; try done.
        -- intros Hk'. apply Hiff in Hk' as [Hk'|(v' & Hin & Hv')].
           ++ case_bool_decide; [by left|].
              apply elem_of_app in Hk' as [?|Hk']; [by left|].
              apply list_elem_of_singleton in Hk' as ->.
              right. exists v. split; [left | done].
           ++ right. exists v'. split; [by right | done].
        -- intros [Hk'|(v' & Hin & Hv')]; apply Hiff.
           ++ left. case_bool_decide; [done|]. apply elem_of_app. by left.
           ++ apply elem_of_cons in Hin as [[= -> ->]|Hin].
              ** left. case_bool_decide; [done|]. apply elem_of_app. right. left.
              ** right. eauto.
    + edestruct (IH rm fk) as (rm' & fk' & Hc & Hnd' & Hrm' & Hiff); [done..|].
      exists rm', fk'. repeat split; try done.
      * intros Hk'. apply Hiff in Hk' as [?|(v' & Hin & Hv')]; [by left|].
        right. exists v'. split; [by right | done].
      * intros [Hk'|(v' & Hin & Hv')]; apply Hiff; [by left|].
        apply elem_of_cons in Hin as [[= -> ->]|Hin]; [congruence|].
        right. eauto.
Qed.

Lemma coro_single_descriptor db d r fields sel inplace :
  reg db = OK r →
  normalise_fields fields = Some sel →
  sel ≠ SelectEmptySeq →
  ∃ (rm : registry_map_t) (keys : list string),
    _fill_events_coro db [d] fields inplace
      = OK (Filling rm [(desc_uid d, keys)] inplace)
    ∧ NoDup keys
    ∧ (∀ k, k ∈ keys → rm !! (desc_uid d, k) = Some r)
    ∧ (∀ k, k ∈ keys ↔ is_fill_key sel d k).
Proof.
  intros Hreg Hsel Hne. unfold _fill_events_coro. rewrite Hsel. cbn.
  destruct (collect_external_ok db (desc_uid d) r (data_keys d) Hreg ∅ [])
    as (rm & fk & -> & Hnd & Hrm & Hiff).
  { apply NoDup_nil_2. }
  { intros k Hk. by apply elem_of_nil in Hk. }
  cbn. destruct sel as [|s|]; [| |done]; cbn.
  - exists rm, fk. split; [done|]. split; [done|]. split; [done|].
    intros k. rewrite Hiff. unfold is_fill_key. split.
    + intros [Hk|?]; [by apply elem_of_nil in Hk | done].
    + intros [Hk _]. by right.
  - exists rm, (filter (fun k => k ∈ s) fk).
    split; [done|]. split; [by apply NoDup_filter|]. split.
    + intros k Hk. apply list_elem_of_filter in Hk as [_ Hk]. by apply Hrm.
    + intros k. rewrite list_elem_of_filter, Hiff. unfold is_fill_key. split.
      * intros [Hs [Hk|?]]; [by apply elem_of_nil in Hk | done].
      * intros [Hk Hs]. split; [done | by right].
Qed.

(** Filled against the one descriptor it belongs to, an event whose fill keys
    can all be resolved comes out as documented: exactly the fill keys are
    replaced, [data] holds the retrieved payload and [filled] the id that was
    in [data]. *)
Lemma fill_events_single_descriptor db d r fields sel inplace (ev : Event) :
  reg db = OK r →
  normalise_fields fields = Some sel →
  sel ≠ SelectEmptySeq →
  descriptor ev = desc_uid d →
  (∀ k, is_fill_key sel d k →
        ∃ d_id p, data ev !! k = Some d_id ∧ retrieve r d_id = OK p) →
  ∃ ev',
    fill_events db [ev] [d] fields inplace = ([ev'], None)
    ∧ (∀ k, is_fill_key sel d k →
            ∃ d_id, data ev !! k = Some d_id
                    ∧ OK <$> data ev' !! k = Some (retrieve r d_id)
                    ∧ filled ev' !! k = Some d_id)
    ∧ (∀ k, ¬ is_fill_key sel d k →
            data ev' !! k = data ev !! k ∧ filled ev' !! k = filled ev !! k).
Proof.
  intros Hreg Hsel Hne Hdesc Hres.
  destruct (coro_single_descriptor db d r fields sel inplace Hreg Hsel Hne)
    as (rm & keys & Hc & Hnd & Hrm & Hkeys).
  unfold fill_events. rewrite Hc. cbn [send_each send].
  set (ev0 := if inplace then ev else _).
  assert (Hev0 : descriptor ev0 = desc_uid d ∧ data ev0 = data ev ∧ filled ev0 = filled ev).
  { subst ev0. by destruct inplace. }
  destruct Hev0 as (Hd0 & Hdata0 & Hfilled0). rewrite Hd0, Hdata0, Hfilled0.
  rewrite fill_map_loop_all_entries. cbn [fmap list_fmap snd concat]. rewrite app_nil_r.
  destruct (fill_keys_loop_distinct rm (desc_uid d) keys Hnd (data ev) (filled ev))
    as (data' & filled' & -> & Hin & Hout).
  { intros dk Hdk. destruct (Hres dk) as (d_id & p & ? & ?); [by apply Hkeys|].
    exists d_id, r, p. repeat split; try done. by apply Hrm. }
  cbn. eexists. split; [reflexivity|]. cbn. split.
  - intros k Hk. apply Hkeys in Hk.
    destruct (Hin k Hk) as (d_id & r' & ? & Hr' & ? & ?).
    rewrite (Hrm k Hk) in Hr'. injection Hr' as <-. eauto.
  - intros k Hk. apply Hout. by rewrite Hkeys.
Qed.

(** ** Export *)

Lemma insert_event_known (m : MDS) (ev : Event) :
  descriptor ev ∈ desc_uid <$> descriptors m →
  export_event m (DEvent ev)
  = OK (mkMDS (run_starts m) (run_stops m) (descriptors m)
              (events m ++ [exported_event ev])).
Proof.
  intros Hd. cbn. unfold insert_event.
  by rewrite bool_decide_eq_true_2.
Qed.

Lemma export_events_all (evs : list Event) (m : MDS) :
  Forall (fun ev => descriptor ev ∈ desc_uid <$> descriptors m) evs →
  export_events m (DEvent <$> evs)
  = (mkMDS (run_starts m) (run_stops m) (descriptors m)
           (events m ++ (exported_event <$> evs)), None).
Proof.
  revert m. induction evs as [|ev evs IH]; intros m Hall.
  - cbn. rewrite app_nil_r. by destruct m.
  - apply Forall_cons in Hall as [Hev Hall].
    rewrite fmap_cons. cbn [export_events].
    rewrite insert_event_known by done.
    rewrite IH by done. cbn. by rewrite <- (assoc_L (++)).
Qed.

(** The first event whose descriptor the store does not have ends the loop;
    the events before it stay inserted. *)
Lemma export_events_unknown (before after : list Event) (ev : Event) (m : MDS) :
  Forall (fun ev => descriptor ev ∈ desc_uid <$> descriptors m) before →
  descriptor ev ∉ desc_uid <$> descriptors m →
  export_events m (DEvent <$> (before ++ ev :: after))
  = (mkMDS (run_starts m) (run_stops m) (descriptors m)
           (events m ++ (exported_event <$> before)),
     Some (KeyError (descriptor ev))).
Proof.
  revert m. induction before as [|b before IH]; intros m Hall Hev.
  - cbn. unfold insert_event. cbn [descriptor exported_event with_doct_name
                                    with_data_filled].
    rewrite bool_decide_eq_false_2 by done. rewrite app_nil_r. by destruct m.
  - apply Forall_cons in Hall as [Hb Hall].
    change ((b :: before) ++ ev :: after) with (b :: (before ++ ev :: after)).
    rewrite fmap_cons. cbn [export_events].
    rewrite insert_event_known by done.
    rewrite IH by done. cbn. by rewrite <- (assoc_L (++)).
Qed.

Lemma export_descriptors_no_events (ds : list Descriptor) (m : MDS) :
  export_descriptors m ds ([], None)
  = (mkMDS (run_starts m) (run_stops m)
           (descriptors m ++ (exported_descriptor <$> ds)) (events m), None).
Proof.
  revert m. induction ds as [|d ds IH]; intros m.
  - cbn. rewrite app_nil_r. by destruct m.
  - cbn. rewrite IH. cbn. by rewrite <- (assoc_L (++)).
Qed.

(** ** Where the code departs from its documentation *)

(** C1.  [e1] belongs to the descriptor [d_primary], in which [cam] is not a
    field at all.  Filled against [d_primary] alone, its external field [img]
    is resolved.  Filled against the descriptors of its run, [d_primary] and
    [d_baseline], the loop also visits [cam], which is external only in
    [d_baseline], and the fill ends with [KeyError]. *)
Theorem fill_events_foreign_key_fails :
  descriptor e1 = desc_uid d_primary
  ∧ ("cam" ∉ (data_keys d_primary).*1)
  ∧ fill_events run_broker [e1] [d_primary] FieldsTrue true
    = ([with_data_filled e1 (<["img" := VArr [1; 2; 3]%Z]> (data e1))
                            (<["img" := VStr "id1"]> (filled e1))], None)
  ∧ fill_events run_broker [e1] [d_primary; d_baseline] FieldsTrue true
    = ([], Some (KeyError "cam")).
Proof.
  split; [reflexivity|]. split.
  - intros H. apply list_elem_of_In in H. cbn in H.
    destruct H as [H|[H|[]]]; discriminate.
  - split; vm_compute; reflexivity.
Qed.

(** C3.  When two descriptors of the set mark the same field external, the
    loop visits the field twice.  With a registry whose payloads are again
    datum ids, [data["img"]] ends as the payload of the payload and
    [filled["img"]] as the payload of the original id 7, not 7 itself; filled
    against one descriptor the event comes out as documented.  With a
    registry that does not know the payload, the second visit makes the fill
    fail. *)
Theorem fill_events_shared_key_filled_twice :
  retrieve scaling_registry (VInt 7) = OK (VInt 70)
  ∧ (∃ ev, fill_events scaling_broker [e3] [d_primary] FieldsTrue true = ([ev], None)
           ∧ data ev !! "img" = Some (VInt 70)
           ∧ filled ev !! "img" = Some (VInt 7))
  ∧ (∃ ev, fill_events scaling_broker [e3] [d_primary; d_primary_2] FieldsTrue true
           = ([ev], None)
           ∧ data ev !! "img" = Some (VInt 700)
           ∧ filled ev !! "img" = Some (VInt 70))
  ∧ fill_events run_broker [e1] [d_primary; d_primary_2] FieldsTrue true
    = ([], Some (KeyError "datum")).
Proof.
  split; [reflexivity|]. split; [|split].
  - eexists. split; [vm_compute; reflexivity|]. split; vm_compute; reflexivity.
  - eexists. split; [vm_compute; reflexivity|]. split; vm_compute; reflexivity.
  - vm_compute. reflexivity.
Qed.

(** C2.  The run of [run_broker] has two descriptors and two events, one in
    the stream ["primary"] and one in ["baseline"].  After [export] into an
    empty store, a fresh broker over the destination finds the run and its
    start, stop and two descriptors, but only one event: the event of the
    stream ["baseline"] was not exported. *)
Theorem export_drops_non_primary_events :
  outcome (__getitem__ fresh_broker (KStr "run1")) = OK (OneHeader h1)
  ∧ let source_docs :=
      get_documents run_broker (SingleHeader h1) ALL None FieldsFalse None in
    let dest_docs :=
      get_documents fresh_broker (SingleHeader h1) ALL None FieldsFalse None in
    source_docs.2 = None ∧ dest_docs.2 = None
    ∧ count_docs "start" source_docs = 1 ∧ count_docs "start" dest_docs = 1
    ∧ count_docs "stop" source_docs = 1 ∧ count_docs "stop" dest_docs = 1
    ∧ count_docs "descriptor" source_docs = 2
    ∧ count_docs "descriptor" dest_docs = 2
    ∧ count_docs "event" source_docs = 2 ∧ count_docs "event" dest_docs = 1.
Proof.
  split; [vm_compute; reflexivity|]. cbv zeta.
  repeat split; vm_compute; reflexivity.
Qed.

(** ** Further properties *)

(** *** Slicing *)

Lemma omap_pointwise {A B} (f g : A → option B) (l : list A) :
  (∀ x, f x = g x) → omap f l = omap g l.
Proof.
  intros Hfg. induction l as [|x l IH]; [reflexivity|].
  cbn. rewrite Hfg, IH. reflexivity.
Qed.

Lemma omap_lookup_seq {A} (l : list A) :
  omap (fun k => l !! k) (seq 0 (length l)) = l.
Proof.
  induction l as [|x l IH]; [reflexivity|].
  cbn [length]. rewrite <- cons_seq. cbn [omap list_omap lookup list_lookup].
  f_equal. rewrite <- fmap_S_seq.
  rewrite <- IH at 2. clear IH.
  generalize (seq 0 (length l)). intros ks.
  induction ks as [|k ks IH]; [reflexivity|].
  cbn. destruct (l !! k); cbn; by rewrite IH.
Qed.

Lemma omap_lookup_seq_from {A} (n : nat) :
  ∀ l : list A,
    omap (fun k => l !! (n + k)) (seq 0 (length l - n)) = drop n l.
Proof.
  induction n as [|n IH]; intros l.
  - rewrite Nat.sub_0_r. cbn [drop]. apply omap_lookup_seq.
  - destruct l as [|x l]; [reflexivity|]. cbn [length drop]. 
    rewrite Nat.sub_succ. apply IH.
Qed.

(** [lst[s:]] for [0 <= s]: the list without its first [s] items. *)
Lemma slice_from_drop {A} (l : list A) (s : Z) :
  (0 ≤ s)%Z → slice_from l (Some s) None = OK (drop (Z.to_nat s) l).
Proof.
  intros Hs. unfold slice_from. cbn [default Z.eqb]. f_equal.
  unfold slice_start, slice_count. cbn [Z.ltb Z.compare].
  destruct (Z.ltb_spec s 0); [lia|].
  set (len := Z.of_nat (length l)).
  destruct (Z.ltb_spec (Z.min s len) len) as [Hlt|Hge].
  - assert (Z.min s len = s) as -> by lia.
    rewrite Z.div_1_r.
    replace (Z.to_nat (len - s - 1 + 1)) with (length l - Z.to_nat s) by lia.
    rewrite <- omap_lookup_seq_from. apply omap_pointwise.
    intros k. f_equal. lia.
  - cbn. rewrite drop_ge; [reflexivity|]. lia.
Qed.

Lemma slice_from_all {A} (l : list A) : slice_from l None None = OK l.
Proof.
  transitivity (slice_from l (Some 0%Z) None); [|by rewrite slice_from_drop].
  unfold slice_from, slice_start. cbn [default Z.eqb Z.ltb Z.compare].
  replace (Z.min 0 (Z.of_nat (length l))) with 0%Z by lia. reflexivity.
Qed.

Lemma omap_length_le {A B} (f : A → option B) (l : list A) :
  length (omap f l) ≤ length l.
Proof.
  induction l as [|x l IH]; [reflexivity|].
  cbn. destruct (f x); cbn; lia.
Qed.

Lemma slice_from_length {A} (l : list A) (start step : option Z) (r : list A) :
  slice_from l start step = OK r → length r ≤ length l.
Proof.
  unfold slice_from. destruct (_ =? _)%Z eqn:Est; [discriminate|].
  intros [= <-]. apply Z.eqb_neq in Est.
  set (st := default 1%Z step) in *.
  set (len := Z.of_nat (length l)).
  set (s0 := slice_start len start st).
  etransitivity; [apply omap_length_le|]. rewrite length_seq.
  assert (Hs0 : if (st <? 0)%Z then (-1 ≤ s0 ≤ len - 1)%Z else (0 ≤ s0 ≤ len)%Z).
  { subst s0. unfold slice_start. destruct (Z.ltb_spec st 0), start as [s|];
      try destruct (Z.ltb_spec s 0); lia. }
  unfold slice_count.
  destruct (Z.ltb_spec 0 st) as [Hpos|Hneg].
  - destruct (Z.ltb_spec st 0); [lia|].
    destruct (Z.ltb_spec s0 len); [|lia].
    assert ((len - s0 - 1) / st ≤ len - s0 - 1)%Z.
    { apply Z.div_le_upper_bound; nia. }
    lia.
  - destruct (Z.ltb_spec st 0); [|lia].
    destruct (Z.ltb_spec (-1) s0); [|lia].
    replace (s0 - -1 - 1)%Z with s0 by lia.
    assert (s0 / - st ≤ s0)%Z.
    { apply Z.div_le_upper_bound; nia. }
    lia.
Qed.

(** *** Slices *)

Lemma slice_from_elem {A} (l : list A) (start step : option Z) (r : list A) :
  slice_from l start step = OK r → ∀ x, x ∈ r → x ∈ l.
Proof.
  unfold slice_from. destruct (_ =? _)%Z; [discriminate|].
  intros [= <-] x Hx. apply list_elem_of_omap in Hx as (k & _ & Hk).
  by apply list_elem_of_lookup_2 in Hk.
Qed.

Lemma search_slice_outcome hs x b c :
  (x ≤ -1)%Z → (∀ y, b = Some y → (y ≤ 0)%Z) →
  outcome (search_slice hs (Some x) b c) =
    (result ← slice_from (find_last hs (- x)) (Z.opp <$> b) c;
     OK (map (fun s => (s, safe_get_stop hs s)) result)).
Proof. intros Hx Hb. by apply search_slice_window. Qed.

(** X1.  [db[-n:-k]] asks the header source for its last [n] runs and returns
    them, each with its stop document, without the first [k]; [db[-n:]]
    returns all of them. *)
Theorem search_slice_is_a_window hs (n k : Z) :
  (1 ≤ n)%Z → (0 ≤ k)%Z →
  outcome (search_slice hs (Some (- n)%Z) (Some (- k)%Z) None)
    = OK (map (fun s => (s, safe_get_stop hs s))
              (drop (Z.to_nat k) (find_last hs n)))
  ∧ outcome (search_slice hs (Some (- n)%Z) None None)
    = OK (map (fun s => (s, safe_get_stop hs s)) (find_last hs n)).
Proof.
  intros Hn Hk. split.
  - rewrite search_slice_outcome; [|lia|intros y [= <-]; lia].
    cbn [fmap option_fmap option_map]. rewrite !Z.opp_involutive.
    rewrite slice_from_drop by lia. reflexivity.
  - rewrite search_slice_outcome; [|lia|intros y [=]].
    cbn [fmap option_fmap option_map]. rewrite slice_from_all.
    rewrite Z.opp_involutive. reflexivity.
Qed.

Lemma search_slice_is_a_window_witness :
  outcome (search_slice (HeaderSourceShim sample_store) (Some (-4)%Z) (Some (-1)%Z) None)
    = OK (map (fun s => (s, stop_of sample_store s))
              (drop 1 (take 4 (recent_first sample_store))))
  ∧ outcome (search_slice (HeaderSourceShim sample_store) (Some (-2)%Z) (Some (-7)%Z) None)
    = OK [].
Proof.
  split.
  - apply (proj1 (search_slice_is_a_window (HeaderSourceShim sample_store) 4 1
                    ltac:(lia) ltac:(lia))).
  - apply (proj1 (search_slice_is_a_window (HeaderSourceShim sample_store) 2 7
                    ltac:(lia) ltac:(lia))).
Defined.

(** X2.  A slice that succeeds has a negative start and a stop that is
    not positive; it returns no more runs than [find_last] gave for the start,
    and every run it returns is one of those, paired with the stop document
    the header source has for it. *)
Theorem search_slice_bounded hs (a : Z) (b c : option Z) (res : list run_pair) :
  outcome (search_slice hs (Some a) b c) = OK res →
  (a ≤ -1)%Z
  ∧ (∀ y, b = Some y → (y ≤ 0)%Z)
  ∧ length res ≤ length (find_last hs (- a))
  ∧ (∀ p, p ∈ res → p.1 ∈ find_last hs (- a) ∧ p.2 = safe_get_stop hs p.1).
Proof.
  intros Hres.
  assert (Ha : (a ≤ -1)%Z).
  { destruct (Z.le_gt_cases a (-1)) as [?|Hgt]; [done|].
    destruct (search_slice_raises hs (Some a) b c) as [msg Hr].
    - right. left. exists a. split; [done|lia].
    - rewrite Hr in Hres. discriminate. }
  assert (Hb : ∀ y, b = Some y → (y ≤ 0)%Z).
  { intros y ->. destruct (Z.le_gt_cases y 0) as [?|Hgt]; [done|].
    destruct (search_slice_raises hs (Some a) (Some y) c) as [msg Hr].
    - right. right. exists y. split; [done|lia].
    - rewrite Hr in Hres. discriminate. }
  split; [done|]. split; [done|].
  rewrite search_slice_outcome in Hres by done.
  destruct (slice_from _ _ _) as [result|e] eqn:Hs; [|discriminate].
  cbn in Hres. injection Hres as <-. rewrite length_map. split.
  - by apply slice_from_length in Hs.
  - intros p Hp. apply list_elem_of_fmap_1 in Hp as (s & -> & Hin).
    split; [|reflexivity]. cbn. by apply (slice_from_elem _ _ _ _ Hs).
Qed.

Lemma search_slice_bounded_witness :
  (-3 ≤ -1)%Z
  ∧ (∀ y, @None Z = Some y → (y ≤ 0)%Z)
  ∧ length [ (sample_run "f26efc1d-8263-46c8-a560-7bf73d2786e1" 6,
              Some (mkRunStop "s6" "f26efc1d-8263-46c8-a560-7bf73d2786e1" None));
             (sample_run "c9" 3, None) ]
      ≤ length (find_last (HeaderSourceShim sample_store) (- -3))
  ∧ (∀ p, p ∈ [ (sample_run "f26efc1d-8263-46c8-a560-7bf73d2786e1" 6,
                 Some (mkRunStop "s6" "f26efc1d-8263-46c8-a560-7bf73d2786e1" None));
                (sample_run "c9" 3, None) ] →
          p.1 ∈ find_last (HeaderSourceShim sample_store) (- -3)
          ∧ p.2 = safe_get_stop (HeaderSourceShim sample_store) p.1).
Proof.
  apply (search_slice_bounded (HeaderSourceShim sample_store) (-3) None (Some 2%Z)).
  vm_compute. reflexivity.
Defined.

(** *** Integer keys *)

Lemma nth_last_spec (gen : list RunStart) :
  ∀ (count i : nat) (result : option RunStart),
    nth_last count i gen result =
      match count with
      | O => match result with
             | Some r => OK r
             | None => Raise (UnboundLocalError "result")
             end
      | S c => match gen !! c with
               | Some r => OK r
               | None => Raise (IndexError (ThereAreOnlyRuns (i + length gen)))
               end
      end.
Proof.
  induction gen as [|r gen IH]; intros [|c] i result; try reflexivity.
  - cbn. by rewrite Nat.add_0_r.
  - cbn [nth_last]. rewrite IH. destruct c as [|c]; [reflexivity|].
    cbn [lookup list_lookup length]. by rewrite Nat.add_succ_r.
Qed.

Lemma search_int_past hs (key : Z) :
  (key ≤ -1)%Z →
  search_int hs key =
    match find_last hs (- key) !! (Z.to_nat (- key) - 1) with
    | Some r => ([FindLast (- key); GetStop (start_uid r)],
                 OK [(r, safe_get_stop hs r)])
    | None => ([FindLast (- key)],
               Raise (IndexError (ThereAreOnlyRuns (length (find_last hs (- key))))))
    end.
Proof.
  intros Hkey. unfold search_int.
  destruct (Z.gtb_spec key (-1)); [lia|].
  unfold call_find_last.
  rewrite traced_bind_ok. cbn [calls outcome fst snd].
  rewrite nth_last_spec.
  destruct (Z.to_nat (- key)) as [|c] eqn:Ec; [lia|].
  cbn [Nat.sub]. rewrite Nat.sub_0_r.
  destruct (find_last hs (- key) !! c) as [r|] eqn:Hr; cbn; reflexivity.
Qed.

Lemma filter_head_after {A} (P : A → Prop) `{∀ x, Decision (P x)}
    (before after : list A) (x : A) :
  (∀ y, y ∈ before → ¬ P y) → P x →
  head (filter P (before ++ x :: after)) = Some x.
Proof.
  intros Hb Hx. rewrite filter_app, (filter_none P before Hb).
  cbn. by rewrite decide_True.
Qed.

(** X3.  On a broker over a metadata store, a key above [-1] is a scan id: the
    result is the run with that scan id that was inserted last, found with one
    query and one stop lookup; when no run has the scan id, [ValueError] is
    raised after the one query. *)
Theorem search_int_scan_id (m : MDS) (key : Z) :
  (key > -1)%Z →
  (∀ older r newer,
     run_starts m = older ++ r :: newer →
     scan_id r = key →
     (∀ r', r' ∈ newer → scan_id r' ≠ key) →
     search_int (HeaderSourceShim m) key
       = ([FindScanId key; GetStop (start_uid r)], OK [(r, stop_of m r)]))
  ∧ ((∀ r, r ∈ run_starts m → scan_id r ≠ key) →
     search_int (HeaderSourceShim m) key
       = ([FindScanId key], Raise (ValueError (NoSuchScanId key)))).
Proof.
  intros Hkey. unfold search_int.
  destruct (Z.gtb_spec key (-1)); [|lia]. split.
  - intros older r newer Hruns Hr Hnewer.
    unfold call_find_scan_id. cbn [find_run_starts_scan_id HeaderSourceShim].
    unfold recent_first. rewrite Hruns, reverse_app, reverse_cons, <- (assoc_L (++)).
    cbn [app].
    assert (Hhead : head (filter (fun r0 => scan_id r0 = key)
                            (reverse newer ++ r :: reverse older)) = Some r).
    { apply filter_head_after; [|done].
      intros y Hy Heq. rewrite elem_of_reverse in Hy. by apply (Hnewer y). }
    destruct (filter _ _) as [|r0 rest]; [discriminate|].
    injection Hhead as ->. cbn. unfold stop_of. cbn. reflexivity.
  - intros Hnone. unfold call_find_scan_id.
    cbn [find_run_starts_scan_id HeaderSourceShim].
    rewrite filter_none; [reflexivity|].
    intros r Hr. apply Hnone. by apply elem_of_reverse.
Qed.

Lemma search_int_scan_id_witness :
  search_int (HeaderSourceShim sample_store) 3
    = ([FindScanId 3; GetStop "c9"], OK [(sample_run "c9" 3, None)])
  ∧ search_int (HeaderSourceShim sample_store) 4
    = ([FindScanId 4], Raise (ValueError (NoSuchScanId 4))).
Proof.
  destruct (search_int_scan_id sample_store 3) as [Hfound _]; [lia|].
  destruct (search_int_scan_id sample_store 4) as [_ Hmissing]; [lia|].
  split.
  - apply (Hfound [sample_run "a1b2" 1; sample_run "a1c3" 2; sample_run "b7" 3]
                  (sample_run "c9" 3)
                  [sample_run "d4" 5;
                   sample_run "f26efc1d-8263-46c8-a560-7bf73d2786e1" 6]).
    + reflexivity.
    + reflexivity.
    + intros r' Hr'. elem_cases Hr'; discriminate.
  - apply Hmissing. intros r Hr. cbn in Hr. elem_cases Hr; discriminate.
Defined.

(** X4.  A key [-k] below zero asks the header source for its last [k]
    runs and returns the [k]-th of them with its stop document; when the
    header source has fewer, [IndexError] reports how many there are, and no
    stop document is looked up. *)
Theorem search_int_nth_most_recent hs (key : Z) :
  (key ≤ -1)%Z →
  (∀ r, find_last hs (- key) !! (Z.to_nat (- key) - 1) = Some r →
        search_int hs key
          = ([FindLast (- key); GetStop (start_uid r)], OK [(r, safe_get_stop hs r)]))
  ∧ (length (find_last hs (- key)) < Z.to_nat (- key) →
     search_int hs key
       = ([FindLast (- key)],
          Raise (IndexError (ThereAreOnlyRuns (length (find_last hs (- key))))))).
Proof.
  intros Hkey. rewrite search_int_past by done. split.
  - by intros r ->.
  - intros Hlen. rewrite (proj2 (lookup_ge_None _ _)) by lia. reflexivity.
Qed.

Lemma search_int_nth_most_recent_witness :
  search_int (HeaderSourceShim sample_store) (-2)
    = ([FindLast 2; GetStop "d4"], OK [(sample_run "d4" 5, None)])
  ∧ search_int (HeaderSourceShim sample_store) (-7)
    = ([FindLast 7], Raise (IndexError (ThereAreOnlyRuns 6))).
Proof.
  destruct (search_int_nth_most_recent (HeaderSourceShim sample_store) (-2))
    as [Hfound _]; [lia|].
  destruct (search_int_nth_most_recent (HeaderSourceShim sample_store) (-7))
    as [_ Hshort]; [lia|].
  split.
  - apply (Hfound (sample_run "d4" 5)). reflexivity.
  - apply Hshort. vm_compute. lia.
Defined.

(** X5.  When the header source answers [find_last] consistently (the last
    [k] runs are the first [k] of the last [n]), [db[-k]] is the item at
    position [k-1] of [db[-n:]], and it raises [IndexError] with the length of
    that slice when the slice is shorter. *)
Theorem int_key_agrees_with_slice hs (n k : Z) :
  (1 ≤ k ≤ n)%Z →
  find_last hs k = take (Z.to_nat k) (find_last hs n) →
  ∃ window,
    outcome (search_slice hs (Some (- n)%Z) None None) = OK window
    ∧ outcome (search_int hs (- k)) =
        match window !! (Z.to_nat k - 1) with
        | Some p => OK [p]
        | None => Raise (IndexError (ThereAreOnlyRuns (length window)))
        end.
Proof.
  intros Hk Hprefix. eexists. split.
  - rewrite search_slice_outcome; [|lia|intros y [=]].
    cbn [fmap option_fmap option_map]. rewrite slice_from_all. cbn.
    rewrite Z.opp_involutive. reflexivity.
  - rewrite search_int_past by lia. rewrite !Z.opp_involutive, Hprefix.
    rewrite list_lookup_fmap, length_map, lookup_take_lt by lia.
    destruct (find_last hs n !! (Z.to_nat k - 1)) as [r|] eqn:Hr; cbn; [reflexivity|].
    apply lookup_ge_None in Hr. by rewrite take_ge by lia.
Qed.

Lemma int_key_agrees_with_slice_witness :
  ∃ window,
    outcome (search_slice (HeaderSourceShim sample_store) (Some (- 5)%Z) None None)
      = OK window
    ∧ outcome (search_int (HeaderSourceShim sample_store) (- 2)) =
        match window !! (Z.to_nat 2 - 1) with
        | Some p => OK [p]
        | None => Raise (IndexError (ThereAreOnlyRuns (length window)))
        end.
Proof.
  apply (int_key_agrees_with_slice (HeaderSourceShim sample_store) 5 2); [lia|].
  reflexivity.
Defined.

(** *** Collections of keys and squeezing *)

Lemma traced_bind_assoc {A B C} (m : traced A) (f : A → traced B) (g : B → traced C) :
  (m ≫= f) ≫= g = m ≫= (fun a => f a ≫= g).
Proof.
  destruct m as [log [a|e]]; [|reflexivity].
  unfold mbind, traced_bind. destruct (f a) as [log' [b|e]].
  - destruct (g b) as [log'' r]. by rewrite (assoc_L (++)).
  - reflexivity.
Qed.

Lemma traced_bind_ret {A} (m : traced A) : m ≫= mret = m.
Proof.
  destruct m as [log [a|e]]; [|reflexivity].
  unfold mbind, traced_bind, mret, traced_ret. by rewrite app_nil_r.
Qed.

Lemma traced_ret_bind {A B} (a : A) (f : A → traced B) : mret a ≫= f = f a.
Proof. unfold mbind, traced_bind, mret, traced_ret. by destruct (f a). Qed.

Lemma search_collection hs ks :
  search hs (KSet ks) = search_each hs [] ks
  ∧ search hs (KTuple ks) = search_each hs [] ks
  ∧ search hs (KList ks) = search_each hs [] ks.
Proof.
  repeat split; cbn [search]; generalize (@nil run_pair);
    induction ks as [|k ks IH]; intros acc; try reflexivity;
    cbn [search_each]; destruct (search hs k) as [log [r|e]]; try reflexivity;
    rewrite !traced_bind_ok; by rewrite IH.
Qed.

Lemma search_each_acc hs ks :
  ∀ acc, search_each hs acc ks = (r ← search_each hs [] ks; mret (acc ++ r)).
Proof.
  induction ks as [|k ks IH]; intros acc.
  - cbn [search_each]. rewrite traced_ret_bind, app_nil_r. reflexivity.
  - cbn [search_each]. rewrite traced_bind_assoc.
    destruct (search hs k) as [log [r|e]]; [|reflexivity].
    rewrite !traced_bind_ok. rewrite (IH (acc ++ r)), (IH ([] ++ r)).
    rewrite traced_bind_assoc.
    destruct (search_each hs [] ks) as [log' [r'|e]]; [|reflexivity].
    rewrite !traced_bind_ok, traced_ret_bind. cbn. by rewrite (app_assoc acc).
Qed.

Lemma search_each_app hs ks1 ks2 :
  search_each hs [] (ks1 ++ ks2) =
    (r1 ← search_each hs [] ks1; r2 ← search_each hs [] ks2; mret (r1 ++ r2)).
Proof.
  induction ks1 as [|k ks1 IH].
  - cbn [app search_each]. rewrite traced_ret_bind.
    cbn [app]. by rewrite traced_bind_ret.
  - cbn [app search_each]. rewrite traced_bind_assoc.
    destruct (search hs k) as [log [r|e]]; [|reflexivity].
    rewrite !traced_bind_ok. cbn [app].
    rewrite (search_each_acc hs (ks1 ++ ks2) r), (search_each_acc hs ks1 r), IH.
    rewrite !traced_bind_assoc.
    destruct (search_each hs [] ks1) as [log1 [r1|e]]; [|reflexivity].
    rewrite !traced_bind_ok, traced_ret_bind, traced_bind_assoc.
    destruct (search_each hs [] ks2) as [log2 [r2|e]]; [|reflexivity].
    rewrite !traced_bind_ok, !traced_ret_bind. cbn.
    by rewrite !app_nil_r, <- !app_assoc.
Qed.

(** X6.  A list of keys is searched key by key and the results are joined in
    order: searching [ks1 ++ ks2] is searching [ks1], then [ks2], with the
    first failure ending the search; a list of one key is that key; sets and
    tuples are searched like lists. *)
Theorem search_collection_concatenates hs (ks1 ks2 : list key) :
  search hs (KList (ks1 ++ ks2))
    = (r1 ← search hs (KList ks1); r2 ← search hs (KList ks2); mret (r1 ++ r2))
  ∧ (∀ k, search hs (KList [k]) = search hs k)
  ∧ (∀ ks, search hs (KSet ks) = search hs (KList ks)
           ∧ search hs (KTuple ks) = search hs (KList ks)).
Proof.
  split; [|split].
  - destruct (search_collection hs (ks1 ++ ks2)) as (_ & _ & ->).
    destruct (search_collection hs ks1) as (_ & _ & ->).
    destruct (search_collection hs ks2) as (_ & _ & ->).
    apply search_each_app.
  - intros k. destruct (search_collection hs [k]) as (_ & _ & ->).
    cbn [search_each app]. apply traced_bind_ret.
  - intros ks. destruct (search_collection hs ks) as (-> & -> & ->). done.
Qed.

Lemma singleton_outcome {A} (m : traced A) (f : A → run_pair) (l : list run_pair) :
  outcome (a ← m; mret [f a]) = OK l → ∃ p, l = [p].
Proof.
  destruct m as [log [a|e]]; [|discriminate].
  rewrite traced_bind_ok. cbn. intros [= <-]. eauto.
Qed.

Lemma search_single_key hs k l :
  is_multi_key k = false → outcome (search hs k) = OK l → ∃ p, l = [p].
Proof.
  destruct k as [n|a b c|s|ks|ks|ks|]; try discriminate; intros _.
  - cbn [search]. unfold search_int.
    destruct (if (n >? -1)%Z then _ else _) as [log [r|e]]; [|discriminate].
    rewrite traced_bind_ok. cbn. intros [= <-]. eauto.
  - cbn [search]. unfold search_str.
    destruct (if (String.length s =? 36)%nat then _ else _) as [log [r1|e]];
      [|discriminate].
    rewrite traced_bind_ok. cbn [outcome snd].
    destruct (if not_results r1 then _ else _) as [log2 [r2|e]]; [|discriminate].
    rewrite traced_bind_ok. cbn [outcome snd].
    destruct r2 as [[|r [|r' rest]]|]; try discriminate.
    cbn. intros [= <-]. eauto.
Qed.

(** X7.  [db[key]] for a key that is not a slice, list, set or tuple returns a
    single header, never a list, whenever it returns: the header of the one
    run the search found, which has a stop document.  When the run found has
    no stop document, building the header raises [TypeError]. *)
Theorem getitem_single_key_is_header (db : Broker) (k : key) :
  is_multi_key k = false →
  (∀ r, outcome (__getitem__ db k) = OK r →
        ∃ s st, outcome (search (hs db) k) = OK [(s, Some st)]
                ∧ r = OneHeader (closed_header s st))
  ∧ (∀ s, outcome (search (hs db) k) = OK [(s, None)] →
          outcome (__getitem__ db k)
          = Raise (TypeError "'NoneType' object is not iterable")).
Proof.
  intros Hk. unfold __getitem__.
  destruct (search (hs db) k) as [log [found|e]] eqn:Hs.
  2:{ split; [discriminate|]. intros s [=]. }
  destruct (search_single_key (hs db) k found Hk) as [p ->]; [by rewrite Hs|].
  rewrite traced_bind_ok, Hk. destruct p as [s [st|]]; cbn; split.
  - intros r [= <-]. eauto.
  - intros s' [=].
  - discriminate.
  - reflexivity.
Qed.

Lemma getitem_single_key_is_header_witness :
  (∃ s st, outcome (search (hs sample_broker) (KInt (-1))) = OK [(s, Some st)]
           ∧ OneHeader (closed_header
                          (sample_run "f26efc1d-8263-46c8-a560-7bf73d2786e1" 6)
                          (mkRunStop "s6" "f26efc1d-8263-46c8-a560-7bf73d2786e1" None))
             = OneHeader (closed_header s st))
  ∧ outcome (__getitem__ sample_broker (KInt (-2)))
    = Raise (TypeError "'NoneType' object is not iterable").
Proof.
  split.
  - apply (getitem_single_key_is_header sample_broker (KInt (-1))); reflexivity.
  - apply (proj2 (getitem_single_key_is_header sample_broker (KInt (-2)) eq_refl)
             (sample_run "d4" 5)).
    reflexivity.
Defined.


(** *** Filters *)

Lemma filter_key_exists_spec (filters : list query) (d : query) :
  filter_key_exists filters d = true
  ↔ ∃ val k, val ∈ filters ∧ k ∈ dom val ∧ k ∈ dom d.
Proof.
  unfold filter_key_exists. rewrite existsb_exists. split.
  - intros (val & Hval & Hex). apply existsb_exists in Hex as ([k v] & Hkv & Hk).
    apply bool_decide_eq_true in Hk. cbn in Hk.
    exists val, k. split; [by apply list_elem_of_In|]. split; [|done].
    apply list_elem_of_In, elem_of_map_to_list in Hkv.
    apply elem_of_dom. eauto.
  - intros (val & k & Hval & Hk & Hd). exists val.
    split; [by apply list_elem_of_In|].
    apply elem_of_dom in Hk as [v Hv]. apply existsb_exists. exists (k, v).
    split; [by apply list_elem_of_In, elem_of_map_to_list|].
    by apply bool_decide_eq_true.
Qed.

(** X8.  [add_filter] raises exactly when one of its keys is already a key of a
    filter in the list; otherwise it appends the query at the end of the list
    and changes nothing else. *)
Theorem add_filter_raises_iff (db : Broker) (kwargs : query) :
  (add_filter db kwargs = inl FilterKeyAlreadyExists
   ↔ ∃ val k, val ∈ filters db ∧ k ∈ dom val ∧ k ∈ dom kwargs)
  ∧ ((∀ val k, val ∈ filters db → k ∈ dom val → k ∉ dom kwargs) →
     add_filter db kwargs = inr (with_filters db (filters db ++ [kwargs]))).
Proof.
  unfold add_filter. split.
  - rewrite <- filter_key_exists_spec.
    destruct (filter_key_exists _ _); split; congruence.
  - intros Hfree. destruct (filter_key_exists _ _) eqn:E; [|reflexivity].
    apply filter_key_exists_spec in E as (val & k & ? & ? & ?).
    exfalso. by apply (Hfree val k).
Qed.

Lemma add_filter_raises_iff_witness :
  add_filter filtered_broker {[ "user" := VStr "Tom"; "plan" := VStr "scan" ]}
    = inl FilterKeyAlreadyExists
  ∧ add_filter filtered_broker {[ "plan" := VStr "scan" ]}
    = inr (with_filters filtered_broker
             (filters filtered_broker ++ [ {[ "plan" := VStr "scan" ]} ])).
Proof.
  split.
  - apply (proj1 (add_filter_raises_iff filtered_broker _)).
    exists {[ "user" := VStr "Dan" ]}, "user".
    split; [by left|]. split; by_compute.
  - apply (proj2 (add_filter_raises_iff filtered_broker _)).
    intros val k Hval Hk. cbn in Hval. elem_cases Hval.
    apply elem_of_dom in Hk as [v Hv].
    apply lookup_singleton_Some in Hv as [<- _]. by_compute.
Defined.

(** X9.  The filters that [clear_filters] leaves, and the filters built from a
    list without a repeated key by [add_filter], have no key in two
    filters. *)
Theorem add_filter_keeps_keys_disjoint (db : Broker) :
  filters_disjoint (filters (clear_filters db))
  ∧ (∀ kwargs db',
       filters_disjoint (filters db) →
       add_filter db kwargs = inr db' →
       filters_disjoint (filters db')).
Proof.
  split.
  { intros i j f g _ Hi. cbn in Hi. discriminate. }
  intros kwargs db' Hdis Hadd.
  unfold add_filter in Hadd.
  destruct (filter_key_exists _ _) eqn:E; [discriminate|]. injection Hadd as <-.
  assert (Hfree : ∀ val k, val ∈ filters db → k ∈ dom val → k ∉ dom kwargs).
  { intros val k Hval Hk Hd.
    assert (filter_key_exists (filters db) kwargs = true) as Ht
      by (apply filter_key_exists_spec; eauto).
    congruence. }
  cbn [filters with_filters]. intros i j f g Hij Hi Hj.
  apply lookup_app_Some in Hi as [Hi|[Hil Hi]];
    apply lookup_app_Some in Hj as [Hj|[Hjl Hj]].
  - by apply (Hdis i j).
  - apply list_lookup_singleton_Some in Hj as [_ <-].
    intros k Hk. apply (Hfree f k); [|done]. by eapply list_elem_of_lookup_2.
  - apply list_lookup_singleton_Some in Hi as [_ <-].
    intros k Hk Hg. apply (Hfree g k); [|done..]. by eapply list_elem_of_lookup_2.
  - apply list_lookup_singleton_Some in Hi as [Hi0 _].
    apply list_lookup_singleton_Some in Hj as [Hj0 _]. lia.
Qed.

Lemma add_filter_keeps_keys_disjoint_witness :
  filters_disjoint
    (filters (with_filters filtered_broker
                (filters filtered_broker ++ [ {[ "plan" := VStr "scan" ]} ]))).
Proof.
  apply (proj2 (add_filter_keeps_keys_disjoint filtered_broker)
               {[ "plan" := VStr "scan" ]}).
  - intros [|i] [|j] f g Hij Hi Hj; try done; cbn in Hi, Hj; discriminate.
  - vm_compute. reflexivity.
Defined.


(** *** Aliases and attribute access *)









(** *** Searching with a data key *)

Lemma any_has_data_key_str (k : string) (ds : list Descriptor) :
  any_has_data_key (VStr k) ds
  = OK (existsb (fun d => bool_decide (k ∈ (data_keys d).*1)) ds).
Proof.
  induction ds as [|d ds IH]; [reflexivity|].
  cbn. destruct (bool_decide _); [reflexivity | exact IH].
Qed.

Lemma any_has_data_key_scalar (v : value) (ds : list Descriptor) :
  (∀ k, v ≠ VStr k) → (∀ a, v ≠ VArr a) → any_has_data_key v ds = OK false.
Proof.
  intros Hs Ha. induction ds as [|d ds IH]; [reflexivity|].
  destruct v; cbn; try exact IH; [by destruct (Hs s) | by destruct (Ha a)].
Qed.

(** For a [data_key] that can be hashed the test does not raise. *)
Lemma yields_header_passes db (data_key : option value) (h : Header) :
  (∀ a, data_key ≠ Some (VArr a)) →
  yields_header db data_key h = OK (passes db data_key h).
Proof.
  intros Hh. destruct data_key as [v|]; [|reflexivity]. cbn.
  destruct v; try (apply any_has_data_key_scalar; [discriminate..]).
  - apply any_has_data_key_str.
  - by destruct (Hh a).
Qed.

Lemma yielded_sublist db data_key (l : list run_pair) :
  (yielded db data_key l).1 `sublist_of` closed_headers l.
Proof.
  induction l as [|[s [st|]] l IH]; cbn; [constructor| |apply sublist_nil_l].
  destruct (yields_header db data_key (closed_header s st)) as [[|]|e];
    [| |apply sublist_nil_l].
  all: destruct (yielded db data_key l) as [out e]; cbn [fst] in *; by constructor.
Qed.

(** When every run has a stop document and the [data_key] can be hashed, the
    iteration ends without an exception, having tested every header. *)
Lemma yielded_closed db data_key (l : list run_pair) :
  (∀ a, data_key ≠ Some (VArr a)) →
  Forall (fun p => is_Some p.2) l →
  yielded db data_key l
  = (List.filter (passes db data_key) (closed_headers l), None).
Proof.
  intros Hh. induction 1 as [|[s st] l [st' Hst] _ IH]; [reflexivity|].
  cbn in Hst. subst st. cbn. rewrite yields_header_passes, IH by done. cbn.
  destruct (passes db data_key (closed_header s st')); reflexivity.
Qed.

(** The first run without a stop document ends the iteration. *)
Lemma yielded_open db data_key (before after : list run_pair) (s : RunStart) :
  (∀ a, data_key ≠ Some (VArr a)) →
  Forall (fun p => is_Some p.2) before →
  yielded db data_key (before ++ (s, None) :: after)
  = (List.filter (passes db data_key) (closed_headers before),
     Some (TypeError "'NoneType' object is not iterable")).
Proof.
  intros Hh. induction 1 as [|[s' st] l [st' Hst] _ IH]; [reflexivity|].
  cbn in Hst. subst st. cbn. rewrite yields_header_passes, IH by done. cbn.
  destruct (passes db data_key (closed_header s' st')); reflexivity.
Qed.

Lemma yielded_has_key db (k : string) (l : list run_pair) (h : Header) :
  h ∈ (yielded db (Some (VStr k)) l).1 →
  ∃ d, d ∈ header_descriptors db h ∧ k ∈ (data_keys d).*1.
Proof.
  induction l as [|[s [st|]] l IH]; cbn.
  - intros Hh. by apply elem_of_nil in Hh.
  - rewrite any_has_data_key_str.
    destruct (yielded db (Some (VStr k)) l) as [out e]. cbn [fst] in *.
    destruct (existsb _ _) eqn:Hy; [|exact IH].
    intros Hh. apply elem_of_cons in Hh as [->|Hh]; [|by apply IH].
    apply existsb_exists in Hy as (d & Hd & Hk).
    exists d. split; [by apply list_elem_of_In|].
    by apply bool_decide_eq_true in Hk.
  - intros Hh. by apply elem_of_nil in Hh.
Qed.

(** X12.  [db(text_search, **kwargs)] raises [TypeError] when the query holds
    the keyword [filters].  Otherwise, iterating the result yields headers of
    the runs the search finds (with [data_key] taken out of the query), in
    the order of the search.  For a [data_key] that can be hashed: when every
    run found has a stop document, the headers that pass the [data_key] test,
    all of them when [data_key] is absent or [None]; when a run found has no
    stop document, those of the runs before the first such run, and then
    [TypeError].  Every header yielded under a [data_key] has a descriptor
    with that data key. *)
Theorem call_then_iterate (db : Broker) (text_search : option value) (kwargs : query) :
  let found :=
    run_search (hs_search db) text_search (filters db) (delete "data_key" kwargs) in
  ("filters" ∈ dom kwargs →
   ∃ what, __call__ db text_search kwargs = Raise (TypeError what))
  ∧ ∀ v, __call__ db text_search kwargs = OK v →
      let out := (__iter__ db v).1 in
      out = yielded db (data_key_of kwargs) found
      ∧ out.1 `sublist_of` closed_headers found
      ∧ ((∀ a, data_key_of kwargs ≠ Some (VArr a)) →
         Forall (fun p => is_Some p.2) found →
         out = (List.filter (passes db (data_key_of kwargs))
                            (closed_headers found), None))
      ∧ (Forall (fun p => is_Some p.2) found → data_key_of kwargs = None →
         out = (closed_headers found, None))
      ∧ (∀ before s after,
           (∀ a, data_key_of kwargs ≠ Some (VArr a)) →
           found = before ++ (s, None) :: after →
           Forall (fun p => is_Some p.2) before →
           out = (List.filter (passes db (data_key_of kwargs))
                              (closed_headers before),
                  Some (TypeError "'NoneType' object is not iterable")))
      ∧ (∀ k, kwargs !! "data_key" = Some (VStr k) →
              ∀ h, h ∈ out.1 →
                   ∃ d, d ∈ header_descriptors db h ∧ k ∈ (data_keys d).*1).
Proof.
  intros found. split.
  - intros Hf. unfold __call__.
    assert ("filters" ∈ dom (delete "data_key" kwargs))
      by (rewrite dom_delete_L; set_solver).
    case_bool_decide; [by eexists|]. rewrite bool_decide_eq_true_2 by done.
    by eexists.
  - intros v Hv out.
    assert (Hv' : v = Results_init found (data_key_of kwargs)).
    { unfold __call__ in Hv. repeat case_bool_decide; try discriminate.
      by injection Hv as <-. }
    assert (Hout : out = yielded db (data_key_of kwargs) found).
    { subst out v. by destruct (iter_spec db (Results_init found (data_key_of kwargs)))
        as (-> & _); [cbn; lia|]. }
    split; [exact Hout|]. rewrite Hout. split; [apply yielded_sublist|].
    split; [apply yielded_closed|]. split; [|split].
    + intros Hall Hnone. rewrite yielded_closed; [|by rewrite Hnone|done].
      rewrite Hnone. f_equal.
      induction (closed_headers found) as [|h l IH]; [reflexivity|].
      cbn. by rewrite IH.
    + intros before s after Hh -> Hall. by apply yielded_open.
    + intros k Hk h. unfold data_key_of. rewrite Hk. apply yielded_has_key.
Qed.

Lemma call_then_iterate_witness :
  (∃ d, d ∈ header_descriptors found_broker h1 ∧ "img" ∈ (data_keys d).*1)
  ∧ (__iter__ open_broker (Results_init
                             [(run1, Some stop1); (sample_run "open" 2, None)] None)).1
    = ([h1], Some (TypeError "'NoneType' object is not iterable")).
Proof.
  split.
  - destruct (call_then_iterate found_broker None {[ "data_key" := VStr "img" ]})
      as (_ & Hiter).
    destruct (Hiter (Results_init [(run1, Some stop1)] (Some (VStr "img"))))
      as (_ & _ & _ & _ & _ & Hkey); [vm_compute; reflexivity|].
    apply (Hkey "img"); [vm_compute; reflexivity|].
    vm_compute. left.
  - destruct (call_then_iterate open_broker None ∅) as (_ & Hiter).
    destruct (Hiter (Results_init [(run1, Some stop1); (sample_run "open" 2, None)] None))
      as (_ & _ & _ & _ & Hopen & _); [vm_compute; reflexivity|].
    apply (Hopen [(run1, Some stop1)] (sample_run "open" 2) []);
      [discriminate | reflexivity |].
    repeat constructor. by eexists.
Defined.


(** *** More on filling *)

Lemma fill_events_one db (ev : Event) ds fields inplace :
  fill_events db [ev] ds fields inplace =
    match (c ← _fill_events_coro db ds fields inplace; send c ev) with
    | OK ev' => ([ev'], None)
    | Raise e => ([], Some e)
    end.
Proof.
  unfold fill_events.
  destruct (_fill_events_coro db ds fields inplace) as [c|e]; [|reflexivity].
  cbn. destruct (send c ev); reflexivity.
Qed.

Lemma with_data_filled_same (ev : Event) : with_data_filled ev (data ev) (filled ev) = ev.
Proof. by destruct ev. Qed.

Lemma fill_keys_loop_dom rm desc (v : list string) :
  ∀ (df df' : gmap string value * gmap string value),
    fill_keys_loop rm desc v df = OK df' →
    dom df'.1 = dom df.1 ∧ dom df.2 ⊆ dom df'.2.
Proof.
  induction v as [|dk v IH]; intros [data filled] df' Hloop.
  - cbn in Hloop. injection Hloop as <-. done.
  - cbn in Hloop.
    destruct (data !! dk) as [d_id|] eqn:Hd; [|discriminate].
    destruct (rm !! (desc, dk)) as [r|]; [|discriminate]. cbn in Hloop.
    destruct (retrieve r d_id) as [p|]; [|discriminate]. cbn in Hloop.
    apply IH in Hloop as [Hdata Hfilled]. cbn [fst snd] in *. split.
    + rewrite Hdata, dom_insert_L.
      assert (dk ∈ dom data) by (apply elem_of_dom; eauto). set_solver.
    + rewrite dom_insert in Hfilled. set_solver.
Qed.

Lemma fill_map_loop_dom rm desc (fm : fill_map_t) df df' :
  fill_map_loop rm desc fm df = OK df' →
  dom df'.1 = dom df.1 ∧ dom df.2 ⊆ dom df'.2.
Proof. rewrite fill_map_loop_all_entries. apply fill_keys_loop_dom. Qed.

Lemma send_same_identity c ev ev' : send c ev = OK ev' → same_identity ev ev'.
Proof.
  destruct c as [|rm fm inplace]; cbn.
  - intros [= <-]. by repeat split.
  - set (ev0 := if inplace then ev else _).
    assert (H0 : ev_uid ev0 = ev_uid ev ∧ descriptor ev0 = descriptor ev
                 ∧ seq_num ev0 = seq_num ev ∧ timestamps ev0 = timestamps ev
                 ∧ data ev0 = data ev ∧ filled ev0 = filled ev).
    { subst ev0. by destruct inplace. }
    destruct H0 as (H1 & H2 & H3 & H4 & H5 & H6).
    destruct (fill_map_loop rm (descriptor ev0) fm (data ev0, filled ev0))
      as [[data' filled']|e] eqn:Hloop; [|discriminate].
    cbn. intros [= <-]. apply fill_map_loop_dom in Hloop as [Hd Hf].
    cbn in Hd, Hf. rewrite H5 in Hd. rewrite H6 in Hf.
    by repeat split.
Qed.

Lemma fill_keys_loop_frame rm desc (v : list string) :
  ∀ (df df' : gmap string value * gmap string value),
    fill_keys_loop rm desc v df = OK df' →
    ∀ k, k ∉ v → df'.1 !! k = df.1 !! k ∧ df'.2 !! k = df.2 !! k.
Proof.
  induction v as [|dk v IH]; intros [data filled] df' Hloop k Hk.
  - cbn in Hloop. injection Hloop as <-. done.
  - apply not_elem_of_cons in Hk as [Hne Hk]. cbn in Hloop.
    destruct (data !! dk) as [d_id|]; [|discriminate].
    destruct (rm !! (desc, dk)) as [r|]; [|discriminate]. cbn in Hloop.
    destruct (retrieve r d_id) as [p|]; [|discriminate]. cbn in Hloop.
    destruct (IH _ _ Hloop k Hk) as [-> ->]. cbn.
    by rewrite !lookup_insert_ne.
Qed.

Lemma collect_external_keys db desc (dks : list (string * DataKey)) :
  ∀ (rm rm' : registry_map_t) (fk fk' : list string),
    collect_external db desc dks rm fk = OK (rm', fk') →
    ∀ k, k ∈ fk' → k ∈ fk ∨ ∃ v, (k, v) ∈ dks ∧ is_external v = true.
Proof.
  induction dks as [|[k0 v0] dks IH]; intros rm rm' fk fk' Hc k Hk.
  - cbn in Hc. injection Hc as <- <-. by left.
  - cbn in Hc. destruct (is_external v0) eqn:Hext.
    + destruct (reg db) as [r|]; [|discriminate]. cbn in Hc.
      destruct (IH _ _ _ _ Hc k Hk) as [Hin|(v & Hin & Hv)].
      * case_bool_decide; [by left|].
        apply elem_of_app in Hin as [?|Hin]; [by left|].
        apply list_elem_of_singleton in Hin as ->.
        right. exists v0. split; [left | done].
      * right. exists v. split; [by right | done].
    + destruct (IH _ _ _ _ Hc k Hk) as [Hin|(v & Hin & Hv)]; [by left|].
      right. exists v. split; [by right | done].
Qed.

Lemma dict_set_values (fm : fill_map_t) (key : string) (v : list string) (k : string) :
  k ∈ concat (dict_set fm key v).*2 → k ∈ concat fm.*2 ∨ k ∈ v.
Proof.
  induction fm as [|[k0 w] fm IH]; cbn.
  - rewrite app_nil_r. by right.
  - destruct (String.eqb k0 key); cbn; rewrite !elem_of_app.
    + intros [?|?]; [by right | left; by right].
    + intros [?|Hin]; [left; by left|].
      destruct (IH Hin) as [?|?]; [left; by right | by right].
Qed.

(** Every key the set-up enters in [fill_map] is marked external in one of
    the descriptors. *)
Lemma build_maps_keys db sel (ds : list Descriptor) :
  ∀ (rm rm' : registry_map_t) (fm fm' : fill_map_t),
    build_maps db sel ds rm fm = OK (rm', fm') →
    ∀ k, k ∈ concat fm'.*2 → k ∈ concat fm.*2 ∨ external_in ds k.
Proof.
  induction ds as [|d ds IH]; intros rm rm' fm fm' Hb k Hk.
  - cbn in Hb. injection Hb as <- <-. by left.
  - cbn [build_maps] in Hb.
    destruct (collect_external db (desc_uid d) (data_keys d) rm [])
      as [[rm1 fk]|] eqn:Hc; [|discriminate]. cbn in Hb.
    destruct (restrict_keys fk sel) as [fk1|] eqn:Hr; [|discriminate]. cbn in Hb.
    assert (Hsub : ∀ x, x ∈ fk1 → x ∈ fk).
    { destruct sel; cbn in Hr; try discriminate; injection Hr as <-; [done|].
      intros x Hx. by apply list_elem_of_filter in Hx as [_ Hx]. }
    destruct (IH _ _ _ _ Hb k Hk) as [Hin|(d' & v & Hd' & Hin & Hv)].
    + apply dict_set_values in Hin as [Hin|Hin]; [by left|].
      right. apply Hsub in Hin.
      destruct (collect_external_keys _ _ _ _ _ _ _ Hc k Hin) as [Hnil|(v & Hv & He)].
      * by apply elem_of_nil in Hnil.
      * exists d, v. split; [left | done].
    + right. exists d', v. split; [by right | done].
Qed.

(** Filling touches no key that no descriptor of the set marks external. *)
Lemma send_frame db ds fields inplace c (ev ev' : Event) :
  _fill_events_coro db ds fields inplace = OK c →
  send c ev = OK ev' →
  ∀ k, ¬ external_in ds k →
       data ev' !! k = data ev !! k ∧ filled ev' !! k = filled ev !! k.
Proof.
  intros Hc Hsend k Hk. unfold _fill_events_coro in Hc.
  destruct (normalise_fields fields) as [sel|].
  2:{ injection Hc as <-. cbn in Hsend. by injection Hsend as <-. }
  destruct (build_maps db sel ds ∅ []) as [[rm fm]|] eqn:Hb; [|discriminate].
  cbn in Hc. injection Hc as <-. cbn in Hsend.
  set (ev0 := if inplace then ev else _) in Hsend.
  assert (H0 : data ev0 = data ev ∧ filled ev0 = filled ev).
  { subst ev0. by destruct inplace. }
  destruct H0 as [Hd0 Hf0]. rewrite Hd0, Hf0 in Hsend.
  destruct (fill_map_loop rm (descriptor ev0) fm (data ev, filled ev))
    as [[data' filled']|] eqn:Hloop; [|discriminate].
  cbn in Hsend. injection Hsend as <-. cbn [data filled with_data_filled].
  rewrite fill_map_loop_all_entries in Hloop.
  apply (fill_keys_loop_frame _ _ _ _ _ Hloop k).
  intros Hin. destruct (build_maps_keys _ _ _ _ _ _ _ Hb k Hin) as [Hnil|Hext].
  - by apply elem_of_nil in Hnil.
  - contradiction.
Qed.

(** X13.  [fill_events] yields one event per input event until it ends or
    raises.  Each event yielded has the uid, descriptor, sequence number,
    timestamps and data keys of the input event at the same position, and
    every key of its [filled] is still a key of [filled] (what is stored
    under it may change); and under every key that no descriptor of the set
    marks external, [data] and [filled] hold what they held. *)
Theorem fill_events_keeps_identity (db : Broker) (events : list Event)
    (descriptors : list Descriptor) (fields : fields_arg) (inplace : bool) :
  let out := (fill_events db events descriptors fields inplace).1 in
  let e := (fill_events db events descriptors fields inplace).2 in
  length out ≤ length events
  ∧ (e = None → length out = length events)
  ∧ Forall2 (fun ev ev' =>
               same_identity ev ev'
               ∧ ∀ k, ¬ external_in descriptors k →
                      data ev' !! k = data ev !! k
                      ∧ filled ev' !! k = filled ev !! k)
            (take (length out) events) out.
Proof.
  unfold fill_events.
  destruct (_fill_events_coro db descriptors fields inplace) as [c|err] eqn:Hc.
  2:{ cbn. repeat split; [lia | discriminate | constructor]. }
  induction events as [|ev events IH]; cbn.
  - repeat split; constructor.
  - destruct (send c ev) as [ev'|err] eqn:Hsend.
    + destruct (send_each c events) as [out e]. cbn in *.
      destruct IH as (Hle & Hnone & Hall). repeat split.
      * lia.
      * intros He. by rewrite Hnone.
      * constructor; [|done]. split; [by eapply send_same_identity|].
        by eapply send_frame.
    + cbn. repeat split; [lia | discriminate | constructor].
Qed.

Lemma coro_inplace_irrelevant db ds fields :
  _fill_events_coro db ds fields false =
    match _fill_events_coro db ds fields true with
    | OK (Filling rm fm _) => OK (Filling rm fm false)
    | other => other
    end.
Proof.
  unfold _fill_events_coro. destruct (normalise_fields fields); [|reflexivity].
  destruct (build_maps db s ds ∅ []) as [[rm fm]|e]; reflexivity.
Qed.

Lemma send_copy rm fm (ev : Event) :
  send (Filling rm fm false) ev =
    match send (Filling rm fm true) ev with
    | OK ev' => OK (with_doct_name (DOCT_NAMES "event") ev')
    | Raise e => Raise e
    end.
Proof.
  cbn. destruct (fill_map_loop rm (descriptor ev) fm (data ev, filled ev))
    as [[data' filled']|e]; reflexivity.
Qed.

(** On event values: unless [fields] is [False], the copying fill yields the
    events the in-place fill yields, passed through the hook. *)
Lemma fill_events_copy_values (db : Broker) (events : list Event)
    (descriptors : list Descriptor) (fields : fields_arg) :
  fields ≠ FieldsFalse →
  fill_events db events descriptors fields false =
    (with_doct_name (Some "Event") <$>
       (fill_events db events descriptors fields true).1,
     (fill_events db events descriptors fields true).2).
Proof.
  intros Hf. unfold fill_events. rewrite coro_inplace_irrelevant.
  destruct (_fill_events_coro db descriptors fields true) as [[|rm fm i]|e] eqn:Hc;
    [| |reflexivity].
  - unfold _fill_events_coro in Hc. destruct fields; cbn in Hc; try done;
      try (destruct (build_maps _ _ _ _ _) as [[??]|?]; discriminate).
    destruct l; cbn in Hc;
      destruct (build_maps _ _ _ _ _) as [[??]|?]; discriminate.
  - assert (i = true) as ->.
    { unfold _fill_events_coro in Hc. destruct (normalise_fields fields); [|done].
      destruct (build_maps _ _ _ _ _) as [[??]|?]; cbn in Hc; congruence. }
    induction events as [|ev events IH]; [reflexivity|].
    cbn [send_each]. rewrite send_copy.
    destruct (send (Filling rm fm true) ev) as [ev'|e]; [|reflexivity].
    rewrite IH. destruct (send_each (Filling rm fm true) events). reflexivity.
Qed.

Lemma fill_keys_written_spec rm desc (v : list string) :
  ∀ df, fill_keys_loop rm desc v df =
        match fill_keys_written rm desc v df with
        | (df', None) => OK df'
        | (_, Some e) => Raise e
        end.
Proof.
  induction v as [|dk v IH]; intros df; [reflexivity|].
  cbn. destruct (fill_one rm desc dk df) as [df'|e]; cbn; [apply IH | reflexivity].
Qed.

Lemma fill_map_written_spec rm desc (fm : fill_map_t) :
  ∀ df, fill_map_loop rm desc fm df =
        match fill_map_written rm desc fm df with
        | (df', None) => OK df'
        | (_, Some e) => Raise e
        end.
Proof.
  induction fm as [|[k v] fm IH]; intros df; [reflexivity|].
  cbn. rewrite fill_keys_written_spec.
  destruct (fill_keys_written rm desc v df) as [df' [e|]]; cbn; [reflexivity | apply IH].
Qed.

(** What the coroutine yields for an object is what it yields for the value
    the object has when it is sent. *)
Lemma send_object_yield c (o : nat) (σ : objects) :
  (send_object c o σ).1 = send c (σ o).
Proof.
  destruct c as [|rm fm [|]]; [reflexivity| |reflexivity].
  cbn. rewrite fill_map_written_spec.
  destruct (fill_map_written rm (descriptor (σ o)) fm (data (σ o), filled (σ o)))
    as [[data' filled'] [e|]]; reflexivity.
Qed.

(** Only the object sent can change. *)
Lemma send_object_other c (o o' : nat) (σ : objects) :
  o' ≠ o → (send_object c o σ).2 o' = σ o'.
Proof.
  intros Hne. destruct c as [|rm fm [|]]; [reflexivity| |reflexivity].
  cbn. destruct (fill_map_written rm (descriptor (σ o)) fm (data (σ o), filled (σ o)))
    as [[data' filled'] e]. cbn. by rewrite fn_lookup_insert_ne.
Qed.

(** The copying coroutine changes no object. *)
Lemma send_object_copy rm fm (o : nat) (σ : objects) :
  send_object (Filling rm fm false) o σ = (send (Filling rm fm false) (σ o), σ).
Proof. reflexivity. Qed.

Lemma send_each_objects_copy rm fm (events : list nat) (σ : objects) :
  send_each_objects (Filling rm fm false) events σ
  = (send_each (Filling rm fm false) (σ <$> events), σ).
Proof.
  induction events as [|o events IH]; [reflexivity|].
  cbn [send_each_objects]. rewrite send_object_copy, IH. rewrite fmap_cons.
  cbn [send_each]. destruct (send (Filling rm fm false) (σ o)) as [ev'|e]; [|reflexivity].
  destruct (send_each (Filling rm fm false) (σ <$> events)). reflexivity.
Qed.

Lemma send_each_objects_pass_through (events : list nat) (σ : objects) :
  send_each_objects PassThrough events σ = ((σ <$> events, None), σ).
Proof.
  induction events as [|o events IH]; [reflexivity|].
  cbn. rewrite IH. reflexivity.
Qed.

Lemma send_each_objects_distinct c (events : list nat) :
  NoDup events →
  ∀ σ : objects, (send_each_objects c events σ).1 = send_each c (σ <$> events).
Proof.
  induction 1 as [|o events Hfresh Hnd IH]; intros σ; [reflexivity|].
  cbn [send_each_objects]. rewrite fmap_cons. cbn [send_each].
  pose proof (send_object_yield c o σ) as Hy.
  pose proof (fun o' => send_object_other c o o' σ) as Ho.
  destruct (send_object c o σ) as [[ev'|e] σ']; cbn [fst snd] in *;
    rewrite <- Hy; [|reflexivity].
  specialize (IH σ').
  assert (Hsame : σ' <$> events = σ <$> events).
  { apply list_fmap_ext. intros i o' Hi. apply Ho.
    intros ->. apply Hfresh. by apply list_elem_of_lookup_2 in Hi. }
  rewrite Hsame in IH.
  destruct (send_each_objects c events σ') as [[out e] σ'']. cbn [fst] in *.
  rewrite <- IH. reflexivity.
Qed.

(** X14.  On event objects: the copying fill ([inplace=False]) leaves every
    object of the caller as it is and yields what filling the values yields,
    also when an object occurs twice.  The in-place fill of distinct objects
    yields what filling their values yields, so that, unless [fields] is
    [False], the copying fill yields the events the in-place fill yields,
    passed through [prepare_hook('event', _)], and ends the same way.  For
    an object that occurs twice this fails: the in-place fill fills the
    object the first time and meets the filled object the second time; on
    the sample event it yields one event and raises, where the copying fill
    yields two. *)
Theorem fill_events_on_objects (db : Broker) (descriptors : list Descriptor)
    (fields : fields_arg) (σ : objects) :
  (∀ events,
     fill_events_objects db events descriptors fields false σ
     = (fill_events db (σ <$> events) descriptors fields false, σ))
  ∧ (∀ events, NoDup events →
       (fill_events_objects db events descriptors fields true σ).1
       = fill_events db (σ <$> events) descriptors fields true)
  ∧ (∀ events, NoDup events → fields ≠ FieldsFalse →
       (fill_events_objects db events descriptors fields false σ).1
       = (with_doct_name (Some "Event") <$>
            (fill_events_objects db events descriptors fields true σ).1.1,
          (fill_events_objects db events descriptors fields true σ).1.2))
  ∧ (fill_events_objects run_broker [0; 0] [d_primary] FieldsTrue true (fun _ => e1)).1
    = ([with_data_filled e1 (<["img" := VArr [1; 2; 3]%Z]> (data e1))
                            (<["img" := VStr "id1"]> (filled e1))],
       Some (KeyError "datum"))
  ∧ length (fill_events_objects run_broker [0; 0] [d_primary] FieldsTrue false
                                (fun _ => e1)).1.1 = 2.
Proof.
  assert (Hcopy : ∀ events,
    fill_events_objects db events descriptors fields false σ
    = (fill_events db (σ <$> events) descriptors fields false, σ)).
  { intros events. unfold fill_events_objects, fill_events.
    destruct (_fill_events_coro db descriptors fields false) as [[|rm fm i]|e] eqn:Hc;
      [by rewrite send_each_objects_pass_through, send_each_pass_through
      | |reflexivity].
    assert (i = false) as ->.
    { unfold _fill_events_coro in Hc. destruct (normalise_fields fields); [|done].
      destruct (build_maps _ _ _ _ _) as [[??]|?]; cbn in Hc; congruence. }
    apply send_each_objects_copy. }
  assert (Hin : ∀ events, NoDup events →
    (fill_events_objects db events descriptors fields true σ).1
    = fill_events db (σ <$> events) descriptors fields true).
  { intros events Hnd. unfold fill_events_objects, fill_events.
    destruct (_fill_events_coro db descriptors fields true) as [c|e]; [|reflexivity].
    by apply send_each_objects_distinct. }
  split; [exact Hcopy|]. split; [exact Hin|]. split; [|split].
  - intros events Hnd Hf. rewrite Hcopy, (Hin events Hnd). cbn [fst].
    by apply fill_events_copy_values.
  - vm_compute. reflexivity.
  - vm_compute. reflexivity.
Qed.

Lemma fill_events_on_objects_witness :
  (fill_events_objects run_broker [0; 1] [d_primary] FieldsTrue false
                       (fun o => if Nat.eqb o 0 then e1 else e3)).1
  = (with_doct_name (Some "Event") <$>
       (fill_events_objects run_broker [0; 1] [d_primary] FieldsTrue true
                            (fun o => if Nat.eqb o 0 then e1 else e3)).1.1,
     (fill_events_objects run_broker [0; 1] [d_primary] FieldsTrue true
                          (fun o => if Nat.eqb o 0 then e1 else e3)).1.2).
Proof.
  apply (fill_events_on_objects run_broker [d_primary] FieldsTrue
           (fun o => if Nat.eqb o 0 then e1 else e3)).
  - by_compute.
  - discriminate.
Defined.

(** The set-up succeeds whenever the broker has its registry. *)
Lemma build_maps_ok db r sel (ds : list Descriptor) :
  reg db = OK r → sel ≠ SelectEmptySeq →
  ∀ (rm : registry_map_t) (fm : fill_map_t),
    ∃ rm' fm', build_maps db sel ds rm fm = OK (rm', fm')
               ∧ (sel = SelectSet [] →
                  Forall (fun e => e.2 = []) fm → Forall (fun e => e.2 = []) fm').
Proof.
  intros Hreg Hsel. induction ds as [|d ds IH]; intros rm fm.
  - exists rm, fm. done.
  - cbn [build_maps].
    assert (Hc : ∃ rm1 fk, collect_external db (desc_uid d) (data_keys d) rm []
                           = OK (rm1, fk)).
    { clear IH. generalize (@nil string). revert rm.
      induction (data_keys d) as [|[k v] dks IHd]; intros rm fk; [by eexists _, _|].
      cbn. destruct (is_external v); [|apply IHd]. rewrite Hreg. cbn. apply IHd. }
    destruct Hc as (rm1 & fk & ->). cbn.
    destruct sel as [|s|]; [| |done]; cbn.
    + destruct (IH rm1 (dict_set fm (desc_uid d) fk)) as (rm' & fm' & -> & _).
      exists rm', fm'. split; [done|discriminate].
    + destruct (IH rm1 (dict_set fm (desc_uid d) (filter (fun k => k ∈ s) fk)))
        as (rm' & fm' & -> & Hempty).
      exists rm', fm'. split; [done|]. intros [= ->] Hfm. apply Hempty; [done|].
      rewrite (filter_none (fun k => k ∈ []) fk)
        by (intros x _ Hx; by apply elem_of_nil in Hx).
      clear -Hfm. induction fm as [|[k w] fm IHf]; cbn.
      * by repeat constructor.
      * apply Forall_cons in Hfm as [Hw Hfm].
        destruct (String.eqb k (desc_uid d)); constructor; auto.
Qed.

Lemma fill_map_loop_nothing rm desc (fm : fill_map_t) df :
  Forall (fun e => e.2 = []) fm → fill_map_loop rm desc fm df = OK df.
Proof.
  induction 1 as [|[k v] fm Hv _ IH]; [reflexivity|].
  cbn in Hv. subst v. cbn. exact IH.
Qed.

Lemma send_each_unchanged rm fm events :
  Forall (fun e => e.2 = []) fm →
  send_each (Filling rm fm true) events = (events, None).
Proof.
  intros Hfm. induction events as [|ev events IH]; [reflexivity|].
  cbn [send_each send]. rewrite fill_map_loop_nothing by done.
  cbn. rewrite with_data_filled_same, IH. reflexivity.
Qed.

(** X15.  With a registry at hand and at least one descriptor, an empty set of
    fields fills nothing and yields the events as they are, and an empty list
    of fields raises [TypeError] (the set intersection with a list) before
    any event is yielded. *)
Theorem fill_empty_selection (db : Broker) (r : Registry) (events : list Event)
    (d : Descriptor) (ds : list Descriptor) :
  reg db = OK r →
  fill_events db events (d :: ds) (FieldsSet []) true = (events, None)
  ∧ ∃ what, fill_events db events (d :: ds) (FieldsSeq []) true
            = ([], Some (TypeError what)).
Proof.
  intros Hreg. split.
  - unfold fill_events, _fill_events_coro. cbn [normalise_fields].
    destruct (build_maps_ok db r (SelectSet []) (d :: ds) Hreg ltac:(done) ∅ [])
      as (rm & fm & -> & Hempty).
    cbn. apply send_each_unchanged. apply Hempty; [done | constructor].
  - unfold fill_events, _fill_events_coro. cbn [normalise_fields build_maps].
    assert (Hc : ∃ rm1 fk, collect_external db (desc_uid d) (data_keys d) ∅ []
                           = OK (rm1, fk)).
    { generalize (@nil string). generalize (∅ : registry_map_t).
      induction (data_keys d) as [|[k v] dks IHd]; intros rm fk; [by eexists _, _|].
      cbn. destruct (is_external v); [|apply IHd]. rewrite Hreg. cbn. apply IHd. }
    destruct Hc as (rm1 & fk & ->). cbn. eauto.
Qed.

Lemma fill_empty_selection_witness :
  fill_events run_broker [e1; e2] [d_primary; d_baseline] (FieldsSet []) true
    = ([e1; e2], None)
  ∧ ∃ what, fill_events run_broker [e1; e2] [d_primary; d_baseline] (FieldsSeq []) true
            = ([], Some (TypeError what)).
Proof. apply (fill_empty_selection run_broker sample_registry). reflexivity. Defined.

(** When no descriptor of the set marks a field external, nothing is filled
    and the registry is not even looked up. *)
Lemma build_maps_no_external db sel (ds : list Descriptor) :
  sel ≠ SelectEmptySeq →
  Forall (fun d => Forall (fun kv => is_external kv.2 = false) (data_keys d)) ds →
  ∀ (rm : registry_map_t) (fm : fill_map_t),
    Forall (fun e => e.2 = []) fm →
    ∃ fm', build_maps db sel ds rm fm = OK (rm, fm')
           ∧ Forall (fun e => e.2 = []) fm'.
Proof.
  intros Hsel. induction 1 as [|d ds Hd _ IH]; intros rm fm Hfm.
  - exists fm. done.
  - cbn [build_maps].
    assert (Hc : collect_external db (desc_uid d) (data_keys d) rm [] = OK (rm, [])).
    { clear -Hd. induction Hd as [|[k v] dks Hv _ IHd]; [reflexivity|].
      cbn in Hv |- *. rewrite Hv. exact IHd. }
    rewrite Hc. cbn.
    assert (Hr : restrict_keys [] sel = OK []) by (by destruct sel).
    rewrite Hr. cbn. apply IH.
    clear -Hfm. induction fm as [|[k w] fm IHf]; cbn.
    + by repeat constructor.
    + apply Forall_cons in Hfm as [Hw Hfm].
      destruct (String.eqb k (desc_uid d)); constructor; auto.
Qed.

(** X16.  When no data key of any descriptor is external, the events come back
    as they are and no registry is looked up, whatever the fields are (an
    empty list apart). *)
Theorem fill_without_external_fields (db : Broker) (events : list Event)
    (descriptors : list Descriptor) (fields : fields_arg) :
  fields ≠ FieldsSeq [] →
  Forall (fun d => Forall (fun kv => is_external kv.2 = false) (data_keys d))
         descriptors →
  fill_events db events descriptors fields true = (events, None).
Proof.
  intros Hf Hds. unfold fill_events, _fill_events_coro.
  destruct (normalise_fields fields) as [sel|] eqn:Hsel.
  - assert (Hne : sel ≠ SelectEmptySeq).
    { intros ->. destruct fields as [| | |s|[|x l]]; cbn in Hsel; congruence. }
    destruct (build_maps_no_external db sel descriptors Hne Hds ∅ [])
      as (fm & -> & Hfm); [constructor|].
    cbn. by apply send_each_unchanged.
  - cbn. apply send_each_pass_through.
Qed.

Lemma fill_without_external_fields_witness :
  fill_events (with_assets run_broker ∅) [e1] [d_scalars] FieldsTrue true
    = ([e1], None).
Proof.
  apply fill_without_external_fields; [discriminate|].
  repeat constructor.
Defined.

(** *** [fill_event] *)

Lemma reg_scoped db (a : Registry) :
  reg (with_assets db (<["" := a]> (assets db))) = OK a.
Proof. unfold reg. cbn [assets with_assets]. by rewrite lookup_insert_eq. Qed.

(** X17.  [fill_event]: when no event source knows the event's descriptor, filling
    in place returns the event as it is; when the one event source knows it and every
    external key of the descriptor can be retrieved, each of these keys holds
    the retrieved payload and is recorded in [filled] with its datum id, and
    all other keys are untouched. *)
Theorem fill_event_spec (db : Broker)
    (descriptor_given_uid : EventSource -> string -> option Descriptor)
    (r : Registry) (event : Event) (inplace : bool)
    (handler_registry : option (gmap string string)) :
  reg db = OK r →
  ((∀ es, es ∈ event_sources db → descriptor_given_uid es (descriptor event) = None) →
   fill_event db descriptor_given_uid event true handler_registry = OK event)
  ∧ (∀ es d,
       event_sources db = [es] →
       descriptor_given_uid es (descriptor event) = Some d →
       desc_uid d = descriptor event →
       (∀ k, is_fill_key SelectAll d k →
             ∃ d_id p, data event !! k = Some d_id
                       ∧ retrieve (handler_context r handler_registry) d_id = OK p) →
       ∃ ev',
         fill_event db descriptor_given_uid event inplace handler_registry = OK ev'
         ∧ (∀ k, is_fill_key SelectAll d k →
                 ∃ d_id, data event !! k = Some d_id
                         ∧ OK <$> data ev' !! k
                           = Some (retrieve (handler_context r handler_registry) d_id)
                         ∧ filled ev' !! k = Some d_id)
         ∧ (∀ k, ¬ is_fill_key SelectAll d k →
                 data ev' !! k = data event !! k
                 ∧ filled ev' !! k = filled event !! k)).
Proof.
  intros Hreg. split.
  - intros Hnone. unfold fill_event. rewrite Hreg. cbn.
    assert (Hd : omap (fun es => descriptor_given_uid es (descriptor event))
                      (event_sources db) = []).
    { induction (event_sources db) as [|es l IH]; [reflexivity|].
      cbn. rewrite Hnone by left. apply IH. intros es' Hes'. apply Hnone. by right. }
    rewrite Hd. cbn. by rewrite with_data_filled_same.
  - intros es d Hes Hd Huid Hres. unfold fill_event. rewrite Hreg, Hes.
    cbn [omap list_omap]. rewrite Hd. cbn [mbind result_bind].
    set (scoped := with_assets db _).
    destruct (fill_events_single_descriptor scoped d
                (handler_context r handler_registry) FieldsTrue SelectAll inplace event)
      as (ev' & Hfill & Hin & Hout); try done.
    { apply reg_scoped. }
    exists ev'. split; [|done].
    rewrite fill_events_one in Hfill.
    destruct (_fill_events_coro scoped [d] FieldsTrue inplace ≫= _) as [x|e] eqn:E;
      [|discriminate].
    injection Hfill as ->. reflexivity.
Qed.

Lemma fill_event_spec_witness :
  ∃ ev',
    fill_event run_broker (fun _ uid => if String.eqb uid "d-primary" then Some d_primary else None)
               e1 true None = OK ev'
    ∧ data ev' !! "img" = Some (VArr [1; 2; 3]%Z)
    ∧ filled ev' !! "img" = Some (VStr "id1")
    ∧ data ev' !! "det" = Some (VInt 5).
Proof.
  destruct (fill_event_spec run_broker
              (fun _ uid => if String.eqb uid "d-primary" then Some d_primary else None)
              sample_registry e1 true None eq_refl) as [_ Hone].
  destruct (Hone (EventSourceShim run_store) d_primary) as (ev' & Hev & Hin & Hout);
    try reflexivity.
  - intros k [(v & Hkv & Hext) _]. cbn in Hkv. elem_cases Hkv;
      injection Hkv as -> ->; try discriminate.
    exists (VStr "id1"), (VArr [1; 2; 3]%Z). split; reflexivity.
  - exists ev'. split; [exact Hev|].
    destruct (Hin "img") as (d_id & Hd & Hdata & Hfilled).
    { split; [|done]. exists (mkDataKey "array" (Some "FILESTORE:")).
      split; [|reflexivity]. apply elem_of_cons. right. apply elem_of_cons. by left. }
    assert (d_id = VStr "id1") as -> by (vm_compute in Hd; congruence).
    destruct (Hout "det") as [Hdet _].
    { intros [(v & Hkv & Hext) _]. cbn in Hkv. elem_cases Hkv;
        injection Hkv as ?; subst; discriminate. }
    split; [|split; [exact Hfilled|]].
    + destruct (data ev' !! "img"); cbn in Hdata; [|discriminate].
      injection Hdata as Hdata. vm_compute in Hdata. congruence.
    + rewrite Hdet. reflexivity.
Defined.


(** *** [fill_table] *)

Lemma retrieve_column_spec r (column out : list value) :
  retrieve_column r column = OK out →
  Forall2 (fun v p => retrieve r v = OK p) column out.
Proof.
  revert out. induction column as [|v column IH]; intros out; cbn.
  - intros [= <-]. constructor.
  - destruct (retrieve r v) as [p|] eqn:Hp; [|discriminate]. cbn.
    destruct (retrieve_column r column) as [ps|]; [|discriminate]. cbn.
    intros [= <-]. constructor; [done | by apply IH].
Qed.

Lemma collect_external_columns_ok db r (dks : list (string * DataKey)) :
  reg db = OK r →
  ∀ (rm : gmap string Registry) (fk : list string),
    NoDup fk →
    (∀ k, k ∈ fk → rm !! k = Some r) →
    ∃ rm' fk',
      collect_external_columns db dks rm fk = OK (rm', fk')
      ∧ NoDup fk'
      ∧ (∀ k, k ∈ fk' → rm' !! k = Some r)
      ∧ (∀ k, k ∈ fk' ↔ k ∈ fk ∨ ∃ v, (k, v) ∈ dks ∧ is_external v = true).
Proof.
  intros Hreg. induction dks as [|[k v] dks IH]; intros rm fk Hnd Hrm.
  - exists rm, fk. split; [done|]. split; [done|]. split; [done|].
    intros k. split; [by left|].
    intros [?|(v & Hin & _)]; [done|]. by apply elem_of_nil in Hin.
  - cbn. destruct (is_external v) eqn:Hext.
    + rewrite Hreg. cbn.
      edestruct (IH (<[k := r]> rm)
                    (if bool_decide (k ∈@{list string} fk) then fk else fk ++ [k]))
        as (rm' & fk' & Hc & Hnd' & Hrm' & Hiff).
      * case_bool_decide; [done|]. apply NoDup_app. split; [done|]. split.
        -- intros x Hx Hx'. apply list_elem_of_singleton in Hx'. by subst.
        -- apply NoDup_singleton.
      * intros k' Hk'. destruct (decide (k' = k)) as [->|Hne].
        -- apply lookup_insert_eq.
        -- rewrite lookup_insert_ne by congruence. apply Hrm.
           case_bool_decide; [done|].
           apply elem_of_app in Hk' as [?|Hk']; [done|].
           apply list_elem_of_singleton in Hk'. contradiction.
      * exists rm', fk'. split; [done|]. split; [done|]. split; [done|].
        intros k'. rewrite Hiff. split.
        -- intros [Hk'|(v' & Hin & Hv')].
           ++ case_bool_decide; [by left|].
              apply elem_of_app in Hk' as [?|Hk']; [by left|].
              apply list_elem_of_singleton in Hk' as ->.
              right. exists v. split; [left | done].
           ++ right. exists v'. split; [by right | done].
        -- intros [Hk'|(v' & Hin & Hv')].
           ++ left. case_bool_decide; [done|]. apply elem_of_app. by left.
           ++ apply elem_of_cons in Hin as [[= -> ->]|Hin].
              ** left. case_bool_decide; [done|]. apply elem_of_app. right. left.
              ** right. eauto.
    + edestruct (IH rm fk) as (rm' & fk' & Hc & Hnd' & Hrm' & Hiff); [done..|].
      exists rm', fk'. split; [done|]. split; [done|]. split; [done|].
      intros k'. rewrite Hiff. split.
      * intros [?|(v' & Hin & Hv')]; [by left|].
        right. exists v'. split; [by right | done].
      * intros [Hk'|(v' & Hin & Hv')]; [by left|].
        apply elem_of_cons in Hin as [[= -> ->]|Hin]; [congruence|].
        right. eauto.
Qed.

Lemma fill_columns_spec r (rm : gmap string Registry) (keys : list string) :
  NoDup keys →
  (∀ k, k ∈ keys → rm !! k = Some r) →
  ∀ t : table,
    (∀ k, k ∈ keys → ∃ column out,
        t !! k = Some column ∧ retrieve_column r column = OK out) →
    ∃ t' : table,
      fill_columns rm keys t = OK t'
      ∧ (∀ k, k ∈ keys → ∃ column,
            t !! k = Some column
            ∧ OK <$> t' !! k = Some (retrieve_column r column))
      ∧ (∀ k, k ∉ keys → t' !! k = t !! k).
Proof.
  induction 1 as [|k keys Hfresh Hnd IH]; intros Hrm t Hres.
  - exists t. split; [reflexivity|]. split; [|done].
    intros k Hk. by apply elem_of_nil in Hk.
  - destruct (Hres k) as (column & out & Hcol & Hout); [left|].
    cbn. rewrite (Hrm k) by left. rewrite Hcol, Hout. cbn.
    destruct (IH (fun k' Hk' => Hrm k' (list_elem_of_further _ _ _ Hk'))
                 (<[k := out]> t)) as (t' & Hloop & Hin & Hother).
    { intros k' Hk'. destruct (Hres k') as (c' & o' & ? & ?); [by right|].
      exists c', o'. rewrite lookup_insert_ne by (intros ->; contradiction). done. }
    exists t'. split; [exact Hloop|]. split.
    + intros k' Hk'. apply elem_of_cons in Hk' as [->|Hk'].
      * exists column. rewrite (Hother k Hfresh), lookup_insert_eq, Hout. done.
      * destruct (Hin k' Hk') as (c' & Hc' & Ht').
        rewrite lookup_insert_ne in Hc' by (intros ->; contradiction).
        exists c'. done.
    + intros k' Hk'. apply not_elem_of_cons in Hk' as [Hne Hk'].
      rewrite (Hother k' Hk'), lookup_insert_ne by done. done.
Qed.

(** X18.  [fill_table]: when every selected external column of the descriptor is
    in the table and can be retrieved, the result has these columns replaced
    by the retrieved payloads, item by item, and every other column as it
    was. *)
Theorem fill_table_spec (db : Broker) (r : Registry) (t : table) (d : Descriptor)
    (fields : fields_arg) (sel : selector) (inplace : bool) :
  reg db = OK r →
  normalise_fields fields = Some sel →
  sel ≠ SelectEmptySeq →
  (∀ k, is_fill_key sel d k →
        ∃ column out, t !! k = Some column ∧ retrieve_column r column = OK out) →
  ∃ t' : table,
    fill_table db t d fields inplace = OK t'
    ∧ (∀ k, is_fill_key sel d k →
            ∃ column out,
              t !! k = Some column ∧ t' !! k = Some out
              ∧ Forall2 (fun v p => retrieve r v = OK p) column out)
    ∧ (∀ k, ¬ is_fill_key sel d k → t' !! k = t !! k).
Proof.
  intros Hreg Hsel Hne Hres. unfold fill_table. rewrite Hsel.
  destruct (collect_external_columns_ok db r (data_keys d) Hreg ∅ [])
    as (rm & fk & -> & Hnd & Hrm & Hiff).
  { apply NoDup_nil_2. }
  { intros k Hk. by apply elem_of_nil in Hk. }
  cbn.
  assert (Hkeys : ∃ keys, restrict_keys fk sel = OK keys ∧ NoDup keys
                          ∧ (∀ k, k ∈ keys → rm !! k = Some r)
                          ∧ (∀ k, k ∈ keys ↔ is_fill_key sel d k)).
  { destruct sel as [|s|]; [| |done]; cbn.
    - exists fk. split; [done|]. split; [done|]. split; [done|].
      intros k. rewrite Hiff. unfold is_fill_key. split.
      + intros [Hk|?]; [by apply elem_of_nil in Hk | done].
      + intros [Hk _]. by right.
    - exists (filter (fun k => k ∈ s) fk).
      split; [done|]. split; [by apply NoDup_filter|]. split.
      + intros k Hk. apply list_elem_of_filter in Hk as [_ Hk]. by apply Hrm.
      + intros k. rewrite list_elem_of_filter, Hiff. unfold is_fill_key. split.
        * intros [Hs [Hk|?]]; [by apply elem_of_nil in Hk | done].
        * intros [Hk Hs]. split; [done | by right]. }
  destruct Hkeys as (keys & -> & Hndk & Hrmk & Hk). cbn.
  destruct (fill_columns_spec r rm keys Hndk Hrmk t) as (t' & -> & Hin & Hout).
  { intros k Hkk. apply Hres. by apply Hk. }
  exists t'. split; [reflexivity|]. split.
  - intros k Hkk. destruct (Hin k) as (column & Hc & Ht'); [by apply Hk|].
    destruct (t' !! k) as [out|]; [|discriminate]. cbn in Ht'.
    injection Ht' as Ht'. exists column, out. split; [done|]. split; [done|].
    by apply retrieve_column_spec.
  - intros k Hkk. apply Hout. by rewrite Hk.
Qed.

Lemma fill_table_spec_witness :
  ∃ t' : table,
    fill_table run_broker {[ "det" := [VInt 5; VInt 6]; "img" := [VStr "id1"; VStr "id2"] ]}
               d_primary FieldsTrue true = OK t'
    ∧ t' !! "det" = Some [VInt 5; VInt 6].
Proof.
  destruct (fill_table_spec run_broker sample_registry
              {[ "det" := [VInt 5; VInt 6]; "img" := [VStr "id1"; VStr "id2"] ]}
              d_primary FieldsTrue SelectAll true eq_refl eq_refl)
    as (t' & Ht & _ & Hout); [discriminate| |].
  - intros k [(v & Hkv & Hext) _]. cbn in Hkv. elem_cases Hkv;
      injection Hkv as -> ->; try discriminate.
    exists [VStr "id1"; VStr "id2"], [VArr [1; 2; 3]%Z; VArr [4; 5; 6]%Z].
    split; reflexivity.
  - exists t'. split; [exact Ht|]. rewrite Hout; [reflexivity|].
    intros [(v & Hkv & Hext) _]. cbn in Hkv. elem_cases Hkv;
      injection Hkv as ?; subst; discriminate.
Defined.


(** *** Document streams *)

Lemma gen_then_nil_l {A} (g : generated A) : gen_then ([], None) g = g.
Proof. by destruct g. Qed.

Lemma gen_then_assoc {A} (g1 g2 g3 : generated A) :
  gen_then (gen_then g1 g2) g3 = gen_then g1 (gen_then g2 g3).
Proof.
  destruct g1 as [o1 [e1|]]; [reflexivity|].
  destruct g2 as [o2 [e2|]]; [reflexivity|].
  destruct g3 as [o3 e3]. cbn. by rewrite <- app_assoc.
Qed.

Lemma emit_headers_app db (l1 l2 : list Header) stream_name fields fill :
  emit_headers db (l1 ++ l2) stream_name fields fill =
    gen_then (emit_headers db l1 stream_name fields fill)
             (emit_headers db l2 stream_name fields fill).
Proof.
  induction l1 as [|h l1 IH]; [cbn [app emit_headers]; by rewrite gen_then_nil_l|].
  cbn [app emit_headers].
  destruct (_fill_events_coro db (header_descriptors db h) fill true) as [c|e];
    [|reflexivity].
  by rewrite IH, gen_then_assoc.
Qed.

(** X19.  Without a field selection, the documents of [l1 ++ l2] are the documents
    of [l1] followed by those of [l2] (or the exception of [l1] alone), and a
    single header gives what the list of that one header gives. *)
Theorem get_documents_of_header_lists (db : Broker) (l1 l2 : list Header)
    (stream_name : stream_sel) (fill : fields_arg)
    (handler_registry : option (gmap string string)) :
  get_documents db (HeaderSeq (l1 ++ l2)) stream_name None fill handler_registry
  = gen_then
      (get_documents db (HeaderSeq l1) stream_name None fill handler_registry)
      (get_documents db (HeaderSeq l2) stream_name None fill handler_registry)
  ∧ ∀ h, get_documents db (SingleHeader h) stream_name None fill handler_registry
         = get_documents db (HeaderSeq [h]) stream_name None fill handler_registry.
Proof.
  split; [|reflexivity].
  unfold get_documents, check_fields_exist. cbn [default normalise_headers filter list_filter].
  destruct (reg db) as [r|e]; [|reflexivity].
  apply emit_headers_app.
Qed.

Lemma emit_docs_names c (gen : list (string * document)) :
  ∀ nd, nd ∈ (emit_docs c gen).1 →
        ∃ n, DOCT_NAMES nd.1 = Some n ∧ doct_name_of nd.2 = Some n.
Proof.
  induction gen as [|[name doc] gen IH]; intros nd Hnd; cbn in Hnd.
  - by apply elem_of_nil in Hnd.
  - destruct (if String.eqb name "event" then send_doc c doc else OK doc)
      as [doc'|e]; cbn in Hnd; [|by apply elem_of_nil in Hnd].
    unfold prepare_hook in Hnd.
    destruct (DOCT_NAMES name) as [n|] eqn:Hn; [|by apply elem_of_nil in Hnd].
    destruct (emit_docs c gen) as [out e]. cbn in Hnd, IH.
    apply elem_of_cons in Hnd as [->|Hnd]; [|by apply IH].
    exists n. split; [exact Hn|]. by destruct doc'.
Qed.

Lemma gen_then_elem {A} (g1 g2 : generated A) (x : A) :
  x ∈ (gen_then g1 g2).1 → x ∈ g1.1 ∨ x ∈ g2.1.
Proof.
  destruct g1 as [o1 [e1|]]; [by left|]. destruct g2 as [o2 e2]. cbn.
  apply elem_of_app.
Qed.

(** X20.  Every document that [get_documents] yields has a name of [DOCT_NAMES]
    and carries the display name that belongs to it. *)
Theorem get_documents_are_wrapped (db : Broker) (headers : headers_arg)
    (stream_name : stream_sel) (fields : option (list string)) (fill : fields_arg)
    (handler_registry : option (gmap string string)) (nd : string * document) :
  nd ∈ (get_documents db headers stream_name fields fill handler_registry).1 →
  ∃ n, DOCT_NAMES nd.1 = Some n ∧ doct_name_of nd.2 = Some n.
Proof.
  unfold get_documents.
  destruct (check_fields_exist _ _ _); [|intros H; by apply elem_of_nil in H].
  destruct (reg db) as [r|e]; [|intros H; by apply elem_of_nil in H].
  generalize (with_assets db (<["" := handler_context r handler_registry]> (assets db))).
  intros scoped. induction (normalise_headers headers) as [|h l IH]; cbn.
  - intros H. by apply elem_of_nil in H.
  - destruct (_fill_events_coro scoped (header_descriptors scoped h) fill true)
      as [c|e]; [|intros H; by apply elem_of_nil in H].
    intros H. apply gen_then_elem in H as [H|H]; [|by apply IH].
    clear IH. induction (event_sources scoped) as [|es ess IHs]; cbn in H.
    + by apply elem_of_nil in H.
    + apply gen_then_elem in H as [H|H]; [|by apply IHs].
      by eapply emit_docs_names.
Qed.

Lemma get_documents_are_wrapped_witness :
  ∃ n, DOCT_NAMES "start" = Some n
       ∧ doct_name_of (DStart (start_with_name (Some "Run Start") run1)) = Some n.
Proof.
  apply (get_documents_are_wrapped run_broker (SingleHeader h1) ALL None FieldsFalse None
           ("start", DStart (start_with_name (Some "Run Start") run1))).
  vm_compute. left.
Defined.

Lemma emit_docs_pass_through (gen : list (string * document)) :
  Forall (fun nd => is_Some (DOCT_NAMES nd.1)) gen →
  emit_docs PassThrough gen = (wrapped <$> gen, None).
Proof.
  induction 1 as [|[name doc] gen [n Hn] _ IH]; [reflexivity|].
  cbn [emit_docs]. cbn in Hn.
  replace (if String.eqb name "event" then send_doc PassThrough doc else OK doc)
    with (OK doc) by (by destruct (String.eqb name "event")).
  cbn. unfold prepare_hook. rewrite Hn, IH. cbn. unfold wrapped. cbn.
  by rewrite Hn.
Qed.

(** X21.  With [fill=False] and no field selection, [get_documents] yields what
    the event sources hold, header by header and event source by event
    source, each document with its display name, provided every name is one
    of [DOCT_NAMES]. *)
Theorem get_documents_unfilled_order (db : Broker) (r : Registry)
    (headers : headers_arg) (stream_name : stream_sel)
    (handler_registry : option (gmap string string)) :
  reg db = OK r →
  Forall (fun nd => is_Some (DOCT_NAMES nd.1))
         (source_documents db (normalise_headers headers) stream_name None) →
  get_documents db headers stream_name None FieldsFalse handler_registry
  = (wrapped <$> source_documents db (normalise_headers headers) stream_name None, None).
Proof.
  intros Hreg. unfold get_documents, check_fields_exist.
  cbn [default filter list_filter]. rewrite Hreg.
  set (scoped := with_assets db _).
  unfold source_documents. change (event_sources db) with (event_sources scoped).
  induction (normalise_headers headers) as [|h l IH]; intros Hall; [reflexivity|].
  cbn [flat_map] in Hall |- *. apply Forall_app in Hall as [Hh Hl].
  cbn [emit_headers _fill_events_coro normalise_fields].
  rewrite (IH Hl), fmap_app. clear IH Hl.
  assert (Hs : ∀ sources,
             Forall (fun nd => is_Some (DOCT_NAMES nd.1))
                    (flat_map (fun es => docs_given_header es h stream_name None)
                              sources) →
             emit_sources PassThrough sources h stream_name None
             = (wrapped <$> flat_map (fun es => docs_given_header es h stream_name None)
                                     sources, None)).
  { induction sources as [|es sources IHs]; intros Hes; [reflexivity|].
    cbn [flat_map] in Hes |- *. apply Forall_app in Hes as [Hes Hrest].
    cbn [emit_sources]. rewrite emit_docs_pass_through, (IHs Hrest) by done.
    cbn. by rewrite fmap_app. }
  rewrite (Hs _ Hh). reflexivity.
Qed.

Lemma get_documents_unfilled_order_witness :
  get_documents run_broker (SingleHeader h1) ALL None FieldsFalse None
  = (wrapped <$> source_documents run_broker [h1] ALL None, None).
Proof.
  apply (get_documents_unfilled_order run_broker sample_registry (SingleHeader h1));
    [reflexivity|].
  vm_compute. repeat constructor; eexists; reflexivity.
Defined.


(** *** More on export *)

Lemma mds_extends_refl m : mds_extends m m.
Proof. by repeat split. Qed.

Lemma mds_extends_trans m1 m2 m3 :
  mds_extends m1 m2 → mds_extends m2 m3 → mds_extends m1 m3.
Proof.
  intros (?&?&?&?) (?&?&?&?). repeat split; by etransitivity.
Qed.

Lemma export_events_extends evs : ∀ m, mds_extends m (export_events m evs).1.
Proof.
  induction evs as [|ev evs IH]; intros m; [apply mds_extends_refl|].
  cbn. destruct (export_event m ev) as [m'|e] eqn:He; [|apply mds_extends_refl].
  eapply mds_extends_trans; [|apply IH].
  destruct ev; cbn in He; try discriminate.
  unfold insert_event in He. case_bool_decide; [|discriminate].
  injection He as <-.
  repeat split; try done. cbn. by apply prefix_app_r.
Qed.

Lemma export_descriptors_extends ds :
  ∀ m events, mds_extends m (export_descriptors m ds events).1.
Proof.
  induction ds as [|d ds IH]; intros m events; [apply mds_extends_refl|].
  cbn [export_descriptors].
  pose proof (export_events_extends events.1 (insert_descriptor m (exported_descriptor d)))
    as Hev.
  assert (Hd : mds_extends m (insert_descriptor m (exported_descriptor d))).
  { repeat split; try done. cbn. by apply prefix_app_r. }
  destruct (export_events _ _) as [m' [e|]]; cbn [fst] in *.
  - by eapply mds_extends_trans.
  - destruct events.2.
    + by eapply mds_extends_trans.
    + eapply mds_extends_trans; [|apply IH]. by eapply mds_extends_trans.
Qed.

Lemma export_header_extends db copy_assets m header :
  mds_extends m (export_header db copy_assets m header).1.
Proof.
  unfold export_header.
  pose proof (export_descriptors_extends (header_descriptors db header)
                (insert_run_start m (exported_start (start header)))
                (get_events_default db (SingleHeader header))) as Hd.
  assert (Hs : mds_extends m (insert_run_start m (exported_start (start header)))).
  { repeat split; try done. cbn. by apply prefix_app_r. }
  destruct (export_descriptors _ _ _) as [m' [e|]]; cbn [fst] in *.
  - by eapply mds_extends_trans.
  - destruct (stop header); cbn [fst].
    + eapply mds_extends_trans; [by eapply mds_extends_trans|].
      repeat split; try done. cbn. by apply prefix_app_r.
    + by eapply mds_extends_trans.
Qed.

Lemma export_loop_extends db copy_assets headers :
  ∀ m fps, mds_extends m (export_loop db copy_assets m headers fps).1.
Proof.
  induction headers as [|h headers IH]; intros m fps; [apply mds_extends_refl|].
  cbn [export_loop].
  pose proof (export_header_extends db copy_assets m h) as Hh.
  destruct (export_header db copy_assets m h) as [m' [fps'|e]]; cbn [fst] in *.
  - eapply mds_extends_trans; [exact Hh | apply IH].
  - exact Hh.
Qed.

(** X22.  [export] only appends to the destination: its run starts, run stops,
    descriptors and events are still there, at the same places, whether the
    export succeeds or raises. *)
Theorem export_only_appends (db : Broker)
    (copy_assets : Header -> result (list (string * string)))
    (headers : headers_arg) (dest : MDS) :
  mds_extends dest (export db copy_assets headers dest).1.
Proof. apply export_loop_extends. Qed.

Lemma export_single db copy_assets (header : Header) (dest : MDS) :
  export db copy_assets (SingleHeader header) dest
  = export_header db copy_assets dest header.
Proof.
  unfold export. cbn [normalise_headers export_loop].
  by destruct (export_header db copy_assets dest header) as [m' [fps|e]].
Qed.

(** X23.  Exporting a closed run whose first descriptor is [d], when
    [get_events] yields the events [evs]: all the events are inserted right
    after [d], before the other descriptors.  When the descriptor of every
    event is [d] or a descriptor the destination already has, the
    destination gains the start, the stop, all the descriptors and each
    event exactly once, and the result is what the copy of the assets gives
    (when that raises, the documents stay inserted).  Otherwise the export
    raises the [KeyError] of the first event whose descriptor is missing,
    and the destination keeps the start, [d] and the events before it. *)
Theorem export_one_header (db : Broker)
    (copy_assets : Header -> result (list (string * string)))
    (dest : MDS) (header : Header) (st : RunStop)
    (d : Descriptor) (ds : list Descriptor) (evs : list Event) :
  stop header = Some st →
  header_descriptors db header = d :: ds →
  get_events_default db (SingleHeader header) = (DEvent <$> evs, None) →
  let known (ev : Event) := descriptor ev ∈ desc_uid <$> (descriptors dest ++ [d]) in
  (Forall known evs →
   export db copy_assets (SingleHeader header) dest
   = (mkMDS (run_starts dest ++ [exported_start (start header)])
            (run_stops dest ++ [exported_stop st])
            (descriptors dest ++ (exported_descriptor <$> d :: ds))
            (events dest ++ (exported_event <$> evs)),
      copy_assets header))
  ∧ (∀ before ev after,
       evs = before ++ ev :: after →
       Forall known before →
       ¬ known ev →
       export db copy_assets (SingleHeader header) dest
       = (mkMDS (run_starts dest ++ [exported_start (start header)])
                (run_stops dest)
                (descriptors dest ++ [exported_descriptor d])
                (events dest ++ (exported_event <$> before)),
          Raise (KeyError (descriptor ev)))).
Proof.
  intros Hstop Hds Hevs known. rewrite export_single.
  unfold export_header. rewrite Hevs, Hstop, Hds.
  cbn [export_descriptors fst snd].
  set (m1 := insert_descriptor _ _).
  assert (Hknown : ∀ ev, known ev ↔ descriptor ev ∈ desc_uid <$> descriptors m1).
  { intros ev. subst known m1. cbn [descriptors insert_descriptor insert_run_start].
    by rewrite !fmap_app. }
  split.
  - intros Hall. rewrite export_events_all.
    2:{ eapply Forall_impl; [exact Hall|]. intros ev. apply Hknown. }
    rewrite export_descriptors_no_events. cbn.
    by rewrite <- (assoc_L (++)).
  - intros before ev after -> Hall Hev.
    rewrite (export_events_unknown before after ev m1).
    + reflexivity.
    + eapply Forall_impl; [exact Hall|]. intros ev'. apply Hknown.
    + by rewrite <- Hknown.
Qed.

Lemma export_one_header_witness :
  export run_broker (fun _ => Raise (KeyError "resource")) (SingleHeader h1) empty_mds
  = (mkMDS [exported_start (start h1)] [exported_stop (stop_with_name (Some "Run Stop") stop1)]
           (exported_descriptor <$> [d_primary; d_baseline])
           (exported_event <$> [with_doct_name (Some "Event") e1]),
     Raise (KeyError "resource"))
  ∧ export baseline_first_broker (fun _ => OK []) (SingleHeader h1) empty_mds
    = (mkMDS [exported_start (start h1)] [] [exported_descriptor d_baseline] [],
       Raise (KeyError "d-primary")).
Proof.
  split.
  - apply (export_one_header run_broker (fun _ => Raise (KeyError "resource")) empty_mds h1
             (stop_with_name (Some "Run Stop") stop1) d_primary [d_baseline]
             [with_doct_name (Some "Event") e1]).
    + reflexivity.
    + reflexivity.
    + vm_compute. reflexivity.
    + repeat constructor.
  - apply (proj2 (export_one_header baseline_first_broker (fun _ => OK []) empty_mds h1
                    (stop_with_name (Some "Run Stop") stop1) d_baseline [d_primary]
                    [with_doct_name (Some "Event") e1]
                    eq_refl eq_refl ltac:(vm_compute; reflexivity))
             [] (with_doct_name (Some "Event") e1) []).
    + reflexivity.
    + constructor.
    + intros H. cbn in H. elem_cases H. discriminate.
Defined.

Lemma export_loop_acc db copy_assets headers :
  ∀ m fps,
    export_loop db copy_assets m headers fps =
      match export_loop db copy_assets m headers [] with
      | (m', OK fps') => (m', OK (fps ++ fps'))
      | (m', Raise e) => (m', Raise e)
      end.
Proof.
  induction headers as [|h headers IH]; intros m fps.
  - cbn. by rewrite app_nil_r.
  - cbn [export_loop].
    destruct (export_header db copy_assets m h) as [m' [fps'|e]]; [|reflexivity].
    rewrite (IH m' (fps ++ fps')), (IH m' ([] ++ fps')).
    destruct (export_loop db copy_assets m' headers []) as [m'' [fps''|e]];
      [|reflexivity].
    cbn. by rewrite app_assoc.
Qed.

Lemma export_loop_app db copy_assets (l1 l2 : list Header) :
  ∀ m fps,
    export_loop db copy_assets m (l1 ++ l2) fps =
      match export_loop db copy_assets m l1 fps with
      | (m1, OK fps1) => export_loop db copy_assets m1 l2 fps1
      | (m1, Raise e) => (m1, Raise e)
      end.
Proof.
  induction l1 as [|h l1 IH]; intros m fps; [reflexivity|].
  cbn [app export_loop].
  destruct (export_header db copy_assets m h) as [m' [fps'|e]]; [|reflexivity].
  apply IH.
Qed.

(** X24.  Exporting [l1 ++ l2] is exporting [l1] and then [l2] into what the
    first export left; the file pairs are joined in order, and a failure in
    [l1] ends the export. *)
Theorem export_of_header_lists (db : Broker)
    (copy_assets : Header -> result (list (string * string)))
    (l1 l2 : list Header) (dest : MDS) :
  export db copy_assets (HeaderSeq (l1 ++ l2)) dest =
    match export db copy_assets (HeaderSeq l1) dest with
    | (m1, OK fps1) =>
        match export db copy_assets (HeaderSeq l2) m1 with
        | (m2, OK fps2) => (m2, OK (fps1 ++ fps2))
        | (m2, Raise e) => (m2, Raise e)
        end
    | (m1, Raise e) => (m1, Raise e)
    end.
Proof.
  unfold export. cbn [normalise_headers]. rewrite export_loop_app.
  destruct (export_loop db copy_assets dest l1 []) as [m1 [fps1|e]]; [|reflexivity].
  apply export_loop_acc.
Qed.


(** *** Configuration files *)

Lemma substring_all (s : string) : String.substring 0 (String.length s) s = s.
Proof. induction s as [|c s IH]; [reflexivity|]. cbn. by rewrite IH. Qed.

Lemma substring_append (a b : string) :
  String.substring (String.length a) (String.length b) (a +:+ b) = b.
Proof.
  induction a as [|c a IH]; [apply substring_all|].
  change (String c a +:+ b) with (String c (a +:+ b)). exact IH.
Qed.

Lemma string_length_append (a b : string) :
  String.length (a +:+ b) = String.length a + String.length b.
Proof.
  induction a as [|c a IH]; [reflexivity|].
  change (String c a +:+ b) with (String c (a +:+ b)). cbn. by rewrite IH.
Qed.

Lemma endswith_append (a b : string) : endswith (a +:+ b) b = true.
Proof.
  unfold endswith. cbv zeta. rewrite !string_length_append.
  replace (String.length a + String.length b - String.length b)
    with (String.length a) by lia.
  rewrite substring_append, String.eqb_refl, andb_true_r.
  apply Nat.leb_le. lia.
Qed.

Lemma lookup_in_first {C} join isfile (load : string -> C) name :
  ∀ (before : list string) (p : string) (after tried : list string),
    (∀ q, q ∈ before → isfile (join q name) = false) →
    isfile (join p name) = true →
    lookup_in join isfile load (before ++ p :: after) name tried
      = inr (load (join p name)).
Proof.
  induction before as [|q before IH]; intros p after tried Hb Hp.
  - cbn. by rewrite Hp.
  - cbn. rewrite (Hb q) by left. apply IH; [|done].
    intros q' Hq'. apply Hb. by right.
Qed.

Lemma lookup_in_none {C} join isfile (load : string -> C) name :
  ∀ (paths tried : list string),
    (∀ q, q ∈ paths → isfile (join q name) = false) →
    lookup_in join isfile load paths name tried
      = inl (ConfigNotFound name (tried ++ ((fun q => join q name) <$> paths))).
Proof.
  induction paths as [|q paths IH]; intros tried Hall.
  - cbn. by rewrite app_nil_r.
  - cbn. rewrite (Hall q) by left. rewrite IH.
    + by rewrite <- app_assoc.
    + intros q' Hq'. apply Hall. by right.
Qed.

(** X25.  [lookup_config] loads the file of the first directory of the search
    path that has one; when none has, the error names the file and lists every
    path tried, in order; and a name is looked up the same with and without
    the [.yml] ending. *)
Theorem lookup_config_first_match {C} (join : string -> string -> string)
    (isfile : string -> bool) (load : string -> C)
    (CONFIG_SEARCH_PATH : list string) (name : string) :
  let filename := if endswith name ".yml" then name else name +:+ ".yml" in
  (∀ before p after,
     CONFIG_SEARCH_PATH = before ++ p :: after →
     (∀ q, q ∈ before → isfile (join q filename) = false) →
     isfile (join p filename) = true →
     lookup_config join isfile load CONFIG_SEARCH_PATH name
       = inr (load (join p filename)))
  ∧ ((∀ q, q ∈ CONFIG_SEARCH_PATH → isfile (join q filename) = false) →
     lookup_config join isfile load CONFIG_SEARCH_PATH name
       = inl (ConfigNotFound filename
                ((fun q => join q filename) <$> CONFIG_SEARCH_PATH)))
  ∧ lookup_config join isfile load CONFIG_SEARCH_PATH filename
    = lookup_config join isfile load CONFIG_SEARCH_PATH name.
Proof.
  intros filename. unfold lookup_config. fold filename. split; [|split].
  - intros before p after -> Hb Hp. by apply lookup_in_first.
  - intros Hall. by rewrite lookup_in_none.
  - replace (if endswith filename ".yml" then filename else filename +:+ ".yml")
      with filename; [reflexivity|].
    subst filename. destruct (endswith name ".yml") eqn:E.
    + by rewrite E.
    + by rewrite endswith_append.
Qed.

Lemma lookup_config_first_match_witness :
  lookup_config (fun p n => p +:+ "/" +:+ n)
                (fun f => String.eqb f "/etc/databroker/example.yml"
                          || String.eqb f "etc2/example.yml")
                String.length
                ["/home/u/.config/databroker"; "/etc/databroker"; "etc2"] "example"
  = inr (String.length "/etc/databroker/example.yml").
Proof.
  apply (proj1 (lookup_config_first_match (fun p n => p +:+ "/" +:+ n)
                  (fun f => String.eqb f "/etc/databroker/example.yml"
                            || String.eqb f "etc2/example.yml")
                  String.length
                  ["/home/u/.config/databroker"; "/etc/databroker"; "etc2"] "example")
               ["/home/u/.config/databroker"] "/etc/databroker" ["etc2"]).
  - reflexivity.
  - intros q Hq. elem_cases Hq. reflexivity.
  - reflexivity.
Defined.
